(** * A shallow embedding of the CSR matrix engine of [src/Matrix.ts]

    The class [Matrix] keeps a sparse matrix in compressed-sparse-row form:
    three parallel arrays [V], [COL_INDEX], [ROW_INDEX] and the two shape
    fields [rows], [cols].  Every method of the class is translated below
    into a function on a record with the same five fields.

    Modelling conventions.
    - A stored value (a JS [number] of [V]) is an integer of [Z]; an index
      held in [COL_INDEX] or [ROW_INDEX], and an index used to address an
      array, is a natural number.  The shape fields are integers of [Z]: the
      constructor stores whatever it is given.
    - The arithmetic on values is that of binary64: the sum or the product
      of two numbers is the exact one rounded to 53 significant bits, ties
      to even ([number_add], [number_mul]).  A result beyond the largest
      finite binary64 is an infinity in JS, which is no integer; the
      rounding here keeps the exponent unbounded, and every statement that
      tells a computed value keeps to values where the two agree: to
      results that are [finite], or to values so small that nothing is
      rounded at all.
    - A read [a[i]] outside the array is [undefined] in JS.  It is a lookup
      [a !! i] returning [None] here; where the method only branches on the
      value (a loop bound, an argument of [slice] or [splice]) the branch the
      JS code takes is written out.  Where [undefined] or [NaN] would be
      stored in an array, used as a key, or returned, the function answers
      [Undefined]: the execution goes on in JS, with values that this
      integer model does not hold, and no statement below follows it there.
    - A method that mutates its receiver returns the receiver's new state.
    - [throw new Error(..)] is [Throw e], with [e] named as in the
      specification's list of error kinds.
    - A loop that is not a counted loop, and the recursion of the
      determinant, take a bound on the number of steps; the bound passed is
      shown to be enough ([hadamard_walk_enough], [determinant_steps_enough]).
    - The getter [data] writes into an array of arrays; a write into a
      missing row is the TypeError of the runtime, which is no error of the
      engine and has an outcome of its own ([completion]).
    - An array is a list of any length: the limit on the length of a JS
      array is not modelled. *)

From stdpp Require Import prelude sorting.
From Stdlib Require Import ZArith Lia.
From Stdlib Require Import Floats.SpecFloat.

Local Open Scope nat_scope.

(** * The code *)

(** ** Outcomes of a method call *)

Inductive error : Type :=
  | InvalidShape        (* named by the specification; no code path raises it *)
  | DimensionMismatch   (* "Matrix dimensions must match." *)
  | NotSquareMatrix     (* "A matriz não é quadrada" *)
  | RangeError.         (* raised by [new Array(n)] for a negative [n] *)

Inductive result (A : Type) : Type :=
  | Ok (a : A)
  | Throw (e : error)
  | Undefined.

Arguments Ok {A} a.
Arguments Throw {A} e.
Arguments Undefined {A}.

#[global] Instance result_ret : MRet result := λ A a, Ok a.
#[global] Instance result_bind : MBind result := λ A B f r,
  match r with
  | Ok a => f a
  | Throw e => Throw e
  | Undefined => Undefined
  end.

(** [a[i]] read as a value that must be a number. *)
Definition read {A} (a : list A) (i : nat) : result A :=
  match a !! i with
  | Some x => Ok x
  | None => Undefined
  end.

(** ** Numbers *)

(** The binary64 nearest to the integer [z], ties to the even significand,
    as long as no overflow occurs: every integer up to 2^53 in magnitude is
    a binary64; a larger one keeps its 53 leading bits, [q], and the bits
    below them, [r], decide the rounding. *)
Definition round64 (z : Z) : Z :=
  let a := Z.abs z in
  if decide (a ≤ 2 ^ 53)%Z then z
  else
    let e := (Z.log2 a - 52)%Z in
    let q := (a / 2 ^ e)%Z in
    let r := (a mod 2 ^ e)%Z in
    let half := (2 ^ (e - 1))%Z in
    let q' := if decide (r < half)%Z then q
              else if decide (half < r)%Z then (q + 1)%Z
              else if Z.even q then q else (q + 1)%Z in
    (Z.sgn z * (q' * 2 ^ e))%Z.

(** [x + y] and [x * y] on numbers.  [x - y] is [x + (-y)], in binary64 as
    in [Z]. *)
Definition number_add (x y : Z) : Z := round64 (x + y).
Definition number_mul (x y : Z) : Z := round64 (x * y).

(** ** JS array primitives *)

(** [a.slice(s, e)]: an [undefined] start is 0, an [undefined] end is the
    length; both are clamped to the length and an end before the start gives
    the empty array. *)
Definition slice {A} (a : list A) (s e : option nat) : list A :=
  let s' := default 0 s in
  let e' := default (length a) e in
  take (e' - s') (drop s' a).

(** [a.indexOf(x)]: position of the first occurrence; [None] stands for -1. *)
Fixpoint indexOf (x : nat) (a : list nat) : option nat :=
  match a with
  | [] => None
  | y :: a' => if decide (y = x) then Some 0 else S <$> indexOf x a'
  end.

(** [a.splice(i, 0, x)] and [a.splice(i, 1)]; the start is clamped to the
    length. *)
Definition splice_insert {A} (a : list A) (i : nat) (x : A) : list A :=
  take i a ++ x :: drop i a.

Definition splice_remove {A} (a : list A) (i : nat) : list A :=
  take i a ++ drop (S i) a.

(** The values [0, 1, .., n-1] of a counter [for (let i = 0; i < n; i++)],
    and [s, .., e-1] of [for (let i = s; i < e; i++)]. *)
Definition upto (n : Z) : list nat := seq 0 (Z.to_nat n).
Definition range (s e : nat) : list nat := seq s (e - s).

(** ** The store *)

Record Matrix : Type := mkMatrix {
  rows : Z;
  cols : Z;
  V : list Z;
  COL_INDEX : list nat;
  ROW_INDEX : list nat
}.

(** The three local arrays [C_V], [C_COL_INDEX], [C_ROW_INDEX] that the
    operations fill before they wrap them in a new [Matrix]. *)
Record arrays : Type := mkArrays {
  C_V : list Z;
  C_COL_INDEX : list nat;
  C_ROW_INDEX : list nat
}.

(** [const C = new Matrix(r, c); C.V = ..; C.COL_INDEX = ..; C.ROW_INDEX = ..] *)
Definition with_arrays (r c : Z) (a : arrays) : Matrix :=
  {| rows := r; cols := c; V := C_V a; COL_INDEX := C_COL_INDEX a;
     ROW_INDEX := C_ROW_INDEX a |}.

(** [V.push(v); COL_INDEX.push(c)] and [ROW_INDEX.push(n)] on [this]. *)
Definition push_entry (m : Matrix) (v : Z) (c : nat) : Matrix :=
  {| rows := rows m; cols := cols m; V := V m ++ [v];
     COL_INDEX := COL_INDEX m ++ [c]; ROW_INDEX := ROW_INDEX m |}.

Definition push_row (m : Matrix) (n : nat) : Matrix :=
  {| rows := rows m; cols := cols m; V := V m; COL_INDEX := COL_INDEX m;
     ROW_INDEX := ROW_INDEX m ++ [n] |}.

(** The same pushes on the local arrays. *)
Definition emit (a : arrays) (v : Z) (c : nat) : arrays :=
  {| C_V := C_V a ++ [v]; C_COL_INDEX := C_COL_INDEX a ++ [c];
     C_ROW_INDEX := C_ROW_INDEX a |}.

Definition close_row (a : arrays) (n : nat) : arrays :=
  {| C_V := C_V a; C_COL_INDEX := C_COL_INDEX a;
     C_ROW_INDEX := C_ROW_INDEX a ++ [n] |}.

Definition empty_arrays : arrays :=
  {| C_V := []; C_COL_INDEX := []; C_ROW_INDEX := [0] |}.

(** ** Construction: [constructor] and [sparseData] *)

(** The argument [data : number[][]] as the code inspects it: [data[i]] may be
    missing or falsy ([None]), and a cell may be missing or not a number
    ([None]). *)
Abbreviation dense := (list (option (list (option Z)))).

(** [data[i] && typeof data[i][j] === "number"], giving the number. *)
Definition numeric_cell (data : dense) (i j : nat) : option Z :=
  match data !! i with
  | Some (Some r) =>
      match r !! j with
      | Some (Some x) => Some x
      | _ => None
      end
  | _ => None
  end.

Definition sparseData_cell (data : dense) (i : nat) (st : Matrix * nat) (j : nat)
  : Matrix * nat :=
  let '(this, row_end) := st in
  match numeric_cell data i j with
  | Some x => if decide (x ≠ 0%Z) then (push_entry this x j, row_end + 1) else st
  | None => st
  end.

Definition sparseData_row (data : dense) (st : Matrix * nat) (i : nat) : Matrix * nat :=
  let '(this, row_end) := foldl (sparseData_cell data i) st (upto (cols st.1)) in
  (push_row this row_end, row_end).

Definition sparseData (this : Matrix) (data : dense) : Matrix :=
  let this0 := {| rows := rows this; cols := cols this; V := [];
                  COL_INDEX := []; ROW_INDEX := [0] |} in
  (foldl (sparseData_row data) (this0, 0) (upto (rows this))).1.

(** [new Matrix(rows, cols, data?)].  There is no validation of the shape. *)
Definition construct (r c : Z) (data : option dense) : result Matrix :=
  let this := {| rows := r; cols := c; V := []; COL_INDEX := []; ROW_INDEX := [0] |} in
  match data with
  | Some d => Ok (sparseData this d)
  | None => Ok this
  end.

(** [fromArray(arr)], [identity(size)] and [zeros(rows, cols)].  The last two
    build the same empty store. *)
Definition fromArray (arr : list Z) : result Matrix :=
  construct 1 (Z.of_nat (length arr)) (Some [Some (Some <$> arr)]).

Definition identity (size : Z) : result Matrix := construct size size None.

Definition zeros (r c : Z) : result Matrix := construct r c None.

(** ** Point access: [get] and [set] *)

(** The columns stored for [row]:
    [COL_INDEX.slice(ROW_INDEX[row], ROW_INDEX[row + 1])]. *)
Definition columns (m : Matrix) (row : nat) : list nat :=
  slice (COL_INDEX m) (ROW_INDEX m !! row) (ROW_INDEX m !! (row + 1)).

Definition get (m : Matrix) (row col : nat) : result Z :=
  match indexOf col (columns m row) with
  | None => Ok 0%Z
  | Some i => s ← read (ROW_INDEX m) row; read (V m) (s + i)
  end.

(** [for (let i = row + 1; i < ROW_INDEX.length; i++) ROW_INDEX[i] += 1] *)
Definition bump_offsets (row : nat) (r : list nat) : list nat :=
  imap (λ k x, if decide (row + 1 ≤ k) then x + 1 else x) r.

(** [.. ROW_INDEX[i] -= 1]; an offset 0 would become -1. *)
Definition drop_offsets (row : nat) (r : list nat) : result (list nat) :=
  if decide (Forall (λ x, 0 < x) (drop (row + 1) r))
  then Ok (imap (λ k x, if decide (row + 1 ≤ k) then x - 1 else x) r)
  else Undefined.

Definition set (m : Matrix) (row col : nat) (value : Z) : result Matrix :=
  let cs := columns m row in
  match indexOf col cs with
  | None =>
      if decide (value ≠ 0%Z) then
        (* [ROW_INDEX[row] + columns.length]; [NaN] is position 0 for splice *)
        let index := match ROW_INDEX m !! row with
                     | Some s => s + length cs
                     | None => 0
                     end in
        Ok {| rows := rows m; cols := cols m;
              V := splice_insert (V m) index value;
              COL_INDEX := splice_insert (COL_INDEX m) index col;
              ROW_INDEX := bump_offsets row (ROW_INDEX m) |}
      else Ok m
  | Some i =>
      if decide (value = 0%Z) then
        let index := match ROW_INDEX m !! row with
                     | Some s => s + i
                     | None => 0
                     end in
        r ← drop_offsets row (ROW_INDEX m);
        Ok {| rows := rows m; cols := cols m;
              V := splice_remove (V m) index;
              COL_INDEX := splice_remove (COL_INDEX m) index;
              ROW_INDEX := r |}
      else
        match ROW_INDEX m !! row with
        | None => Ok m          (* [V[NaN] = value] adds no array element *)
        | Some s =>
            if decide (s + i < length (V m)) then
              Ok {| rows := rows m; cols := cols m;
                    V := <[s + i := value]> (V m);
                    COL_INDEX := COL_INDEX m; ROW_INDEX := ROW_INDEX m |}
            else if decide (s + i = length (V m)) then
              Ok {| rows := rows m; cols := cols m; V := V m ++ [value];
                    COL_INDEX := COL_INDEX m; ROW_INDEX := ROW_INDEX m |}
            else Undefined       (* the write would leave holes in [V] *)
        end
  end.

(** ** Iteration *)

(** A loop whose body may leave the model: the state is threaded through the
    iterations in order, and the first outcome that is not [Ok] ends it. *)
Fixpoint foldlM {A B} (f : B → A → result B) (b : B) (l : list A) : result B :=
  match l with
  | [] => Ok b
  | x :: l' => b' ← f b x; foldlM f b' l'
  end.

(** The counter values of [for (let j = ROW_INDEX[i]; j < ROW_INDEX[i + 1]; j++)].
    A comparison with [undefined] is false, so the loop body never runs when a
    bound is missing. *)
Definition row_range (m : Matrix) (i : nat) : list nat :=
  match ROW_INDEX m !! i, ROW_INDEX m !! (i + 1) with
  | Some s, Some e => range s e
  | _, _ => []
  end.

(** [toArray()]: every cell of the grid, row by row, read with [get]. *)
Definition toArray (m : Matrix) : result (list Z) :=
  foldlM (λ arr row,
            foldlM (λ arr col, v ← get m row col; Ok (arr ++ [v])) arr (upto (cols m)))
         [] (upto (rows m)).

(** [forEach(callback, strict)].  The callback acts on some state [St] of its
    own (the arrays its closure captures). *)
Definition forEach {St} (m : Matrix) (callback : St → Z → nat → nat → St)
    (strict : bool) (s0 : St) : result St :=
  if strict then
    foldlM (λ s row,
              foldlM (λ s i,
                        col ← read (COL_INDEX m) i;
                        value ← read (V m) i;
                        Ok (callback s value row col))
                     s (row_range m row))
           s0 (seq 0 (length (ROW_INDEX m) - 1))
  else
    foldlM (λ s row,
              foldlM (λ s col, value ← get m row col; Ok (callback s value row col))
                     s (upto (cols m)))
           s0 (upto (rows m)).

(** [forEachRow(row, callback, strict)]: the stored entries of one row, or
    every cell of the row read with [get]. *)
Definition forEachRow {St} (m : Matrix) (row : nat) (callback : St → Z → nat → St)
    (strict : bool) (s0 : St) : result St :=
  if strict then
    foldlM (λ s i,
              col ← read (COL_INDEX m) i;
              value ← read (V m) i;
              Ok (callback s value col))
           s0 (row_range m row)
  else
    foldlM (λ s col, value ← get m row col; Ok (callback s value col))
           s0 (upto (cols m)).

(** [forEachCol(col, callback, strict)].  The strict branch looks in every
    row for the first stored entry of the column ([break]); a position
    without a column, compared with [===], is passed over. *)
Definition forEachCol {St} (m : Matrix) (col : nat) (callback : St → Z → nat → St)
    (strict : bool) (s0 : St) : result St :=
  if strict then
    foldlM (λ s row,
              match list_find (λ i, COL_INDEX m !! i = Some col) (row_range m row) with
              | Some (_, i) => value ← read (V m) i; Ok (callback s value row)
              | None => Ok s
              end)
           s0 (seq 0 (length (ROW_INDEX m) - 1))
  else
    foldlM (λ s row, value ← get m row col; Ok (callback s value row))
           s0 (upto (rows m)).

(** ** [map] *)

(** The closure passed to [forEach] in the strict branch. *)
Definition map_visit (callback : Z → nat → nat → Z) (C : arrays)
    (value : Z) (row col : nat) : arrays :=
  let newValue := callback value row col in
  let C1 := if decide (newValue ≠ 0%Z) then emit C newValue col else C in
  if decide (length (C_ROW_INDEX C1) - 1 < row + 1)
  then close_row C1 (length (C_V C1))
  else C1.

(** One cell of the non-strict branch: it reads and pushes on [this]. *)
Definition map_cell (callback : Z → nat → nat → Z) (i : nat)
    (st : Matrix * nat) (j : nat) : result (Matrix * nat) :=
  let '(this, row_end) := st in
  value ← get this i j;
  let newValue := callback value i j in
  if decide (newValue ≠ 0%Z)
  then Ok (push_entry this newValue j, row_end + 1)
  else Ok st.

(** [map(callback, strict)] returns the receiver as the call leaves it,
    together with the store [C] that the method returns. *)
Definition map (this : Matrix) (callback : Z → nat → nat → Z) (strict : bool)
  : result (Matrix * Matrix) :=
  if strict then
    C ← forEach this (map_visit callback) true empty_arrays;
    Ok (this, with_arrays (rows this) (cols this) C)
  else
    st ← foldlM (λ st i,
                   '(this', row_end) ← foldlM (map_cell callback i) st (upto (cols st.1));
                   Ok (push_row this' row_end, row_end))
                (this, 0) (upto (rows this));
    Ok (st.1, with_arrays (rows this) (cols this) empty_arrays).

(** ** [transpose] *)

(** [a[pos] = x] on a JS array: a write past the end extends the array and
    leaves holes ([None]) in between. *)
Definition js_write {A} (a : list (option A)) (pos : nat) (x : A) : list (option A) :=
  if decide (pos < length a) then <[pos := Some x]> a
  else a ++ replicate (pos - length a) None ++ [Some x].

(** An array is a list of numbers once it has no hole left. *)
Definition no_holes {A} (a : list (option A)) : result (list A) :=
  match mapM id a with
  | Some l => Ok l
  | None => Undefined
  end.

(** First pass: [T_ROW_INDEX[col + 1]++] for every stored entry. *)
Definition count_columns (m : Matrix) (T_ROW_INDEX : list nat) : result (list nat) :=
  foldlM (λ t i,
            col ← read (COL_INDEX m) i;
            n ← read t (col + 1);
            Ok (<[col + 1 := n + 1]> t))
         T_ROW_INDEX (seq 0 (length (V m))).

(** Second pass: [T_ROW_INDEX[i] += T_ROW_INDEX[i - 1]] for [i = 1 .. cols]. *)
Definition prefix_sums (m : Matrix) (T_ROW_INDEX : list nat) : result (list nat) :=
  foldlM (λ t i,
            x ← read t i;
            y ← read t (i - 1);
            Ok (<[i := x + y]> t))
         T_ROW_INDEX (seq 1 (Z.to_nat (cols m))).

Record scatter_state : Type := mkScatter {
  rowPtr : list nat;
  T_V : list (option Z);
  T_COL_INDEX : list (option nat)
}.

(** Third pass, one stored entry [j] of row [i]. *)
Definition scatter_entry (m : Matrix) (i : nat) (st : scatter_state) (j : nat)
  : result scatter_state :=
  col ← read (COL_INDEX m) j;
  pos ← read (rowPtr st) col;
  v ← read (V m) j;
  Ok {| rowPtr := <[col := pos + 1]> (rowPtr st);
        T_V := js_write (T_V st) pos v;
        T_COL_INDEX := js_write (T_COL_INDEX st) pos i |}.

Definition scatter (m : Matrix) (T_ROW_INDEX : list nat) : result scatter_state :=
  foldlM (λ st i, foldlM (scatter_entry m i) st (row_range m i))
         {| rowPtr := T_ROW_INDEX; T_V := []; T_COL_INDEX := [] |}
         (upto (rows m)).

Definition transpose (this : Matrix) : result Matrix :=
  (* [new Array(this.cols + 1).fill(0)] *)
  if decide (cols this + 1 < 0)%Z then Throw RangeError else
  t0 ← count_columns this (replicate (Z.to_nat (cols this + 1)) 0);
  T_ROW_INDEX ← prefix_sums this t0;
  st ← scatter this T_ROW_INDEX;
  tv ← no_holes (T_V st);
  tc ← no_holes (T_COL_INDEX st);
  Ok {| rows := cols this; cols := rows this; V := tv; COL_INDEX := tc;
        ROW_INDEX := T_ROW_INDEX |}.

(** ** The getter [data] *)

(** The callback of [data] writes [data[row][col] = value]; on a missing row
    the runtime raises a TypeError, which ends the iteration and the getter.
    It is not one of the errors of the engine. *)
Inductive completion (A : Type) : Type :=
  | Normal (a : A)
  | TypeError.

Arguments Normal {A} a.
Arguments TypeError {A}.

(** [forEach(callback)] in its default strict mode, for a callback that may
    raise: nothing is read or called after the callback has raised. *)
Definition forEach_raising {St} (m : Matrix)
    (callback : St → Z → nat → nat → completion St) (s0 : St)
  : result (completion St) :=
  foldlM (λ s row,
            foldlM (λ s i,
                      match s with
                      | TypeError => Ok TypeError
                      | Normal s =>
                          col ← read (COL_INDEX m) i;
                          value ← read (V m) i;
                          Ok (callback s value row col)
                      end)
                   s (row_range m row))
         (Normal s0) (seq 0 (length (ROW_INDEX m) - 1)).

(** [data[row][col] = value] on the array of arrays [data]. *)
Definition grid_write (d : list (list (option Z))) (value : Z) (row col : nat)
  : completion (list (list (option Z))) :=
  match d !! row with
  | Some r => Normal (<[row := js_write r col value]> d)
  | None => TypeError
  end.

(** The getter: a grid of zeros, [new Array(rows)] of [new Array(cols)], in
    which every stored entry is written. *)
Definition data (this : Matrix) : result (completion (list (list Z))) :=
  if decide (rows this < 0)%Z then Throw RangeError
  else if decide (0 < rows this ∧ cols this < 0)%Z then Throw RangeError
  else
    let data0 := replicate (Z.to_nat (rows this))
                           (replicate (Z.to_nat (cols this)) (Some 0%Z)) in
    d ← forEach_raising this grid_write data0;
    match d with
    | Normal d =>
        g ← foldlM (λ g r, r' ← no_holes r; Ok (g ++ [r'])) [] d;
        Ok (Normal g)
    | TypeError => Ok TypeError
    end.

(** ** Merge algebra *)

(** The [Map<number, number>] accumulator, in insertion order. *)
Abbreviation accumulator := (list (nat * Z)).

Fixpoint acc_get (a : accumulator) (k : nat) : option Z :=
  match a with
  | [] => None
  | (k', v) :: a' => if decide (k' = k) then Some v else acc_get a' k
  end.

Fixpoint acc_set (a : accumulator) (k : nat) (v : Z) : accumulator :=
  match a with
  | [] => [(k, v)]
  | (k', v') :: a' => if decide (k' = k) then (k, v) :: a' else (k', v') :: acc_set a' k v
  end.

(** [accumulator.set(col, (accumulator.get(col) || 0) + x)] *)
Definition acc_add (a : accumulator) (col : nat) (x : Z) : accumulator :=
  acc_set a col (number_add (default 0%Z (acc_get a col)) x).

(** The comparator [(a, b) => a[0] - b[0]] orders entries by column. *)
Definition by_col : relation (nat * Z) := λ a b, a.1 ≤ b.1.

#[global] Instance by_col_dec a b : Decision (by_col a b) := decide (a.1 ≤ b.1).

(** [Array.from(accumulator.entries()).filter(([_, val]) => val !== 0).sort(..)].
    The keys of a [Map] are distinct, so there is one sorted order only and
    every sorting algorithm returns it ([sortedEntries_clean]). *)
Definition sortedEntries (a : accumulator) : list (nat * Z) :=
  merge_sort by_col (filter (λ e, e.2 ≠ 0%Z) a).

(** The loop that pushes the sorted entries, then [C_ROW_INDEX.push(C_V.length)]. *)
Definition emit_row (C : arrays) (a : accumulator) : arrays :=
  let C1 := foldl (λ C e, emit C e.2 e.1) C (sortedEntries a) in
  close_row C1 (length (C_V C1)).

(** The stored entries of row [i] of [m] added into the accumulator, each
    value first passed through [f]. *)
Definition accumulate_row (f : Z → Z) (m : Matrix) (i : nat) (a : accumulator)
  : result accumulator :=
  foldlM (λ a j,
            col ← read (COL_INDEX m) j;
            v ← read (V m) j;
            Ok (acc_add a col (f v)))
         a (row_range m i).

Definition merge_rows (f : Z → Z) (this matrix : Matrix) : result Matrix :=
  if decide (rows this ≠ rows matrix ∨ cols this ≠ cols matrix)
  then Throw DimensionMismatch
  else
    C ← foldlM (λ C i,
                  a1 ← accumulate_row id this i [];
                  a2 ← accumulate_row f matrix i a1;
                  Ok (emit_row C a2))
               empty_arrays (upto (rows this));
    Ok (with_arrays (rows this) (cols this) C).

(** [addition] and [subtract] differ in the sign of the second operand only. *)
Definition addition (this matrix : Matrix) : result Matrix :=
  merge_rows id this matrix.

Definition subtract (this matrix : Matrix) : result Matrix :=
  merge_rows Z.opp this matrix.

(** The [while (aPtr < aEnd && bPtr < bEnd)] loop of [hadamard]; [fuel]
    bounds the number of iterations. *)
Fixpoint hadamard_walk (fuel : nat) (this matrix : Matrix)
    (aPtr aEnd bPtr bEnd : nat) (C : arrays) : result arrays :=
  match fuel with
  | 0 => Ok C
  | S fuel' =>
      if decide (aPtr < aEnd ∧ bPtr < bEnd) then
        aCol ← read (COL_INDEX this) aPtr;
        bCol ← read (COL_INDEX matrix) bPtr;
        if decide (aCol = bCol) then
          x ← read (V this) aPtr;
          y ← read (V matrix) bPtr;
          let val := number_mul x y in
          let C1 := if decide (val ≠ 0%Z) then emit C val aCol else C in
          hadamard_walk fuel' this matrix (aPtr + 1) aEnd (bPtr + 1) bEnd C1
        else if decide (aCol < bCol) then
          hadamard_walk fuel' this matrix (aPtr + 1) aEnd bPtr bEnd C
        else
          hadamard_walk fuel' this matrix aPtr aEnd (bPtr + 1) bEnd C
      else Ok C
  end.

(** One row of [hadamard].  A missing bound makes the loop condition false.
    Every iteration advances a pointer, so the distance of both pointers to
    their ends is fuel enough. *)
Definition hadamard_row (this matrix : Matrix) (C : arrays) (i : nat) : result arrays :=
  C1 ← match ROW_INDEX this !! i, ROW_INDEX this !! (i + 1),
             ROW_INDEX matrix !! i, ROW_INDEX matrix !! (i + 1) with
       | Some aPtr, Some aEnd, Some bPtr, Some bEnd =>
           hadamard_walk ((aEnd - aPtr) + (bEnd - bPtr)) this matrix aPtr aEnd bPtr bEnd C
       | _, _, _, _ => Ok C
       end;
  Ok (close_row C1 (length (C_V C1))).

Definition hadamard (this matrix : Matrix) : result Matrix :=
  if decide (rows this ≠ rows matrix ∨ cols this ≠ cols matrix)
  then Throw DimensionMismatch
  else
    C ← foldlM (hadamard_row this matrix) empty_arrays (upto (rows this));
    Ok (with_arrays (rows this) (cols this) C).

(** [multiply]: row [i] of the product accumulates [aVal * bVal] over the
    stored entries [(k, aVal)] of row [i] and [(j, bVal)] of row [k]. *)
Definition multiply_row (this matrix : Matrix) (i : nat) : result accumulator :=
  foldlM (λ a aPtr,
            k ← read (COL_INDEX this) aPtr;
            aVal ← read (V this) aPtr;
            accumulate_row (number_mul aVal) matrix k a)
         [] (row_range this i).

Definition multiply (this matrix : Matrix) : result Matrix :=
  if decide (cols this ≠ rows matrix)
  then Throw DimensionMismatch
  else
    let numARows := length (ROW_INDEX this) - 1 in
    C ← foldlM (λ C i, a ← multiply_row this matrix i; Ok (emit_row C a))
               empty_arrays (seq 0 numARows);
    Ok (with_arrays (rows this) (cols matrix) C).

(** ** Determinant *)

(** One stored entry [j] of a kept row, in [csrMatrixSubmatrix]. *)
Definition submatrix_entry (matrix : Matrix) (excludeCol : nat)
    (st : arrays * nat) (j : nat) : result (arrays * nat) :=
  let '(sub, rowLength) := st in
  col ← read (COL_INDEX matrix) j;
  if decide (col = excludeCol) then Ok st
  else
    v ← read (V matrix) j;
    Ok (emit sub v (if decide (col < excludeCol) then col else col - 1), rowLength + 1).

Definition submatrix_row (matrix : Matrix) (excludeRow excludeCol : nat)
    (sub : arrays) (i : nat) : result arrays :=
  if decide (i = excludeRow) then Ok sub
  else
    '(sub1, rowLength) ← foldlM (submatrix_entry matrix excludeCol) (sub, 0)
                                 (row_range matrix i);
    last ← read (C_ROW_INDEX sub1) (length (C_ROW_INDEX sub1) - 1);
    Ok (close_row sub1 (last + rowLength)).

(** The new store keeps the shape fields of [matrix], swapped, as the code
    passes them: [new Matrix(matrix.cols, matrix.rows)]. *)
Definition csrMatrixSubmatrix (matrix : Matrix) (excludeRow excludeCol : nat)
  : result Matrix :=
  let n := length (ROW_INDEX matrix) - 1 in
  sub ← foldlM (submatrix_row matrix excludeRow excludeCol) empty_arrays (seq 0 n);
  Ok (with_arrays (cols matrix) (rows matrix) sub).

(** [(row + col) % 2 === 0 ? 1 : -1] with [row = 0]. *)
Definition sign (col : nat) : Z := if Nat.even (0 + col) then 1%Z else (-1)%Z.

(** The loop over the stored entries of row 0.  [det_sub] is the recursive
    call; it answers [None] when it runs out of steps. *)
Fixpoint cofactor_loop (det_sub : Matrix → option (result Z)) (matrix : Matrix)
    (js : list nat) (det : Z) : option (result Z) :=
  match js with
  | [] => Some (Ok det)
  | i :: js' =>
      match (col ← read (COL_INDEX matrix) i;
             value ← read (V matrix) i;
             subMatrix ← csrMatrixSubmatrix matrix 0 col;
             Ok (col, value, subMatrix)) with
      | Ok (col, value, subMatrix) =>
          match det_sub subMatrix with
          | Some (Ok cofactor) =>
              cofactor_loop det_sub matrix js'
                            (number_add det (number_mul (number_mul (sign col) value)
                                                        cofactor))
          | other => other
          end
      | Throw e => Some (Throw e)
      | Undefined => Some Undefined
      end
  end.

Fixpoint determinant_steps (fuel : nat) (matrix : Matrix) : option (result Z) :=
  match fuel with
  | 0 => None
  | S fuel' =>
      match ROW_INDEX matrix with
      | [] =>
          (* n = -1: neither base case, and no [maxCol] equals it *)
          Some (Throw NotSquareMatrix)
      | _ :: _ =>
          let n := length (ROW_INDEX matrix) - 1 in
          if decide (n = 0) then Some (Ok 1%Z)
          else if decide (n = 1) then Some (Ok (default 0%Z (V matrix !! 0)))
          else
            match COL_INDEX matrix with
            | [] =>
                (* [Math.max()] is -Infinity *)
                Some (Throw NotSquareMatrix)
            | _ :: _ =>
                let maxCol := max_list (COL_INDEX matrix) + 1 in
                if decide (n ≠ maxCol) then Some (Throw NotSquareMatrix)
                else cofactor_loop (determinant_steps fuel') matrix
                                   (row_range matrix 0) 0%Z
            end
      end
  end.

(** Each level of the recursion works on a store with one row offset less,
    so [length ROW_INDEX + 1] levels are enough ([determinant_steps_enough]). *)
Definition csrMatrixDeterminant (matrix : Matrix) : result Z :=
  match determinant_steps (S (length (ROW_INDEX matrix))) matrix with
  | Some r => r
  | None => Undefined
  end.

Definition determinant (this : Matrix) : result Z := csrMatrixDeterminant this.

(** * Vocabulary of the statements *)

(** ** The invariants of the data model *)

(** The layout of the data model: [COL_INDEX] is aligned with [V],
    [ROW_INDEX] has [rows + 1] offsets of which the last is the number of
    stored entries, every stored column is a column of the matrix, and the
    shape is not negative (the data model asks for a positive shape; an empty
    one does no harm below). *)
Definition well_shaped (m : Matrix) : Prop :=
  length (COL_INDEX m) = length (V m) ∧
  length (ROW_INDEX m) = Z.to_nat (rows m) + 1 ∧
  last (ROW_INDEX m) = Some (length (V m)) ∧
  Forall (λ c, (Z.of_nat c < cols m)%Z) (COL_INDEX m) ∧
  (0 ≤ rows m)%Z ∧ (0 ≤ cols m)%Z.

(** Invariant 1: the columns of every row are strictly increasing. *)
Definition sorted_columns (m : Matrix) : Prop :=
  Forall (λ r, Sorted lt (columns m r)) (seq 0 (length (ROW_INDEX m) - 1)).

(** Invariant 2: no stored value is zero. *)
Definition no_stored_zero (m : Matrix) : Prop :=
  Forall (λ v, v ≠ 0%Z) (V m).

(** Invariant 3: the offsets start at 0 and never decrease. *)
Definition monotone_offsets (m : Matrix) : Prop :=
  ROW_INDEX m !! 0 = Some 0 ∧ Sorted le (ROW_INDEX m).

Definition csr_invariants (m : Matrix) : Prop :=
  well_shaped m ∧ sorted_columns m ∧ no_stored_zero m ∧ monotone_offsets m.

#[global] Instance well_shaped_dec m : Decision (well_shaped m).
Proof. unfold well_shaped. apply _. Defined.
#[global] Instance sorted_columns_dec m : Decision (sorted_columns m).
Proof. unfold sorted_columns. apply _. Defined.
#[global] Instance no_stored_zero_dec m : Decision (no_stored_zero m).
Proof. unfold no_stored_zero. apply _. Defined.
#[global] Instance monotone_offsets_dec m : Decision (monotone_offsets m).
Proof. unfold monotone_offsets. apply _. Defined.
#[global] Instance csr_invariants_dec m : Decision (csr_invariants m).
Proof. unfold csr_invariants. apply _. Defined.

(** What the operations rely on: the layout and invariant 3, without
    invariants 1 and 2. *)
Definition structured (m : Matrix) : Prop := well_shaped m ∧ monotone_offsets m.

(** ** Values *)

(** The results of an operation that are below the threshold of overflow,
    past which binary64 has an infinity and not [round64 z]. *)
Definition finite (z : Z) : Prop := (Z.abs z < 2 ^ 1024)%Z.

#[global] Instance finite_dec z : Decision (finite z).
Proof. unfold finite. apply _. Defined.

(** The integers that are values of binary64: rounding leaves them as they
    are, and they are finite. *)
Definition binary64 (z : Z) : Prop := round64 z = z ∧ finite z.

#[global] Instance binary64_dec z : Decision (binary64 z).
Proof. unfold binary64. apply _. Defined.

(** A store of numbers, and a store whose values are at most [M] in
    absolute value. *)
Definition numbers (m : Matrix) : Prop := Forall binary64 (V m).

Definition bounded (M : Z) (m : Matrix) : Prop := Forall (λ v, (Z.abs v ≤ M)%Z) (V m).

(** The largest absolute value that a store holds; 0 when it holds none. *)
Definition magnitude (m : Matrix) : Z := foldr (λ v M, Z.max (Z.abs v) M) 0%Z (V m).

#[global] Instance numbers_dec m : Decision (numbers m).
Proof. unfold numbers. apply _. Defined.
#[global] Instance bounded_dec M m : Decision (bounded M m).
Proof. unfold bounded. apply _. Defined.

(** The reading of an integer as a binary64 of the Standard Library's
    specification of IEEE 754, and back; [None] for an infinity, a NaN and a
    value that is no integer. *)
Definition to_spec_float (z : Z) : spec_float := binary_normalize 53 1024 z 0 false.

Definition of_spec_float (f : spec_float) : option Z :=
  match f with
  | S754_zero _ => Some 0%Z
  | S754_finite s m e =>
      if decide (0 ≤ e)%Z then Some (cond_Zopp s (Z.pos m * 2 ^ e))%Z
      else if decide (Z.pos m mod 2 ^ (- e) = 0)%Z
           then Some (cond_Zopp s (Z.pos m / 2 ^ (- e)))%Z
           else None
  | _ => None
  end.

(** The integers at which the rounding is compared with the specification:
    small ones, the neighbours of 2^53, ties and carries further up, and the
    neighbours of the threshold of overflow. *)
Definition sample_integers : list Z :=
  [0; 1; -1; 94906267; 2 ^ 53 - 1; 2 ^ 53; 2 ^ 53 + 1; 2 ^ 53 + 2; 2 ^ 53 + 3;
   - (2 ^ 53 + 1); 2 ^ 54 - 1; 2 ^ 54 + 2; 2 ^ 54 + 6; 2 ^ 60 + 2 ^ 7;
   2 ^ 60 + 2 ^ 7 + 1; 2 ^ 60 + 3 * 2 ^ 7; 2 ^ 100 - 1; 94906267 * 94906267;
   2 ^ 1024 - 2 ^ 970 - 1; 2 ^ 1024 - 2 ^ 970; - 2 ^ 1024 + 2 ^ 970; 2 ^ 1024;
   2 ^ 1100 + 1]%Z.

(** The pairs of numbers at which the two operations are compared with it:
    sums and products that are exact, rounded down, rounded up, ties, a
    cancellation, and overflows. *)
Definition sample_sums : list (Z * Z) :=
  [(0, 0); (0, 5); (1, -1); (3, 4); (2 ^ 53, 1); (1, 2 ^ 53); (2 ^ 53, -1);
   (- 2 ^ 53, -1); (2 ^ 53, 2); (2 ^ 53 + 2, 1); (2 ^ 53 + 2, 3); (2 ^ 53, 2 ^ 53);
   (2 ^ 60 + 2 ^ 8, 2 ^ 7); (2 ^ 60 + 2 ^ 8, 2 ^ 7 + 1); (3 * 2 ^ 70, - (2 ^ 80 + 2 ^ 30));
   (94906267, -94906267); (2 ^ 1023, 2 ^ 1023); (2 ^ 1024 - 2 ^ 971, 2 ^ 969);
   (2 ^ 1024 - 2 ^ 971, 2 ^ 970); (- 2 ^ 1023, - 2 ^ 1023)]%Z.

Definition sample_products : list (Z * Z) :=
  [(0, 7); (3, 4); (-1, 2 ^ 53 + 2); (94906267, 94906267); (-94906267, 94906267);
   (2 ^ 27 + 1, 2 ^ 27 + 1); (3, 2 ^ 53 - 1); (2 ^ 53 - 1, 2 ^ 53 - 1);
   (-7, 2 ^ 52 + 1); (2 ^ 53 + 2, 2 ^ 53 + 4); (0, 2 ^ 1023); (2 ^ 1023, 1);
   (2 ^ 1023, 2); (2 ^ 600, 2 ^ 600); (2 ^ 512 - 2 ^ 459, 2 ^ 512 + 2 ^ 460)]%Z.

#[global] Instance structured_dec m : Decision (structured m).
Proof. unfold structured. apply _. Defined.

(** A weaker form of invariant 1: no row stores a column twice.  It is what
    makes the first entry found by [get] the only one. *)
Definition distinct_columns (m : Matrix) : Prop :=
  Forall (λ r, NoDup (columns m r)) (seq 0 (length (ROW_INDEX m) - 1)).

#[global] Instance distinct_columns_dec m : Decision (distinct_columns m).
Proof. unfold distinct_columns. apply _. Defined.

(** ** Rows of entries and their layout in the three arrays *)

(** The stored entries [(col, value)] of one row, in storage order. *)
Abbreviation entries := (list (nat * Z)).

(** Number of entries stored before row [k]. *)
Definition offset (rs : list entries) (k : nat) : nat := length (concat (take k rs)).

(** The three arrays that hold the rows [rs]. *)
Definition layout (rs : list entries) : arrays :=
  {| C_V := (concat rs).*2;
     C_COL_INDEX := (concat rs).*1;
     C_ROW_INDEX := offset rs <$> seq 0 (S (length rs)) |}.

Definition arrays_of (m : Matrix) : arrays :=
  {| C_V := V m; C_COL_INDEX := COL_INDEX m; C_ROW_INDEX := ROW_INDEX m |}.

(** The store [m] holds the rows [rs]. *)
Definition holds (m : Matrix) (rs : list entries) : Prop := arrays_of m = layout rs.

(** The cell [(k, c)] of the rows: the first entry of row [k] with column [c],
    or 0. *)
Definition cell (rs : list entries) (k c : nat) : Z :=
  default 0%Z (r ← rs !! k; acc_get r c).

(** The segments of [l] between consecutive cuts. *)
Fixpoint pieces {A} (l : list A) (cuts : list nat) : list (list A) :=
  match cuts with
  | [] => []
  | a :: cs =>
      match cs with
      | [] => []
      | b :: _ => take (b - a) (drop a l) :: pieces l cs
      end
  end.

Definition rows_of (m : Matrix) : list entries :=
  pieces (zip (COL_INDEX m) (V m)) (ROW_INDEX m).

(** ** Compression of a dense array *)

(** The entry kept for cell [(i, j)] of the source, if any. *)
Definition kept (data : dense) (i j : nat) : option (nat * Z) :=
  x ← numeric_cell data i j; if decide (x ≠ 0%Z) then Some (j, x) else None.

(** Row [i] of the compressed store. *)
Definition dense_row (data : dense) (ncols : Z) (i : nat) : entries :=
  omap (kept data i) (upto ncols).

Definition push_entries (this : Matrix) (r : entries) : Matrix :=
  foldl (λ m e, push_entry m e.2 e.1) this r.

(** ** Rows that satisfy invariants 1 and 2 *)

(** What the invariants ask of one row: increasing columns, no zero value. *)
Definition clean_row (r : entries) : Prop :=
  Sorted lt r.*1 ∧ Forall (λ e, e.2 ≠ 0%Z) r.

(** ** Minors and the Laplace expansion *)

(** Row [r] without its entry of column [c], the columns after [c] moved
    down by one. *)
Definition strike (c : nat) (r : entries) : entries :=
  omap (λ e, if decide (e.1 = c) then None
             else Some (if decide (e.1 < c) then e.1 else e.1 - 1, e.2)) r.

Definition Zsum (l : list Z) : Z := foldr Z.add 0%Z l.

Arguments Zsum : simpl never.

(** The minor of [f] obtained by deleting row 0 and column [c]. *)
Definition minor (f : nat → nat → Z) (c : nat) : nat → nat → Z :=
  λ i j, f (S i) (if decide (j < c) then j else S j).

(** The expansion of the [n]x[n] matrix with cells [f i j], as the
    specification words it: 1 for [n = 0], the cell [(0, 0)] for [n = 1], and
    otherwise the sum over the columns of row 0 of
    [sign * value * minor determinant] (a zero cell contributes 0). *)
Fixpoint laplace (n : nat) (f : nat → nat → Z) : Z :=
  match n with
  | 0 => 1%Z
  | S n' =>
      match n' with
      | 0 => f 0 0
      | S _ => Zsum ((λ c, sign c * f 0%nat c * laplace n' (minor f c))%Z <$> seq 0 n)
      end
  end.

(** The last column of the [n]x[n] matrix has a non-zero cell. *)
Definition last_column_used (n : nat) (f : nat → nat → Z) : bool :=
  existsb (λ i, bool_decide (f i (n - 1) ≠ 0%Z)) (seq 0 n).

(** The squareness test [max(COL_INDEX) + 1 == n] passes at every level that
    the expansion reaches: for [n >= 2] the last column is used, and so it is
    again in the minor of every non-zero cell of row 0. *)
Fixpoint expansion_defined (n : nat) (f : nat → nat → Z) : bool :=
  match n with
  | 0 => true
  | S n' =>
      match n' with
      | 0 => true
      | S _ =>
          last_column_used n f &&
          forallb (λ c, bool_decide (f 0 c = 0%Z) || expansion_defined n' (minor f c))
                  (seq 0 n)
      end
  end.

(** The dense projection of a store, cell by cell, as [get] answers. *)
Definition dense_of (m : Matrix) : nat → nat → Z :=
  λ i j, match get m i j with Ok v => v | _ => 0%Z end.

(** The entries of a row of an [n]-column store that satisfies invariants 1
    and 2: distinct columns below [n], no zero value. *)
Definition tidy (n : nat) (r : entries) : Prop :=
  NoDup r.*1 ∧ Forall (λ e, e.1 < n ∧ e.2 ≠ 0%Z) r.

(** ** Stored entries with their row, and the transpose *)

(** [(row, col, value)] for every stored entry, in storage order. *)
Fixpoint triples_from (i0 : nat) (rs : list entries) : list (nat * nat * Z) :=
  match rs with
  | [] => []
  | r :: rs' => ((λ e, (i0, e.1, e.2)) <$> r) ++ triples_from (S i0) rs'
  end.

Definition t_row (t : nat * nat * Z) : nat := t.1.1.
Definition t_col (t : nat * nat * Z) : nat := t.1.2.
Definition t_val (t : nat * nat * Z) : Z := t.2.

(** Number of stored entries in column [c], and in the columns before [c]. *)
Definition in_col (c : nat) (E : list (nat * nat * Z)) : list (nat * nat * Z) :=
  filter (λ t, t_col t = c) E.

Definition start (E : list (nat * nat * Z)) (c : nat) : nat :=
  length (filter (λ t, t_col t < c) E).

Definition tally_step (t : list nat) (c : nat) : result (list nat) :=
  x ← read t (c + 1); Ok (<[c + 1 := x + 1]> t).

Definition sum_step (t : list nat) (i : nat) : result (list nat) :=
  x ← read t i; y ← read t (i - 1); Ok (<[i := x + y]> t).

Definition scatter_step (st : scatter_state) (t : nat * nat * Z) : result scatter_state :=
  pos ← read (rowPtr st) (t_col t);
  Ok {| rowPtr := <[t_col t := pos + 1]> (rowPtr st);
        T_V := js_write (T_V st) pos (t_val t);
        T_COL_INDEX := js_write (T_COL_INDEX st) pos (t_row t) |}.

(** The slot of the entry at position [k] of [P], among the entries [E] of a
    store. *)
Definition slot (E P : list (nat * nat * Z)) (k : nat) (t : nat * nat * Z) : nat :=
  start E (t_col t) + length (in_col (t_col t) (take k P)).

(** The state of the scatter after the entries [P] of the entries [E] of a
    store with [n] columns. *)
Definition scattered (E : list (nat * nat * Z)) (n : nat)
    (P : list (nat * nat * Z)) (st : scatter_state) : Prop :=
  length (rowPtr st) = S n ∧
  (∀ c, c < n → rowPtr st !! c = Some (start E c + length (in_col c P))) ∧
  (∀ k t, P !! k = Some t →
          T_V st !! slot E P k t = Some (Some (t_val t)) ∧
          T_COL_INDEX st !! slot E P k t = Some (Some (t_row t))) ∧
  length (T_V st) ≤ length E ∧ length (T_COL_INDEX st) ≤ length E.

(** Row [c] of the transpose: the entries of column [c], each with the row it
    came from, in storage order. *)
Definition transposed_rows (rs : list entries) (n : nat) : list entries :=
  (λ c, (λ t, (t_row t, t_val t)) <$> in_col c (triples_from 0 rs)) <$> seq 0 n.

(** The value of the first stored entry of row [i] and column [c]. *)
Fixpoint find_entry (E : list (nat * nat * Z)) (i c : nat) : option Z :=
  match E with
  | [] => None
  | t :: E' =>
      if decide (t_row t = i ∧ t_col t = c) then Some (t_val t) else find_entry E' i c
  end.

(** ** What [set] makes of a row *)

(** The entries of a row after [set(row, col, value)]: a new column goes to
    the end, a stored one is overwritten in place, or removed by a zero. *)
Definition put (col : nat) (value : Z) (r : entries) : entries :=
  match indexOf col r.*1 with
  | None => if decide (value ≠ 0%Z) then r ++ [(col, value)] else r
  | Some i => if decide (value = 0%Z) then delete i r else <[i := (col, value)]> r
  end.

(** ** Grids *)

(** The cells [f i j] of a grid of [r] rows and [c] columns, row by row, and
    the same cells in one array. *)
Definition grid (f : nat → nat → Z) (r c : Z) : list (list Z) :=
  (λ i, f i <$> upto c) <$> upto r.

Definition grid_cells (f : nat → nat → Z) (r c : Z) : list Z := concat (grid f r c).

(** ** Rows built by the merge algebra *)

(** The accumulator after the entries of a row have been added into it, each
    value first passed through [f]. *)
Definition accumulated (f : Z → Z) (a : accumulator) (r : entries) : accumulator :=
  foldl (λ a e, acc_add a e.1 (f e.2)) a r.

(** The row of [addition] ([f] the identity) and of [subtract] ([f] the
    opposite) for the rows [ra] and [rb] of the operands. *)
Definition merged_row (f : Z → Z) (ra rb : entries) : entries :=
  sortedEntries (accumulated f (accumulated id [] ra) rb).

(** The accumulator of [multiply] after the entries [(k, aVal)] of a row of
    the left operand: each adds [aVal * bVal] for the entries of row [k] of
    the right operand, whose rows are [rsB]. *)
Definition products (rsB : list entries) (a : accumulator) (ra : entries) : accumulator :=
  foldl (λ a e, accumulated (number_mul e.2) a (default [] (rsB !! e.1))) a ra.

Definition product_row (rsB : list entries) (ra : entries) : entries :=
  sortedEntries (products rsB [] ra).

(** The sum of [f k * g k] for [k] below [n]. *)
Definition dot (n : Z) (f g : nat → Z) : Z := Zsum ((λ k, f k * g k)%Z <$> upto n).

(** ** Rows built by [hadamard] *)

(** The entries that the two-pointer walk of [hadamard] emits for two rows:
    it advances in the row whose current column is smaller and multiplies
    where the two columns meet. *)
Fixpoint common (ra : entries) : entries → entries :=
  fix walk (rb : entries) : entries :=
    match ra, rb with
    | (aCol, x) :: ra', (bCol, y) :: rb' =>
        if decide (aCol = bCol) then
          (if decide (number_mul x y ≠ 0%Z) then [(aCol, number_mul x y)] else [])
          ++ common ra' rb'
        else if decide (aCol < bCol) then common ra' rb
        else walk rb'
    | _, _ => []
    end.

(** ** Iteration that passes over zeros *)

(** The callback that ignores the cells that read 0. *)
Definition skipping_zero {St} (callback : St → Z → nat → nat → St)
  : St → Z → nat → nat → St :=
  λ s value row col, if decide (value = 0%Z) then s else callback s value row col.

Definition skipping_zero1 {St} (callback : St → Z → nat → St) : St → Z → nat → St :=
  λ s value k, if decide (value = 0%Z) then s else callback s value k.

(** A full grid of numbers as the argument [data] of the constructor. *)
Definition full_grid (g : list (list Z)) : dense :=
  (λ r : list Z, Some (Some <$> r)) <$> g.

(** ** What strict [map] builds *)

(** The state of the arrays of strict [map] once the first offset has been
    pushed: it is pushed after the first entry visited, and stays. *)
Definition first_row_closed (C : arrays) : Prop :=
  ∃ p rest, C_ROW_INDEX C = 0 :: p :: rest ∧ p ≤ 1 ∧ p ≤ length (C_COL_INDEX C).

Definition map_invariant (C : arrays) : Prop :=
  (C = empty_arrays ∨ first_row_closed C) ∧
  Forall (λ v, v ≠ 0%Z) (C_V C) ∧ length (C_COL_INDEX C) = length (C_V C).

(** The row that strict [map] makes of a row with the single entry [e]. *)
Definition mapped_entry (callback : Z → nat → nat → Z) (i : nat) (e : nat * Z) : entries :=
  if decide (callback e.2 i e.1 ≠ 0%Z) then [(e.1, callback e.2 i e.1)] else [].

(** ** Example stores *)

Definition example_4x6 : dense :=
  [ Some [Some 10; Some 20];
    Some [Some 0; Some 30; Some 0; Some 40];
    Some [Some 0; Some 0; Some 50; Some 60; Some 70];
    Some [Some 0; Some 0; Some 0; Some 0; Some 0; Some 80] ]%Z.

Definition m_1234 : Matrix :=
  {| rows := 2; cols := 2; V := [1; 2; 3; 4]%Z; COL_INDEX := [0; 1; 0; 1];
     ROW_INDEX := [0; 2; 4] |}.

(** The store of the 1x2 matrix [[0, 2]] and the call [set(0, 0, 3)] on it. *)
Definition m_02 : Matrix :=
  {| rows := 1; cols := 2; V := [2]%Z; COL_INDEX := [1]; ROW_INDEX := [0; 1] |}.

Definition m_02_set : Matrix :=
  {| rows := 1; cols := 2; V := [2; 3]%Z; COL_INDEX := [1; 0]; ROW_INDEX := [0; 2] |}.

(** The store of [[1, 0], [0, 4]], the example of the doc comment of [map]. *)
Definition m_1004 : Matrix :=
  {| rows := 2; cols := 2; V := [1; 4]%Z; COL_INDEX := [0; 1]; ROW_INDEX := [0; 1; 2] |}.

Definition m_1004_after_map : Matrix :=
  {| rows := 2; cols := 2; V := [1; 4; 3; 2; 2; 6]%Z;
     COL_INDEX := [0; 1; 0; 1; 0; 1]; ROW_INDEX := [0; 1; 2; 2; 4] |}.

Definition m_1004_mapped : Matrix :=
  {| rows := 2; cols := 2; V := []; COL_INDEX := []; ROW_INDEX := [0] |}.

(** Operands that break invariants 1 and 2: row 0 of [m_untidy] stores column 1
    twice, out of order, and a zero. *)
Definition m_untidy : Matrix :=
  {| rows := 2; cols := 2; V := [0; 5; 7; 1]%Z; COL_INDEX := [1; 1; 0; 1];
     ROW_INDEX := [0; 3; 4] |}.

Definition m_2517 : Matrix :=
  {| rows := 2; cols := 2; V := [2; 5; 1; 7]%Z; COL_INDEX := [0; 1; 0; 1];
     ROW_INDEX := [0; 2; 4] |}.

Definition m_3729 : Matrix :=
  {| rows := 2; cols := 2; V := [3; 7; 2; 9]%Z; COL_INDEX := [0; 1; 0; 1];
     ROW_INDEX := [0; 2; 4] |}.

(** The store of [[1, 0], [0, 0]]: square, and its last column is empty. *)
Definition m_1000 : Matrix :=
  {| rows := 2; cols := 2; V := [1]%Z; COL_INDEX := [0]; ROW_INDEX := [0; 1; 1] |}.

(** The store of the 2x3 matrix [[1, 2, 0], [3, 4, 0]]. *)
Definition m_2x3 : Matrix :=
  {| rows := 2; cols := 3; V := [1; 2; 3; 4]%Z; COL_INDEX := [0; 1; 0; 1];
     ROW_INDEX := [0; 2; 4] |}.

Definition m_2x3_full : Matrix :=
  {| rows := 2; cols := 3; V := [1; 5; 4]%Z; COL_INDEX := [0; 2; 1];
     ROW_INDEX := [0; 2; 3] |}.

(** The 4x6 store of the specification's scenario. *)
Definition m_4x6 : Matrix :=
  {| rows := 4; cols := 6; V := [10; 20; 30; 40; 50; 60; 70; 80]%Z;
     COL_INDEX := [0; 1; 1; 3; 2; 3; 4; 5]; ROW_INDEX := [0; 2; 4; 7; 8] |}.

(** A store whose row 0 holds its two columns out of order, as [set]
    leaves them. *)
Definition m_2143 : Matrix :=
  {| rows := 2; cols := 2; V := [2; 1; 4; 3]%Z; COL_INDEX := [1; 0; 1; 0];
     ROW_INDEX := [0; 2; 4] |}.

(** The 1x1 stores of 2^53 and of 1. *)
Definition m_2p53 : Matrix :=
  {| rows := 1; cols := 1; V := [9007199254740992]%Z; COL_INDEX := [0];
     ROW_INDEX := [0; 1] |}.

Definition m_1 : Matrix :=
  {| rows := 1; cols := 1; V := [1]%Z; COL_INDEX := [0]; ROW_INDEX := [0; 1] |}.

(** The 1x1 store of 94906267, whose square is odd and above 2^53, and the
    2x2 store with that value on the diagonal. *)
Definition m_94906267 : Matrix :=
  {| rows := 1; cols := 1; V := [94906267]%Z; COL_INDEX := [0]; ROW_INDEX := [0; 1] |}.

Definition m_diagonal : Matrix :=
  {| rows := 2; cols := 2; V := [94906267; 94906267]%Z; COL_INDEX := [0; 1];
     ROW_INDEX := [0; 1; 2] |}.

(** The store of the 3x2 matrix [[1, 0], [0, 1], [1, 0]]. *)
Definition m_3x2 : Matrix :=
  {| rows := 3; cols := 2; V := [1; 1; 1]%Z; COL_INDEX := [0; 1; 0];
     ROW_INDEX := [0; 1; 2; 3] |}.

(** * Properties *)

(** ** Worked examples from the source comments *)

Example sparse_4x6 :
  construct 4 6 (Some example_4x6) =
  Ok {| rows := 4; cols := 6; V := [10; 20; 30; 40; 50; 60; 70; 80]%Z;
        COL_INDEX := [0; 1; 1; 3; 2; 3; 4; 5]; ROW_INDEX := [0; 2; 4; 7; 8] |}.
Proof. reflexivity. Qed.

Example construct_1234 :
  construct 2 2 (Some [Some [Some 1; Some 2]; Some [Some 3; Some 4]]%Z) = Ok m_1234.
Proof. reflexivity. Qed.

Example transpose_1234 :
  (t ← transpose m_1234; toArray t) = Ok [1; 3; 2; 4]%Z.
Proof. reflexivity. Qed.

Example addition_doc :
  (b ← construct 2 2 (Some [Some [Some 5; Some 6]; Some [Some 7; Some 8]]%Z);
   c ← addition m_1234 b; toArray c) = Ok [6; 8; 10; 12]%Z.
Proof. vm_compute. reflexivity. Qed.

Example subtract_doc :
  (b ← construct 2 2 (Some [Some [Some 5; Some 6]; Some [Some 7; Some 8]]%Z);
   c ← subtract m_1234 b; toArray c) = Ok [-4; -4; -4; -4]%Z.
Proof. vm_compute. reflexivity. Qed.

Example multiply_doc :
  (b ← construct 2 2 (Some [Some [Some 5; Some 6]; Some [Some 7; Some 8]]%Z);
   c ← multiply m_1234 b; toArray c) = Ok [19; 22; 43; 50]%Z.
Proof. vm_compute. reflexivity. Qed.

Example hadamard_doc :
  (a ← construct 2 2 (Some [Some [Some 2; Some 5]; Some [Some 1; Some 7]]%Z);
   b ← construct 2 2 (Some [Some [Some 3; Some 7]; Some [Some 2; Some 9]]%Z);
   c ← hadamard a b; toArray c) = Ok [6; 35; 2; 63]%Z.
Proof. vm_compute. reflexivity. Qed.

Example determinant_doc : determinant m_1234 = Ok (-2)%Z.
Proof. vm_compute. reflexivity. Qed.

Example map_strict_doc :
  (m ← construct 2 2 (Some [Some [Some 1; Some 0]; Some [Some 0; Some 4]]%Z);
   r ← map m (λ value _ _, value + 2)%Z true; toArray r.2) = Ok [3; 0; 0; 6]%Z.
Proof. vm_compute. reflexivity. Qed.

(** ** Closed statements *)

(** A closed instance of a decidable statement, by evaluation. *)
Ltac by_evaluation := apply (bool_decide_unpack _); vm_compute; exact I.

Example m_1234_invariants : csr_invariants m_1234.
Proof. by_evaluation. Qed.

(** ** Rounding, against the specification of IEEE 754 *)

(** [round64] rounds as the Standard Library's specification does, up to
    the threshold of overflow, past which the specification answers an
    infinity. *)
Example round64_spec_float :
  Forall (λ z, of_spec_float (to_spec_float z) =
               if decide (finite (round64 z)) then Some (round64 z) else None)
         sample_integers.
Proof. by_evaluation. Qed.

(** On pairs of numbers, [number_add] and [number_mul] answer as the
    addition and the multiplication of the specification do, up to
    overflow. *)
Example sample_pairs_binary64 :
  Forall (λ p, binary64 p.1 ∧ binary64 p.2) (sample_sums ++ sample_products).
Proof. by_evaluation. Qed.

Example number_add_spec_float :
  Forall (λ p, of_spec_float (SFadd 53 1024 (to_spec_float p.1) (to_spec_float p.2)) =
               if decide (finite (number_add p.1 p.2)) then Some (number_add p.1 p.2)
               else None)
         sample_sums.
Proof. by_evaluation. Qed.

Example number_mul_spec_float :
  Forall (λ p, of_spec_float (SFmul 53 1024 (to_spec_float p.1) (to_spec_float p.2)) =
               if decide (finite (number_mul p.1 p.2)) then Some (number_mul p.1 p.2)
               else None)
         sample_products.
Proof. by_evaluation. Qed.

(** ** Sums and products that are rounded *)

(** Past 2^53 the operations round: [2^53 + 1] is [2^53], so that adding 1
    and subtracting [2^53] again leaves nothing, sums depend on the order
    in which they are taken, and the square of 94906267 loses its last
    bit, in [multiply] and in the determinant. *)
Example addition_rounds :
  (c ← addition m_2p53 m_1; toArray c) = Ok [9007199254740992]%Z.
Proof. vm_compute. reflexivity. Qed.

Example round_trip_rounds :
  (c ← addition m_1 m_2p53; subtract c m_2p53) =
  Ok {| rows := 1; cols := 1; V := []; COL_INDEX := []; ROW_INDEX := [0; 0] |}.
Proof. vm_compute. reflexivity. Qed.

Example addition_order_rounds :
  (ab ← addition m_2p53 m_1; c ← addition ab m_1; toArray c) = Ok [9007199254740992]%Z ∧
  (bc ← addition m_1 m_1; c ← addition m_2p53 bc; toArray c) = Ok [9007199254740994]%Z.
Proof. split; vm_compute; reflexivity. Qed.

Example multiply_rounds :
  (c ← multiply m_94906267 m_94906267; toArray c) = Ok [9007199515875288]%Z ∧
  (94906267 * 94906267 = 9007199515875289)%Z.
Proof. split; vm_compute; reflexivity. Qed.

Example determinant_rounds : determinant m_diagonal = Ok 9007199515875288%Z.
Proof. vm_compute. reflexivity. Qed.

(** ** Rounding *)

(** No rounding occurs up to 2^53. *)
Lemma round64_exact z : (Z.abs z ≤ 2 ^ 53)%Z → round64 z = z.
Proof. intros H. unfold round64. by rewrite decide_True. Qed.

Lemma round64_opp z : round64 (- z) = (- round64 z)%Z.
Proof.
  unfold round64. rewrite Z.abs_opp.
  destruct (decide (Z.abs z ≤ 2 ^ 53)%Z); [done|].
  rewrite Z.sgn_opp. lia.
Qed.

Lemma number_add_comm x y : number_add x y = number_add y x.
Proof. unfold number_add. by rewrite Z.add_comm. Qed.

Lemma number_mul_comm x y : number_mul x y = number_mul y x.
Proof. unfold number_mul. by rewrite Z.mul_comm. Qed.

Lemma number_add_exact x y : (Z.abs (x + y) ≤ 2 ^ 53)%Z → number_add x y = (x + y)%Z.
Proof. apply round64_exact. Qed.

Lemma number_mul_exact x y : (Z.abs (x * y) ≤ 2 ^ 53)%Z → number_mul x y = (x * y)%Z.
Proof. apply round64_exact. Qed.

(** [0 + x] is [x], for a number [x]. *)
Lemma number_add_0_l x : round64 x = x → number_add 0 x = x.
Proof. done. Qed.

Lemma number_mul_0_l x : number_mul 0 x = 0%Z.
Proof. done. Qed.

Lemma number_mul_0_r x : number_mul x 0 = 0%Z.
Proof. unfold number_mul. by rewrite Z.mul_0_r. Qed.

(** ** [indexOf] and [slice] *)

Lemma indexOf_None x a : indexOf x a = None ↔ x ∉ a.
Proof.
  induction a as [|y a IH]; simpl.
  - split; [intros _; apply not_elem_of_nil | done].
  - rewrite not_elem_of_cons. destruct (decide (y = x)) as [->|Hne].
    + split; [done | intros [? _]; done].
    + rewrite fmap_None, IH. split; [intros ?; split; [congruence | done] | intros [_ ?]; done].
Qed.

Lemma indexOf_Some x a i :
  indexOf x a = Some i ↔ a !! i = Some x ∧ x ∉ take i a.
Proof.
  revert i. induction a as [|y a IH]; intros i; simpl.
  - split; [done | intros [? _]; done].
  - destruct (decide (y = x)) as [->|Hne].
    + split.
      * intros [= <-]. split; [done | apply not_elem_of_nil].
      * intros [Hi Hn]. destruct i as [|i]; [done|].
        simpl in Hn. rewrite not_elem_of_cons in Hn. by destruct Hn.
    + rewrite fmap_Some. split.
      * intros (k & Hk & ->). apply IH in Hk as [? ?]. simpl.
        split; [done | rewrite not_elem_of_cons; done].
      * intros [Hi Hn]. destruct i as [|i]; simpl in *; [congruence|].
        rewrite not_elem_of_cons in Hn. exists i. split; [|done].
        apply IH. by destruct Hn.
Qed.

Lemma slice_Some {A} (a : list A) s e :
  slice a (Some s) (Some e) = take (e - s) (drop s a).
Proof. reflexivity. Qed.

(** ** Point mutation *)

(** C10.  Writing 0 to a cell whose column is not stored in the row changes
    nothing: [V], [COL_INDEX], [ROW_INDEX], [rows] and [cols] are those of the
    receiver.  This holds for every store and every position, in range or
    not. *)
Theorem set_zero_absent_unchanged (m : Matrix) (row col : nat) :
  (col ∉ columns m row) → set m row col 0%Z = Ok m.
Proof.
  intros Habs. unfold set.
  apply indexOf_None in Habs. rewrite Habs.
  destruct (decide (0%Z ≠ 0%Z)) as [Hne|_]; [by destruct Hne | done].
Qed.

Lemma set_zero_absent_unchanged_witness :
  (2 ∉ columns m_1234 1) ∧ set m_1234 1 2 0%Z = Ok m_1234.
Proof.
  assert (H : 2 ∉ columns m_1234 1) by by_evaluation.
  split; [exact H | exact (set_zero_absent_unchanged m_1234 1 2 H)].
Defined.

(** C1 (the code departs from the claim).  On the store of [[0, 2]], which
    satisfies the invariants, [set(0, 0, 3)] puts column 0 after column 1:
    the new entry is appended at the end of the row segment and the columns of
    row 0 are no longer increasing. *)
Theorem set_appends_after_larger_column :
  construct 1 2 (Some [Some [Some 0; Some 2]]%Z) = Ok m_02 ∧
  csr_invariants m_02 ∧
  (0 ∉ columns m_02 0) ∧
  set m_02 0 0 3%Z = Ok m_02_set ∧
  columns m_02_set 0 = [1; 0] ∧
  ¬ sorted_columns m_02_set.
Proof.
  split; [reflexivity|].
  split; [by_evaluation|].
  split; [by_evaluation|].
  split; [reflexivity|].
  split; [reflexivity|].
  by_evaluation.
Qed.

(** What the unsorted row does to a sibling operation: the Hadamard product
    of the mutated store [[3, 2]] with the store of [[3, 2]] loses the cell of
    column 0, whose product is 9. *)
Example hadamard_after_set :
  (b ← construct 1 2 (Some [Some [Some 3; Some 2]]%Z);
   c ← hadamard m_02_set b; toArray c) = Ok [0; 4]%Z.
Proof. vm_compute. reflexivity. Qed.

(** ** Construction never validates the shape *)

Lemma sparseData_cell_shape data i st j :
  rows (sparseData_cell data i st j).1 = rows st.1 ∧
  cols (sparseData_cell data i st j).1 = cols st.1.
Proof.
  unfold sparseData_cell. destruct st as [t e].
  destruct (numeric_cell data i j) as [x|]; [|done].
  by destruct (decide (x ≠ 0%Z)).
Qed.

Lemma sparseData_cells_shape data i l st :
  rows (foldl (sparseData_cell data i) st l).1 = rows st.1 ∧
  cols (foldl (sparseData_cell data i) st l).1 = cols st.1.
Proof.
  revert st. induction l as [|j l IH]; intros st; [done|]. simpl.
  destruct (IH (sparseData_cell data i st j)) as [-> ->].
  apply sparseData_cell_shape.
Qed.

Lemma sparseData_row_shape data st i :
  rows (sparseData_row data st i).1 = rows st.1 ∧
  cols (sparseData_row data st i).1 = cols st.1.
Proof.
  unfold sparseData_row.
  pose proof (sparseData_cells_shape data i (upto (cols st.1)) st) as H.
  by destruct (foldl (sparseData_cell data i) st (upto (cols st.1))).
Qed.

Lemma sparseData_rows_shape data l st :
  rows (foldl (sparseData_row data) st l).1 = rows st.1 ∧
  cols (foldl (sparseData_row data) st l).1 = cols st.1.
Proof.
  revert st. induction l as [|i l IH]; intros st; [done|]. simpl.
  destruct (IH (sparseData_row data st i)) as [-> ->].
  apply sparseData_row_shape.
Qed.

(** With no column to visit, a row only pushes its offset. *)
Lemma sparseData_row_no_cols data st i :
  (cols st.1 ≤ 0)%Z → sparseData_row data st i = (push_row st.1 st.2, st.2).
Proof.
  intros Hc. unfold sparseData_row, upto.
  replace (Z.to_nat (cols st.1)) with 0 by lia. by destruct st.
Qed.

Lemma sparseData_rows_no_cols data l st :
  (cols st.1 ≤ 0)%Z → st.2 = 0 →
  V st.1 = [] → COL_INDEX st.1 = [] → Forall (λ x, x = 0) (ROW_INDEX st.1) →
  V (foldl (sparseData_row data) st l).1 = [] ∧
  COL_INDEX (foldl (sparseData_row data) st l).1 = [] ∧
  Forall (λ x, x = 0) (ROW_INDEX (foldl (sparseData_row data) st l).1).
Proof.
  revert st. induction l as [|i l IH]; intros st Hc He Hv Hci Hr; [done|].
  simpl. rewrite sparseData_row_no_cols by done.
  apply IH; simpl; try done.
  apply Forall_app. split; [done|]. by apply Forall_singleton.
Qed.

(** C5 as stated does not hold: with [rows = -1] and [cols = 0] the
    constructor returns a store. *)
Lemma construct_nonpositive_returns :
  ((-1 ≤ 0)%Z ∨ (0 ≤ 0)%Z) ∧
  construct (-1) 0 None =
    Ok {| rows := -1; cols := 0; V := []; COL_INDEX := []; ROW_INDEX := [0] |} ∧
  construct (-1) 0 None ≠ Throw InvalidShape.
Proof. split; [left; lia|]. split; [reflexivity | discriminate]. Qed.

(** C5, amended.  The constructor fails for no shape at all.  It returns a
    store that carries the given [rows] and [cols]; when one of them is not
    positive the store has no stored entry and all its offsets are 0 (a single
    offset when [rows <= 0] or when no data is given). *)
Theorem construct_never_fails (r c : Z) (data : option dense) :
  ∃ m, construct r c data = Ok m ∧ rows m = r ∧ cols m = c ∧
       (((r ≤ 0)%Z ∨ (c ≤ 0)%Z) →
          V m = [] ∧ COL_INDEX m = [] ∧ Forall (λ x, x = 0) (ROW_INDEX m)) ∧
       ((r ≤ 0)%Z → ROW_INDEX m = [0]).
Proof.
  destruct data as [d|]; simpl.
  2:{ eexists. split; [reflexivity|]. simpl.
      split; [done|]. split; [done|]. split; [|done].
      intros _. split; [done|]. split; [done|]. by apply Forall_singleton. }
  eexists. split; [reflexivity|].
  unfold sparseData; simpl.
  set (this0 := {| rows := r; cols := c; V := []; COL_INDEX := []; ROW_INDEX := [0] |}).
  destruct (sparseData_rows_shape d (upto r) (this0, 0)) as [Hr Hc].
  split; [done|]. split; [done|]. split.
  - intros [Hrz|Hcz].
    + unfold upto. replace (Z.to_nat r) with 0 by lia. simpl.
      split; [done|]. split; [done|]. by apply Forall_singleton.
    + apply sparseData_rows_no_cols; simpl; try done. by apply Forall_singleton.
  - intros Hrz. unfold upto. by replace (Z.to_nat r) with 0 by lia.
Qed.

(** ** [map] and its receiver *)

Example construct_1004 :
  construct 2 2 (Some [Some [Some 1; Some 0]; Some [Some 0; Some 4]]%Z) = Ok m_1004.
Proof. reflexivity. Qed.

(** In the strict mode the receiver is returned as it was given. *)
Lemma map_strict_receiver this callback r :
  map this callback true = Ok r → r.1 = this.
Proof.
  unfold map.
  destruct (forEach this (map_visit callback) true empty_arrays); simpl; [|done..].
  by intros [= <-].
Qed.

(** In the full-grid mode the store returned is empty, whatever the
    receiver and the callback. *)
Lemma map_full_grid_returns_empty this callback r :
  map this callback false = Ok r →
  V r.2 = [] ∧ COL_INDEX r.2 = [] ∧ ROW_INDEX r.2 = [0].
Proof.
  unfold map.
  destruct (foldlM _ (this, 0) (upto (rows this))) as [st| |]; cbn; [|done..].
  by intros [= <-].
Qed.

(** C2 (the code departs from the claim).  In the full-grid mode the call
    [m.map(value => value + 2, false)] of the doc comment pushes its four
    results onto the receiver's own [V], [COL_INDEX] and [ROW_INDEX], and the
    store it returns is empty, where the doc comment announces
    [[3, 2], [2, 6]]. *)
Theorem map_full_grid_writes_receiver :
  map m_1004 (λ value _ _, value + 2)%Z false = Ok (m_1004_after_map, m_1004_mapped) ∧
  V m_1004_after_map ≠ V m_1004 ∧
  COL_INDEX m_1004_after_map ≠ COL_INDEX m_1004 ∧
  ROW_INDEX m_1004_after_map ≠ ROW_INDEX m_1004 ∧
  toArray m_1004_mapped = Ok [0; 0; 0; 0]%Z.
Proof.
  split; [vm_compute; reflexivity|].
  split; [discriminate|]. split; [discriminate|]. split; [discriminate|].
  reflexivity.
Qed.

(** ** Rows of entries and their layout in the three arrays *)

Lemma offset_0 rs : offset rs 0 = 0.
Proof. reflexivity. Qed.

Lemma offset_S rs k r :
  rs !! k = Some r → offset rs (S k) = offset rs k + length r.
Proof.
  intros Hk. unfold offset. rewrite (take_S_r _ _ _ Hk), concat_app, length_app.
  simpl. rewrite app_nil_r. done.
Qed.

Lemma offset_ge rs k : length rs ≤ k → offset rs k = length (concat rs).
Proof. intros Hk. unfold offset. by rewrite take_ge. Qed.

Lemma offset_mono rs j k : j ≤ k → offset rs j ≤ offset rs k.
Proof.
  intros Hjk. unfold offset.
  replace (take k rs) with (take j (take k rs) ++ drop j (take k rs))
    by apply take_drop.
  rewrite take_take, Nat.min_l, concat_app, length_app by done. lia.
Qed.

Lemma offset_le rs k : offset rs k ≤ length (concat rs).
Proof.
  destruct (decide (k ≤ length rs)) as [Hk|Hk].
  - rewrite <- (offset_ge rs (length rs)) by done. by apply offset_mono.
  - rewrite offset_ge; lia.
Qed.

Lemma offset_snoc rs r k : k ≤ length rs → offset (rs ++ [r]) k = offset rs k.
Proof. intros Hk. unfold offset. by rewrite take_app_le. Qed.

Lemma concat_split (rs : list entries) k r :
  rs !! k = Some r →
  concat rs = concat (take k rs) ++ r ++ concat (drop (S k) rs).
Proof.
  intros Hk. rewrite <- (take_drop_middle rs k r Hk) at 1.
  by rewrite concat_app.
Qed.

(** The entries of row [k] are the segment between its two offsets. *)
Lemma segment_row rs k r :
  rs !! k = Some r →
  take (offset rs (S k) - offset rs k) (drop (offset rs k) (concat rs)) = r.
Proof.
  intros Hk. rewrite (offset_S _ _ _ Hk), (concat_split _ _ _ Hk).
  unfold offset. rewrite drop_app_length.
  replace (length (concat (take k rs)) + length r - length (concat (take k rs)))
    with (length r) by lia.
  by rewrite take_app_length.
Qed.

Lemma lookup_concat rs k r j e :
  rs !! k = Some r → r !! j = Some e → concat rs !! (offset rs k + j) = Some e.
Proof.
  intros Hk Hj. rewrite (concat_split _ _ _ Hk). unfold offset.
  rewrite lookup_app_r by lia.
  replace (length (concat (take k rs)) + j - length (concat (take k rs))) with j by lia.
  by rewrite lookup_app_l by (by eapply lookup_lt_Some).
Qed.

(** Every position of the concatenation lies in exactly one row. *)
Lemma lookup_concat_inv rs p e :
  concat rs !! p = Some e →
  ∃ k r j, rs !! k = Some r ∧ r !! j = Some e ∧ p = offset rs k + j.
Proof.
  revert p. induction rs as [|r rs IH] using rev_ind; intros p Hp; [done|].
  rewrite concat_app in Hp. simpl in Hp. rewrite app_nil_r in Hp.
  destruct (decide (p < length (concat rs))) as [Hlt|Hge].
  - rewrite lookup_app_l in Hp by done.
    destruct (IH p Hp) as (k & r' & j & Hk & Hj & ->).
    exists k, r', j. split; [by apply lookup_app_l_Some|]. split; [done|].
    rewrite offset_snoc; [done|]. apply lookup_lt_Some in Hk. lia.
  - rewrite lookup_app_r in Hp by lia.
    exists (length rs), r, (p - length (concat rs)).
    split; [by rewrite lookup_app_r, Nat.sub_diag by done|]. split; [done|].
    rewrite offset_snoc, offset_ge by done. lia.
Qed.

Lemma layout_nil : layout [] = empty_arrays.
Proof. reflexivity. Qed.

Lemma foldl_emit (a : arrays) (r : entries) :
  foldl (λ C e, emit C e.2 e.1) a r =
  {| C_V := C_V a ++ r.*2; C_COL_INDEX := C_COL_INDEX a ++ r.*1;
     C_ROW_INDEX := C_ROW_INDEX a |}.
Proof.
  revert a. induction r as [|e r IH]; intros a; simpl.
  - rewrite !app_nil_r. by destruct a.
  - rewrite IH. simpl. by rewrite <- !app_assoc.
Qed.

Lemma layout_snoc rs r :
  layout (rs ++ [r]) =
  {| C_V := C_V (layout rs) ++ r.*2;
     C_COL_INDEX := C_COL_INDEX (layout rs) ++ r.*1;
     C_ROW_INDEX := C_ROW_INDEX (layout rs) ++ [length (C_V (layout rs) ++ r.*2)] |}.
Proof.
  unfold layout. cbn [C_V C_COL_INDEX C_ROW_INDEX].
  rewrite concat_app. cbn [concat]. rewrite app_nil_r, !fmap_app.
  f_equal.
  rewrite length_app. cbn [length].
  replace (length rs + 1) with (S (length rs)) by lia.
  rewrite (seq_S (S (length rs))), fmap_app. cbn [fmap list_fmap].
  f_equal.
  - apply list_fmap_ext. intros i x Hx. apply lookup_seq in Hx as [-> ?].
    apply offset_snoc. lia.
  - f_equal. rewrite Nat.add_0_l.
    rewrite offset_ge by (rewrite length_app; simpl; lia).
    rewrite concat_app. cbn [concat]. rewrite app_nil_r.
    by rewrite !length_app, !length_fmap.
Qed.

(** Pushing the entries of a row and then the running length extends the
    layout by that row. *)
Lemma close_row_layout rs r :
  (let C1 := foldl (λ C e, emit C e.2 e.1) (layout rs) r in
   close_row C1 (length (C_V C1))) = layout (rs ++ [r]).
Proof. simpl. rewrite foldl_emit, layout_snoc. reflexivity. Qed.

Lemma lookup_offsets rs k :
  C_ROW_INDEX (layout rs) !! k =
  if decide (k ≤ length rs) then Some (offset rs k) else None.
Proof.
  unfold layout. cbn [C_ROW_INDEX]. rewrite list_lookup_fmap.
  destruct (decide (k ≤ length rs)) as [Hk|Hk].
  - replace (seq 0 (S (length rs)) !! k) with (Some k); [done|].
    symmetry. apply lookup_seq. lia.
  - rewrite lookup_ge_None_2; [done|]. rewrite length_seq. lia.
Qed.

(** ** Reading a store that holds given rows *)

Lemma holds_with_arrays r c rs : holds (with_arrays r c (layout rs)) rs.
Proof. reflexivity. Qed.

Section reading.
Context (m : Matrix) (rs : list entries) (Hm : holds m rs).

Lemma holds_V : V m = (concat rs).*2.
Proof using Hm. by injection Hm. Qed.

Lemma holds_COL_INDEX : COL_INDEX m = (concat rs).*1.
Proof using Hm. by injection Hm. Qed.

Lemma holds_ROW_INDEX : ROW_INDEX m = offset rs <$> seq 0 (S (length rs)).
Proof using Hm. by injection Hm. Qed.

Lemma holds_length_ROW_INDEX : length (ROW_INDEX m) = S (length rs).
Proof using Hm. by rewrite holds_ROW_INDEX, length_fmap, length_seq. Qed.

Lemma holds_offset k :
  ROW_INDEX m !! k = if decide (k ≤ length rs) then Some (offset rs k) else None.
Proof using Hm.
  replace (ROW_INDEX m) with (C_ROW_INDEX (layout rs)) by (by rewrite <- Hm).
  apply lookup_offsets.
Qed.

Lemma holds_bounds k r :
  rs !! k = Some r →
  ROW_INDEX m !! k = Some (offset rs k) ∧
  ROW_INDEX m !! (k + 1) = Some (offset rs k + length r).
Proof using Hm.
  intros Hk. pose proof (lookup_lt_Some _ _ _ Hk) as Hlt.
  rewrite !holds_offset, !decide_True by lia.
  replace (k + 1) with (S k) by lia. by rewrite (offset_S _ _ _ Hk).
Qed.

Lemma holds_read_col k r j e :
  rs !! k = Some r → r !! j = Some e →
  COL_INDEX m !! (offset rs k + j) = Some e.1.
Proof using Hm.
  intros Hk Hj. rewrite holds_COL_INDEX, list_lookup_fmap.
  by rewrite (lookup_concat _ _ _ _ _ Hk Hj).
Qed.

Lemma holds_read_value k r j e :
  rs !! k = Some r → r !! j = Some e →
  V m !! (offset rs k + j) = Some e.2.
Proof using Hm.
  intros Hk Hj. rewrite holds_V, list_lookup_fmap.
  by rewrite (lookup_concat _ _ _ _ _ Hk Hj).
Qed.

Lemma holds_row_range k r :
  rs !! k = Some r → row_range m k = seq (offset rs k) (length r).
Proof using Hm.
  intros Hk. unfold row_range. destruct (holds_bounds _ _ Hk) as [-> ->].
  unfold range. f_equal. lia.
Qed.

Lemma holds_row_range_out k : length rs ≤ k → row_range m k = [].
Proof using Hm.
  intros Hk. unfold row_range. rewrite (holds_offset (k + 1)).
  rewrite decide_False by lia. by destruct (ROW_INDEX m !! k).
Qed.

Lemma holds_columns k r : rs !! k = Some r → columns m k = r.*1.
Proof using Hm.
  intros Hk. unfold columns. destruct (holds_bounds _ _ Hk) as [-> ->].
  rewrite slice_Some, holds_COL_INDEX, <- fmap_drop, <- fmap_take. f_equal.
  rewrite <- (segment_row _ _ _ Hk) at 2. by rewrite (offset_S _ _ _ Hk).
Qed.
End reading.

(** A counted loop over positions [a, a + 1, ..] that does at each position
    what [g] does with the entry stored there. *)
Lemma foldlM_seq {St} (body : St → nat → result St) (g : St → nat * Z → result St)
    (r : entries) a s :
  (∀ s j e, r !! j = Some e → body s (a + j) = g s e) →
  foldlM body s (seq a (length r)) = foldlM g s r.
Proof.
  revert a s. induction r as [|e r IH]; intros a s Hb; [done|].
  simpl. rewrite <- (Hb s 0 e), Nat.add_0_r by done.
  destruct (body s a) as [s'| |]; simpl; [|done..].
  apply IH. intros s0 j e0 Hj.
  replace (S a + j) with (a + S j) by lia. by apply Hb.
Qed.

(** The loop over the stored entries of row [k]. *)
Lemma foldlM_row {St} m rs k r (body : St → nat → result St)
    (g : St → nat * Z → result St) s :
  holds m rs → rs !! k = Some r →
  (∀ s j e, COL_INDEX m !! j = Some e.1 → V m !! j = Some e.2 → body s j = g s e) →
  foldlM body s (row_range m k) = foldlM g s r.
Proof.
  intros Hm Hk Hb. rewrite (holds_row_range _ _ Hm _ _ Hk).
  apply foldlM_seq. intros s0 j e Hj.
  apply Hb; [by eapply holds_read_col | by eapply holds_read_value].
Qed.

Lemma indexOf_acc_get (r : entries) c :
  match indexOf c r.*1 with
  | None => acc_get r c = None
  | Some i => ∃ v, r !! i = Some (c, v) ∧ acc_get r c = Some v
  end.
Proof.
  induction r as [|[c' v'] r IH]; [done|].
  rewrite fmap_cons. cbn [indexOf acc_get fst].
  destruct (decide (c' = c)) as [->|Hne]; [by exists v'|].
  destruct (indexOf c r.*1) as [i|]; [|done].
  destruct IH as (v & Hi & Hv). by exists v.
Qed.

Lemma get_holds m rs k c :
  holds m rs → k < length rs → get m k c = Ok (cell rs k c).
Proof.
  intros Hm Hk. destruct (lookup_lt_is_Some_2 _ _ Hk) as [r Hr].
  unfold get, cell. rewrite Hr. simpl.
  rewrite (holds_columns _ _ Hm _ _ Hr).
  pose proof (indexOf_acc_get r c) as Hi.
  destruct (indexOf c r.*1) as [i|]; [|by rewrite Hi].
  destruct Hi as (v & Hi & ->). simpl.
  destruct (holds_bounds _ _ Hm _ _ Hr) as [Hs _].
  unfold read. rewrite Hs. simpl.
  by rewrite (holds_read_value _ _ Hm _ _ _ _ Hr Hi).
Qed.

(** ** The rows held by a store *)

Lemma length_pieces {A} (l : list A) cuts : length (pieces l cuts) = length cuts - 1.
Proof.
  induction cuts as [|a [|b cs] IH]; [done..|].
  change (length (pieces l (a :: b :: cs))) with (S (length (pieces l (b :: cs)))).
  rewrite IH. simpl. lia.
Qed.

Lemma pieces_take {A} (l : list A) cuts k :
  take k (pieces l cuts) = pieces l (take (S k) cuts).
Proof.
  revert k. induction cuts as [|a [|b cs] IH]; intros k; [by destruct k..|].
  destruct k as [|k]; [done|].
  change (pieces l (a :: b :: cs)) with (take (b - a) (drop a l) :: pieces l (b :: cs)).
  rewrite firstn_cons, IH. reflexivity.
Qed.

Lemma Sorted_le_last a cs : Sorted le (a :: cs) → a ≤ default a (last cs).
Proof.
  revert a. induction cs as [|b cs IH]; intros a Hs; [done|].
  apply Sorted_inv in Hs as [Hs Hab]. apply HdRel_inv in Hab.
  specialize (IH b Hs). destruct cs as [|c cs]; [done|].
  change (last (b :: c :: cs)) with (last (c :: cs)).
  destruct (last (c :: cs)); simpl in *; lia.
Qed.

Lemma concat_pieces {A} (l : list A) a cs :
  Sorted le (a :: cs) →
  concat (pieces l (a :: cs)) = take (default a (last cs) - a) (drop a l).
Proof.
  revert a. induction cs as [|b cs IH]; intros a Hs.
  - simpl. by rewrite Nat.sub_diag.
  - change (pieces l (a :: b :: cs)) with (take (b - a) (drop a l) :: pieces l (b :: cs)).
    pose proof (Sorted_le_last _ _ Hs) as Hlast.
    apply Sorted_inv in Hs as [Hs Hab]. apply HdRel_inv in Hab.
    pose proof (Sorted_le_last _ _ Hs) as Hlast'.
    cbn [concat]. rewrite (IH b Hs).
    assert (Hz : default a (last (b :: cs)) = default b (last cs)).
    { destruct cs as [|c cs]; [done|].
      change (last (b :: c :: cs)) with (last (c :: cs)).
      by destruct (last_is_Some (c :: cs)) as [_ [z ->]]. }
    rewrite Hz.
    replace (drop b l) with (drop (b - a) (drop a l))
      by (rewrite drop_drop; f_equal; lia).
    rewrite take_take_drop. f_equal. lia.
Qed.

Lemma Sorted_take {A} (R : relation A) l k : Sorted R l → Sorted R (take k l).
Proof.
  intros Hs. revert k. induction Hs as [|y ys Hs IH Hd]; intros k.
  - rewrite take_nil. constructor.
  - destruct k as [|k]; [constructor|]. cbn [take]. constructor; [apply IH|].
    destruct Hd as [|b l Hb]; [rewrite take_nil; constructor|].
    destruct k; constructor. done.
Qed.

Lemma offset_pieces (l : list (nat * Z)) a cs k x :
  Sorted le (a :: cs) → Forall (λ c, c ≤ length l) (a :: cs) →
  (a :: cs) !! k = Some x → offset (pieces l (a :: cs)) k = x - a.
Proof.
  intros Hs Hle Hk. unfold offset.
  rewrite pieces_take. change (take (S k) (a :: cs)) with (a :: take k cs).
  rewrite concat_pieces.
  2:{ change (a :: take k cs) with (take (S k) (a :: cs)). by apply Sorted_take. }
  assert (Hx : default a (last (take k cs)) = x).
  { destruct k as [|k]; [by injection Hk|].
    simpl in Hk. rewrite (take_S_r _ _ _ Hk), last_snoc. done. }
  rewrite Hx, length_take, length_drop.
  assert (x ≤ length l); [|lia].
  rewrite Forall_forall in Hle. apply Hle. by eapply list_elem_of_lookup_2.
Qed.

(** A store whose offsets start at 0, never decrease and end at the number
    of stored entries holds the rows cut out by its offsets. *)
Lemma holds_rows_of m :
  length (COL_INDEX m) = length (V m) →
  monotone_offsets m →
  last (ROW_INDEX m) = Some (length (V m)) →
  holds m (rows_of m).
Proof.
  intros Hlen [H0 Hs] Hlast. unfold holds, rows_of, arrays_of, layout.
  destruct (ROW_INDEX m) as [|a cs] eqn:ER; [done|].
  injection H0 as ->.
  set (E := zip (COL_INDEX m) (V m)).
  assert (HE : length E = length (V m)).
  { unfold E. rewrite length_zip. lia. }
  assert (Hle : Forall (λ c, c ≤ length E) (0 :: cs)).
  { apply Forall_forall. intros c Hc.
    apply list_elem_of_lookup in Hc as [k Hk].
    assert (Hall : ∀ l z, Sorted le l → last l = Some z → ∀ k c, l !! k = Some c → c ≤ z).
    { clear. intros l z Hl. apply Sorted_StronglySorted in Hl; [|intros ???; lia].
      induction Hl as [|y ys Hl IH Hy]; intros Hz k c Hk; [done|].
      destruct ys as [|y' ys].
      - destruct k; [|done]. simplify_eq/=. lia.
      - change (last (y :: y' :: ys)) with (last (y' :: ys)) in Hz.
        destruct k as [|k]; [|by eapply IH].
        injection Hk as ->. etrans; [|by apply (IH Hz 0 y')].
        rewrite Forall_forall in Hy. apply Hy. left. }
    rewrite HE. by eapply Hall. }
  assert (Hcat : concat (pieces E (0 :: cs)) = E).
  { rewrite concat_pieces by done. rewrite drop_0, Nat.sub_0_r.
    apply take_ge. destruct cs as [|b cs]; [simpl in *; simplify_eq; lia|].
    change (last (0 :: b :: cs)) with (last (b :: cs)) in Hlast.
    rewrite Hlast. simpl. lia. }
  rewrite Hcat. f_equal.
  - unfold E. by rewrite snd_zip by lia.
  - unfold E. by rewrite fst_zip by lia.
  - apply list_eq. intros k. rewrite list_lookup_fmap, length_pieces.
    cbn [length]. replace (S (S (length cs) - 1)) with (S (length cs)) by lia.
    destruct ((0 :: cs) !! k) as [x|] eqn:Hk.
    + pose proof (lookup_lt_Some _ _ _ Hk) as Hlt. simpl in Hlt.
      replace (seq 0 (S (length cs)) !! k) with (Some k)
        by (symmetry; apply lookup_seq; lia).
      cbn [fmap option_fmap option_map]. f_equal.
      rewrite (offset_pieces E 0 cs k x) by done. lia.
    + apply lookup_ge_None in Hk. simpl in Hk.
      rewrite lookup_ge_None_2; [done|]. rewrite length_seq. lia.
Qed.

Lemma length_rows_of m : length (rows_of m) = length (ROW_INDEX m) - 1.
Proof. apply length_pieces. Qed.

(** ** What [set] does with a new entry *)

Lemma splice_insert_fmap {A B} (f : A → B) (l : list A) i x :
  f <$> splice_insert l i x = splice_insert (f <$> l) i (f x).
Proof. unfold splice_insert. by rewrite fmap_app, fmap_cons, fmap_take, fmap_drop. Qed.

Lemma offset_middle (A B : list entries) (r r' : entries) k :
  offset (A ++ r' :: B) k + (if decide (length A < k) then length r else 0) =
  offset (A ++ r :: B) k + (if decide (length A < k) then length r' else 0).
Proof.
  unfold offset. rewrite !take_app, !concat_app, !length_app.
  destruct (decide (length A < k)) as [Hk|Hk].
  - replace (k - length A) with (S (k - S (length A))) by lia.
    cbn [take concat]. rewrite !length_app. lia.
  - replace (k - length A) with 0 by lia. cbn. lia.
Qed.

(** A new non-zero entry goes to the end of the segment of its row, whatever
    its column. *)
Lemma set_appends m (A B : list entries) (r : entries) col value :
  holds m (A ++ r :: B) → (col ∉ r.*1) → value ≠ 0%Z →
  ∃ m', set m (length A) col value = Ok m' ∧
        rows m' = rows m ∧ cols m' = cols m ∧
        holds m' (A ++ (r ++ [(col, value)]) :: B).
Proof.
  intros Hm Habs Hnz.
  assert (Hr : (A ++ r :: B) !! length A = Some r) by apply list_lookup_middle, eq_refl.
  unfold set. rewrite (holds_columns _ _ Hm _ _ Hr).
  apply indexOf_None in Habs. rewrite Habs, decide_True by done.
  destruct (holds_bounds _ _ Hm _ _ Hr) as [-> _]. rewrite length_fmap.
  eexists. split; [reflexivity|]. split; [done|]. split; [done|].
  assert (Hidx : offset (A ++ r :: B) (length A) + length r = length (concat A ++ r)).
  { unfold offset. rewrite take_app_length, length_app. done. }
  assert (Hcat : splice_insert (concat (A ++ r :: B))
                   (offset (A ++ r :: B) (length A) + length r) (col, value) =
                 concat (A ++ (r ++ [(col, value)]) :: B)).
  { rewrite Hidx, !concat_app. cbn [concat]. unfold splice_insert.
    rewrite !(app_assoc (concat A)), take_app_length, drop_app_length.
    by rewrite <- !app_assoc. }
  unfold holds, arrays_of, layout. cbn [V COL_INDEX ROW_INDEX]. f_equal.
  - rewrite (holds_V _ _ Hm). by rewrite <- Hcat, splice_insert_fmap.
  - rewrite (holds_COL_INDEX _ _ Hm). by rewrite <- Hcat, splice_insert_fmap.
  - rewrite (holds_ROW_INDEX _ _ Hm). unfold bump_offsets.
    apply list_eq. intros k. rewrite list_lookup_imap, !list_lookup_fmap.
    rewrite !length_app. cbn [length].
    destruct (seq 0 (S (length A + S (length B))) !! k) as [k'|] eqn:Hk; [|done].
    apply lookup_seq in Hk as [-> _]. cbn. f_equal.
    pose proof (offset_middle A B r (r ++ [(col, value)]) k) as Hoff.
    rewrite length_app in Hoff. cbn in Hoff.
    unfold offset in Hoff |- *.
    destruct (decide (length A + 1 ≤ k)), (decide (length A < k)); lia.
Qed.

(** The columns of the row stay increasing only if the new column is larger
    than the last one stored. *)
Lemma set_appends_columns m (A B : list entries) (r : entries) col value m' :
  holds m (A ++ r :: B) → (col ∉ r.*1) → value ≠ 0%Z →
  set m (length A) col value = Ok m' →
  columns m' (length A) = columns m (length A) ++ [col].
Proof.
  intros Hm Habs Hnz Hset.
  destruct (set_appends m A B r col value Hm Habs Hnz) as (m1 & Hm1 & _ & _ & Hh).
  rewrite Hset in Hm1. injection Hm1 as <-.
  rewrite (holds_columns _ _ Hh (length A) (r ++ [(col, value)]))
    by apply list_lookup_middle, eq_refl.
  rewrite (holds_columns _ _ Hm (length A) r) by apply list_lookup_middle, eq_refl.
  by rewrite fmap_app.
Qed.

(** So a new column that is smaller than a column already stored in the row
    leaves the row out of order. *)
Lemma set_breaks_order m (A B : list entries) (r : entries) col value m' c :
  holds m (A ++ r :: B) → (col ∉ r.*1) → value ≠ 0%Z →
  c ∈ r.*1 → col < c →
  set m (length A) col value = Ok m' →
  ¬ Sorted lt (columns m' (length A)).
Proof.
  intros Hm Habs Hnz Hc Hlt Hset Hsorted.
  rewrite (set_appends_columns m A B r col value m' Hm Habs Hnz Hset) in Hsorted.
  rewrite (holds_columns _ _ Hm (length A) r) in Hsorted
    by apply list_lookup_middle, eq_refl.
  apply Sorted_StronglySorted in Hsorted; [|intros ???; lia].
  pose proof (StronglySorted_app_1_elem_of lt _ _ c col Hsorted Hc) as H.
  assert (c < col); [apply H; by left | lia].
Qed.

(** ** Compression of a dense array *)

Lemma push_entries_arrays this r :
  arrays_of (push_entries this r) = foldl (λ C e, emit C e.2 e.1) (arrays_of this) r
  ∧ rows (push_entries this r) = rows this
  ∧ cols (push_entries this r) = cols this.
Proof.
  revert this. induction r as [|e r IH]; intros this; [done|].
  unfold push_entries. simpl. apply (IH (push_entry this e.2 e.1)).
Qed.

Lemma sparseData_cell_kept data i this e j :
  sparseData_cell data i (this, e) j =
  match kept data i j with
  | Some en => (push_entry this en.2 en.1, e + 1)
  | None => (this, e)
  end.
Proof.
  unfold sparseData_cell, kept.
  destruct (numeric_cell data i j) as [x|]; simpl; [|done].
  by destruct (decide (x ≠ 0%Z)).
Qed.

Lemma sparseData_cells data i l this e :
  foldl (sparseData_cell data i) (this, e) l =
  (push_entries this (omap (kept data i) l), e + length (omap (kept data i) l)).
Proof.
  revert this e. induction l as [|j l IH]; intros this e.
  - simpl. by rewrite Nat.add_0_r.
  - cbn [foldl omap list_omap]. rewrite sparseData_cell_kept.
    destruct (kept data i j) as [en|]; [|apply IH].
    rewrite IH. cbn [length]. f_equal. lia.
Qed.

Lemma sparseData_row_holds data this rs i :
  holds this rs →
  let st := sparseData_row data (this, length (V this)) i in
  holds st.1 (rs ++ [dense_row data (cols this) i]) ∧
  st.2 = length (V st.1) ∧ rows st.1 = rows this ∧ cols st.1 = cols this.
Proof.
  intros Hm. unfold sparseData_row. cbn [fst]. rewrite sparseData_cells.
  fold (dense_row data (cols this) i). cbn [fst snd].
  destruct (push_entries_arrays this (dense_row data (cols this) i)) as (Ha & Hr & Hc).
  unfold holds. rewrite <- close_row_layout.
  unfold holds in Hm. rewrite <- Hm, <- Ha.
  unfold push_row, arrays_of, close_row. cbn.
  assert (HV : V (push_entries this (dense_row data (cols this) i)) =
               V this ++ (dense_row data (cols this) i).*2).
  { change (V (push_entries this (dense_row data (cols this) i)))
      with (C_V (arrays_of (push_entries this (dense_row data (cols this) i)))).
    rewrite Ha, foldl_emit. done. }
  rewrite HV, length_app, length_fmap. done.
Qed.

Lemma sparseData_rows_holds data l this rs :
  holds this rs →
  let st := foldl (sparseData_row data) (this, length (V this)) l in
  holds st.1 (rs ++ (dense_row data (cols this) <$> l)) ∧
  rows st.1 = rows this ∧ cols st.1 = cols this.
Proof.
  revert this rs. induction l as [|i l IH]; intros this rs Hm.
  - simpl. by rewrite app_nil_r.
  - cbn [foldl fmap list_fmap].
    destruct (sparseData_row_holds data this rs i Hm) as (H1 & H2 & H3 & H4).
    destruct (sparseData_row data (this, length (V this)) i) as [this' e'].
    cbn [fst snd] in *. subst e'.
    destruct (IH this' _ H1) as (H5 & H6 & H7).
    rewrite H4, <- app_assoc in H5. cbn in H5.
    split; [done|]. split; congruence.
Qed.

(** The store built by the constructor holds the kept cells, row by row. *)
Lemma construct_holds r c data :
  ∃ m, construct r c (Some data) = Ok m ∧ rows m = r ∧ cols m = c ∧
       holds m (dense_row data c <$> upto r).
Proof.
  eexists. split; [reflexivity|]. unfold sparseData. cbn [rows cols].
  set (this0 := {| rows := r; cols := c; V := []; COL_INDEX := []; ROW_INDEX := [0] |}).
  assert (H0 : holds this0 []) by reflexivity.
  destruct (sparseData_rows_holds data (upto r) this0 [] H0) as (H1 & H2 & H3).
  done.
Qed.

Lemma acc_get_kept data i c a n :
  acc_get (omap (kept data i) (seq a n)) c =
  if decide (a ≤ c < a + n) then snd <$> kept data i c else None.
Proof.
  revert a. induction n as [|n IH]; intros a.
  - simpl. rewrite decide_False by lia. done.
  - cbn [seq omap list_omap].
    destruct (kept data i a) as [[j x]|] eqn:Ek.
    + assert (j = a) as ->.
      { unfold kept in Ek. destruct (numeric_cell data i a); [|done].
        simpl in Ek. by destruct (decide (z ≠ 0%Z)); simplify_eq. }
      cbn [acc_get]. destruct (decide (a = c)) as [->|Hne].
      * rewrite decide_True by lia. by rewrite Ek.
      * rewrite IH. destruct (decide (S a ≤ c < S a + n)).
        -- by rewrite decide_True by lia.
        -- by rewrite decide_False by lia.
    + rewrite IH. destruct (decide (a = c)) as [->|Hne].
      * rewrite decide_False by lia. rewrite decide_True by lia. by rewrite Ek.
      * destruct (decide (S a ≤ c < S a + n)).
        -- by rewrite decide_True by lia.
        -- by rewrite decide_False by lia.
Qed.

Lemma cell_dense data (r c : Z) (i j : nat) :
  (Z.of_nat i < r)%Z → (Z.of_nat j < c)%Z →
  cell (dense_row data c <$> upto r) i j = default 0%Z (snd <$> kept data i j).
Proof.
  intros Hi Hj. unfold cell, upto.
  rewrite list_lookup_fmap.
  replace (seq 0 (Z.to_nat r) !! i) with (Some i)
    by (symmetry; apply lookup_seq; lia).
  cbn. unfold dense_row, upto. rewrite acc_get_kept.
  by rewrite decide_True by lia.
Qed.

(** C8.  The store built from a dense array answers [get(i, j)] with the
    source cell when that cell exists, is a number and is not zero, and with 0
    for every other cell of the grid; the 4x6 example gives [get(1, 3) = 40]. *)
Theorem construct_get (r c : Z) (data : dense) (i j : nat) :
  (Z.of_nat i < r)%Z → (Z.of_nat j < c)%Z →
  (∃ m, construct r c (Some data) = Ok m ∧
        (∀ x, numeric_cell data i j = Some x → x ≠ 0%Z → get m i j = Ok x) ∧
        (numeric_cell data i j = None ∨ numeric_cell data i j = Some 0%Z →
         get m i j = Ok 0%Z)) ∧
  (m' ← construct 4 6 (Some example_4x6); get m' 1 3) = Ok 40%Z.
Proof.
  intros Hi Hj. split; [|reflexivity].
  destruct (construct_holds r c data) as (m & Hm & Hr & Hc & Hh).
  exists m. split; [done|].
  assert (Hget : get m i j = Ok (default 0%Z (snd <$> kept data i j))).
  { rewrite (get_holds m _ i j Hh).
    - by rewrite cell_dense.
    - rewrite length_fmap. unfold upto. rewrite length_seq. lia. }
  rewrite Hget. unfold kept. split.
  - intros x -> Hx. simpl. by rewrite decide_True.
  - by intros [->| ->].
Qed.

Lemma construct_get_witness :
  ∃ m, construct 2 2 (Some [Some [Some 1; Some 2]; Some [Some 3; Some 4]]%Z) = Ok m ∧
       get m 1 0 = Ok 3%Z.
Proof.
  destruct (construct_get 2 2 [Some [Some 1; Some 2]; Some [Some 3; Some 4]]%Z 1 0)
    as [(m & Hm & Hx & _) _]; [lia | lia |].
  exists m. split; [exact Hm|]. apply Hx; [reflexivity | discriminate].
Defined.

(** ** Rows emitted from an accumulator *)

Lemma acc_set_keys a k v : k ∈ a.*1 → (acc_set a k v).*1 = a.*1.
Proof.
  induction a as [|[k' v'] a IH]; intros Hk; [by apply elem_of_nil in Hk|].
  cbn [acc_set]. destruct (decide (k' = k)) as [->|Hne]; [done|].
  rewrite !fmap_cons. f_equal. apply IH.
  apply elem_of_cons in Hk as [?|?]; [by subst|done].
Qed.

Lemma acc_set_keys_fresh a k v : k ∉ a.*1 → (acc_set a k v).*1 = a.*1 ++ [k].
Proof.
  induction a as [|[k' v'] a IH]; intros Hk; [done|].
  rewrite fmap_cons in Hk. apply not_elem_of_cons in Hk as [Hne Hk].
  cbn [acc_set]. destruct (decide (k' = k)) as [->|_]; [done|].
  rewrite !fmap_cons, IH by done. done.
Qed.

(** The keys of a [Map] stay distinct. *)
Lemma acc_set_NoDup a k v : NoDup a.*1 → NoDup (acc_set a k v).*1.
Proof.
  intros Hnd. destruct (decide (k ∈ a.*1)) as [Hin|Hout].
  - by rewrite acc_set_keys.
  - rewrite acc_set_keys_fresh by done. apply NoDup_app. split; [done|].
    split; [|apply NoDup_singleton].
    intros x Hx Hx'. apply list_elem_of_singleton in Hx'. by subst.
Qed.

Lemma acc_add_NoDup a k x : NoDup a.*1 → NoDup (acc_add a k x).*1.
Proof. apply acc_set_NoDup. Qed.

#[global] Instance by_col_total : Total by_col.
Proof. intros a b. unfold by_col. lia. Qed.

#[global] Instance by_col_trans : Transitive by_col.
Proof. intros a b c. unfold by_col. lia. Qed.

Lemma StronglySorted_le_NoDup (l : list nat) :
  StronglySorted le l → NoDup l → Sorted lt l.
Proof.
  intros Hs Hnd. apply StronglySorted_Sorted.
  induction Hs as [|x l Hs IH Hx]; [constructor|].
  apply NoDup_cons in Hnd as [Hx' Hnd]. constructor; [by apply IH|].
  rewrite Forall_forall in Hx |- *. intros y Hy.
  specialize (Hx y Hy). assert (x ≠ y) by (intros ->; done). lia.
Qed.

Lemma sortedEntries_clean a : NoDup a.*1 → clean_row (sortedEntries a).
Proof.
  intros Hnd. unfold sortedEntries. split.
  - apply StronglySorted_le_NoDup.
    + apply (StronglySorted_fmap fst by_col le); [done|].
      apply StronglySorted_merge_sort; apply _.
    + rewrite merge_sort_Permutation.
      eapply sublist_NoDup; [exact Hnd|]. apply fmap_sublist, sublist_filter.
  - rewrite merge_sort_Permutation. apply Forall_forall.
    intros e He. by apply list_elem_of_filter in He as [? _].
Qed.

(** ** The invariants of a store that holds clean rows *)

Lemma Sorted_le_fmap_seq (f : nat → nat) a n :
  (∀ j k, j ≤ k → f j ≤ f k) → Sorted le (f <$> seq a n).
Proof.
  intros Hf. revert a. induction n as [|n IH]; intros a; [constructor|].
  cbn [seq fmap list_fmap]. constructor; [apply IH|].
  destruct n; constructor. apply Hf. lia.
Qed.

Lemma holds_monotone_offsets m rs : holds m rs → monotone_offsets m.
Proof.
  intros Hm. split.
  - by rewrite (holds_offset _ _ Hm 0), decide_True by lia.
  - rewrite (holds_ROW_INDEX _ _ Hm). apply Sorted_le_fmap_seq, offset_mono.
Qed.

Lemma holds_last_offset m rs : holds m rs → last (ROW_INDEX m) = Some (length (V m)).
Proof.
  intros Hm. rewrite last_lookup, (holds_length_ROW_INDEX _ _ Hm). cbn [pred].
  rewrite (holds_offset _ _ Hm), decide_True by lia.
  rewrite offset_ge by lia. by rewrite (holds_V _ _ Hm), length_fmap.
Qed.

Lemma holds_aligned m rs : holds m rs → length (COL_INDEX m) = length (V m).
Proof.
  intros Hm. by rewrite (holds_V _ _ Hm), (holds_COL_INDEX _ _ Hm), !length_fmap.
Qed.

Lemma holds_sorted_columns m rs :
  holds m rs → Forall (λ r : entries, Sorted lt r.*1) rs → sorted_columns m.
Proof.
  intros Hm Hrs. unfold sorted_columns. apply Forall_forall. intros k Hk.
  apply elem_of_seq in Hk. rewrite (holds_length_ROW_INDEX _ _ Hm) in Hk.
  destruct (lookup_lt_is_Some_2 rs k) as [r Hr]; [lia|].
  rewrite (holds_columns _ _ Hm _ _ Hr).
  rewrite Forall_forall in Hrs. apply Hrs. by eapply list_elem_of_lookup_2.
Qed.

Lemma holds_no_stored_zero m rs :
  holds m rs → Forall (λ r : entries, Forall (λ e, e.2 ≠ 0%Z) r) rs → no_stored_zero m.
Proof.
  intros Hm Hrs. unfold no_stored_zero. rewrite (holds_V _ _ Hm).
  apply Forall_fmap, Forall_concat.
  eapply Forall_impl; [exact Hrs|]. intros r Hr.
  eapply Forall_impl; [exact Hr|]. done.
Qed.

Lemma holds_clean m rs :
  holds m rs → Forall clean_row rs →
  sorted_columns m ∧ no_stored_zero m ∧ monotone_offsets m ∧
  last (ROW_INDEX m) = Some (length (V m)).
Proof.
  intros Hm Hrs. split; [|split; [|split]].
  - apply (holds_sorted_columns _ _ Hm).
    eapply Forall_impl; [exact Hrs|]. by intros r [? _].
  - apply (holds_no_stored_zero _ _ Hm).
    eapply Forall_impl; [exact Hrs|]. by intros r [_ ?].
  - by eapply holds_monotone_offsets.
  - by eapply holds_last_offset.
Qed.

(** ** Addition, subtraction and multiplication *)

Lemma emit_row_layout rs a : emit_row (layout rs) a = layout (rs ++ [sortedEntries a]).
Proof. apply close_row_layout. Qed.

Lemma accumulate_row_Ok f m rs i a :
  holds m rs → NoDup a.*1 →
  ∃ a', accumulate_row f m i a = Ok a' ∧ NoDup a'.*1.
Proof.
  intros Hm Hnd. unfold accumulate_row.
  destruct (rs !! i) as [r|] eqn:Hr.
  - rewrite (foldlM_row m rs i r _ (λ a e, Ok (acc_add a e.1 (f e.2))) a Hm Hr).
    + clear Hr. revert a Hnd. induction r as [|e r IH]; intros a Hnd; [by exists a|].
      cbn. apply IH. by apply acc_add_NoDup.
    + intros s j e Hc Hv. unfold read. by rewrite Hc, Hv.
  - apply lookup_ge_None in Hr. rewrite (holds_row_range_out _ _ Hm) by done.
    by exists a.
Qed.

Lemma merge_rows_loop f this matrix rsA rsB l rs :
  holds this rsA → holds matrix rsB → Forall clean_row rs →
  ∃ rs', foldlM (λ C i,
                   a1 ← accumulate_row id this i [];
                   a2 ← accumulate_row f matrix i a1;
                   Ok (emit_row C a2)) (layout rs) l = Ok (layout rs')
         ∧ Forall clean_row rs'.
Proof.
  intros HA HB. revert rs. induction l as [|i l IH]; intros rs Hrs; [by exists rs|].
  cbn [foldlM].
  destruct (accumulate_row_Ok id this rsA i [] HA) as (a1 & -> & Hn1); [constructor|].
  cbn. destruct (accumulate_row_Ok f matrix rsB i a1 HB Hn1) as (a2 & -> & Hn2).
  cbn. rewrite emit_row_layout. apply IH.
  apply Forall_app. split; [done|]. apply Forall_singleton.
  by apply sortedEntries_clean.
Qed.

Lemma structured_holds m : structured m → holds m (rows_of m).
Proof.
  intros [(Hlen & _ & Hlast & _) Hmono]. by apply holds_rows_of.
Qed.

Lemma merge_rows_clean f this matrix :
  structured this → structured matrix →
  rows this = rows matrix → cols this = cols matrix →
  ∃ C, merge_rows f this matrix = Ok C ∧ rows C = rows this ∧ cols C = cols this ∧
       sorted_columns C ∧ no_stored_zero C ∧ monotone_offsets C ∧
       last (ROW_INDEX C) = Some (length (V C)).
Proof.
  intros HA%structured_holds HB%structured_holds Hr Hc. unfold merge_rows.
  rewrite decide_False by (intros [?|?]; done).
  destruct (merge_rows_loop f this matrix _ _ (upto (rows this)) [] HA HB)
    as (rs & Hrs & Hclean); [constructor|].
  change empty_arrays with (layout []). rewrite Hrs. cbn.
  eexists. split; [reflexivity|]. split; [done|]. split; [done|].
  apply (holds_clean _ rs); [apply holds_with_arrays | done].
Qed.

Lemma multiply_row_Ok this matrix rsA rsB i :
  holds this rsA → holds matrix rsB →
  ∃ a, multiply_row this matrix i = Ok a ∧ NoDup a.*1.
Proof.
  intros HA HB. unfold multiply_row.
  assert (Hnil : NoDup ([] : accumulator).*1) by constructor.
  revert Hnil. generalize ([] : accumulator). intros a Hnd.
  destruct (rsA !! i) as [r|] eqn:Hr.
  - rewrite (foldlM_row this rsA i r _
               (λ a e, accumulate_row (number_mul e.2) matrix e.1 a) a HA Hr).
    + clear Hr. revert a Hnd. induction r as [|e r IH]; intros a Hnd; [by exists a|].
      cbn [foldlM].
      destruct (accumulate_row_Ok (number_mul e.2) matrix rsB e.1 a HB Hnd)
        as (a' & -> & Hnd').
      cbn. by apply IH.
    + intros s j e Hc Hv. unfold read. by rewrite Hc, Hv.
  - apply lookup_ge_None in Hr. rewrite (holds_row_range_out _ _ HA) by done.
    by exists a.
Qed.

Lemma multiply_loop this matrix rsA rsB l rs :
  holds this rsA → holds matrix rsB → Forall clean_row rs →
  ∃ rs', foldlM (λ C i, a ← multiply_row this matrix i; Ok (emit_row C a))
                (layout rs) l = Ok (layout rs')
         ∧ Forall clean_row rs'.
Proof.
  intros HA HB. revert rs. induction l as [|i l IH]; intros rs Hrs; [by exists rs|].
  cbn [foldlM].
  destruct (multiply_row_Ok this matrix rsA rsB i HA HB) as (a & -> & Hnd).
  cbn. rewrite emit_row_layout. apply IH.
  apply Forall_app. split; [done|]. apply Forall_singleton.
  by apply sortedEntries_clean.
Qed.

Lemma multiply_clean this matrix :
  structured this → structured matrix → cols this = rows matrix →
  ∃ C, multiply this matrix = Ok C ∧ rows C = rows this ∧ cols C = cols matrix ∧
       sorted_columns C ∧ no_stored_zero C ∧ monotone_offsets C ∧
       last (ROW_INDEX C) = Some (length (V C)).
Proof.
  intros HA%structured_holds HB%structured_holds Hc. unfold multiply.
  rewrite decide_False by (intros ?; done).
  destruct (multiply_loop this matrix _ _ (seq 0 (length (ROW_INDEX this) - 1)) [] HA HB)
    as (rs & Hrs & Hclean); [constructor|].
  change empty_arrays with (layout []). rewrite Hrs. cbn.
  eexists. split; [reflexivity|]. split; [done|]. split; [done|].
  apply (holds_clean _ rs); [apply holds_with_arrays | done].
Qed.

(** C9.  Whatever the order of the columns, the duplicates and the zeros
    stored in the operands, the store returned by [addition], [subtract] and
    [multiply] has strictly increasing columns in every row, no zero value,
    and offsets that start at 0, never decrease and end at the number of
    stored entries. *)
Theorem merge_algebra_invariants (A B : Matrix) :
  structured A → structured B →
  (rows A = rows B → cols A = cols B →
     (∃ C, addition A B = Ok C ∧
           sorted_columns C ∧ no_stored_zero C ∧ monotone_offsets C ∧
           last (ROW_INDEX C) = Some (length (V C))) ∧
     (∃ C, subtract A B = Ok C ∧
           sorted_columns C ∧ no_stored_zero C ∧ monotone_offsets C ∧
           last (ROW_INDEX C) = Some (length (V C)))) ∧
  (cols A = rows B →
     ∃ C, multiply A B = Ok C ∧
          sorted_columns C ∧ no_stored_zero C ∧ monotone_offsets C ∧
          last (ROW_INDEX C) = Some (length (V C))).
Proof.
  intros HA HB. split.
  - intros Hr Hc. split.
    + destruct (merge_rows_clean id A B HA HB Hr Hc) as (C & HC & _ & _ & Hinv).
      by exists C.
    + destruct (merge_rows_clean Z.opp A B HA HB Hr Hc) as (C & HC & _ & _ & Hinv).
      by exists C.
  - intros Hc.
    destruct (multiply_clean A B HA HB Hc) as (C & HC & _ & _ & Hinv).
    by exists C.
Qed.

Lemma merge_algebra_invariants_witness :
  ¬ sorted_columns m_untidy ∧ ¬ no_stored_zero m_untidy ∧
  (∃ C, addition m_untidy m_1234 = Ok C ∧ sorted_columns C ∧ no_stored_zero C) ∧
  (∃ C, multiply m_untidy m_1234 = Ok C ∧ sorted_columns C ∧ no_stored_zero C).
Proof.
  assert (HA : structured m_untidy) by by_evaluation.
  assert (HB : structured m_1234) by by_evaluation.
  destruct (merge_algebra_invariants m_untidy m_1234 HA HB) as [Hadd Hmul].
  split; [by_evaluation|]. split; [by_evaluation|]. split.
  - destruct (Hadd eq_refl eq_refl) as [(C & HC & H1 & H2 & _) _].
    exists C. split; [exact HC|]. split; [exact H1 | exact H2].
  - destruct (Hmul eq_refl) as (C & HC & H1 & H2 & _).
    exists C. split; [exact HC|]. split; [exact H1 | exact H2].
Defined.

(** ** Hadamard product *)

(** Exchanging the operands exchanges the roles of the two pointers. *)
Lemma hadamard_walk_comm fuel this matrix aPtr aEnd bPtr bEnd C :
  hadamard_walk fuel this matrix aPtr aEnd bPtr bEnd C =
  hadamard_walk fuel matrix this bPtr bEnd aPtr aEnd C.
Proof.
  revert aPtr bPtr C. induction fuel as [|fuel IH]; intros aPtr bPtr C; [done|].
  cbn [hadamard_walk].
  destruct (decide (aPtr < aEnd ∧ bPtr < bEnd)) as [Hlt|Hge].
  2:{ rewrite decide_False by (intros [? ?]; apply Hge; done). done. }
  rewrite decide_True by (destruct Hlt; done).
  unfold read.
  destruct (COL_INDEX this !! aPtr) as [aCol|], (COL_INDEX matrix !! bPtr) as [bCol|];
    cbn; try done.
  destruct (decide (aCol = bCol)) as [->|Hne].
  - rewrite decide_True by done.
    destruct (V this !! aPtr) as [x|], (V matrix !! bPtr) as [y|]; cbn; try done.
    rewrite (number_mul_comm y x). apply IH.
  - rewrite (decide_False (P := bCol = aCol)) by congruence.
    destruct (decide (aCol < bCol)) as [Hab|Hab].
    + rewrite decide_False by lia. apply IH.
    + rewrite decide_True by lia. apply IH.
Qed.

Lemma hadamard_row_comm this matrix C i :
  hadamard_row this matrix C i = hadamard_row matrix this C i.
Proof.
  unfold hadamard_row.
  destruct (ROW_INDEX this !! i) as [aPtr|], (ROW_INDEX this !! (i + 1)) as [aEnd|],
    (ROW_INDEX matrix !! i) as [bPtr|], (ROW_INDEX matrix !! (i + 1)) as [bEnd|];
    try done.
  rewrite hadamard_walk_comm. by rewrite (Nat.add_comm (aEnd - aPtr)).
Qed.

Lemma foldlM_ext {A B} (f g : B → A → result B) b l :
  (∀ b x, f b x = g b x) → foldlM f b l = foldlM g b l.
Proof.
  intros Hfg. revert b. induction l as [|x l IH]; intros b; [done|].
  cbn. rewrite Hfg. destruct (g b x); cbn; [apply IH | done..].
Qed.

(** The product is the same whichever operand is the receiver, for all
    stores: both calls fail alike, or both return the same store. *)
Lemma hadamard_comm this matrix : hadamard this matrix = hadamard matrix this.
Proof.
  unfold hadamard.
  destruct (decide (rows this ≠ rows matrix ∨ cols this ≠ cols matrix)) as [Hd|Hs].
  - rewrite decide_True; [done|]. destruct Hd; [left|right]; congruence.
  - assert (rows this = rows matrix ∧ cols this = cols matrix) as [Hr Hc].
    { split; [destruct (decide (rows this = rows matrix))
             | destruct (decide (cols this = cols matrix))]; try done;
        exfalso; apply Hs; [by left | by right]. }
    rewrite decide_False by (intros [?|?]; congruence).
    rewrite <- Hr, <- Hc.
    by rewrite (foldlM_ext _ (hadamard_row matrix this) _ _ (hadamard_row_comm this matrix)).
Qed.

(** The walk stays inside the arrays as long as both ends do. *)
Lemma hadamard_walk_Ok fuel this matrix aPtr aEnd bPtr bEnd C :
  aEnd ≤ length (COL_INDEX this) → aEnd ≤ length (V this) →
  bEnd ≤ length (COL_INDEX matrix) → bEnd ≤ length (V matrix) →
  ∃ C', hadamard_walk fuel this matrix aPtr aEnd bPtr bEnd C = Ok C'.
Proof.
  intros Ha1 Ha2 Hb1 Hb2. revert aPtr bPtr C.
  induction fuel as [|fuel IH]; intros aPtr bPtr C; [by exists C|].
  cbn [hadamard_walk].
  destruct (decide (aPtr < aEnd ∧ bPtr < bEnd)) as [[Hlta Hltb]|_]; [|by exists C].
  unfold read.
  destruct (lookup_lt_is_Some_2 (COL_INDEX this) aPtr) as [aCol ->]; [lia|].
  destruct (lookup_lt_is_Some_2 (COL_INDEX matrix) bPtr) as [bCol ->]; [lia|].
  cbn. destruct (decide (aCol = bCol)).
  - destruct (lookup_lt_is_Some_2 (V this) aPtr) as [x ->]; [lia|].
    destruct (lookup_lt_is_Some_2 (V matrix) bPtr) as [y ->]; [lia|].
    cbn. apply IH.
  - destruct (decide (aCol < bCol)); apply IH.
Qed.

Lemma holds_offset_le m rs k e :
  holds m rs → ROW_INDEX m !! k = Some e →
  e ≤ length (COL_INDEX m) ∧ e ≤ length (V m).
Proof.
  intros Hm Hk. rewrite (holds_offset _ _ Hm) in Hk.
  destruct (decide (k ≤ length rs)); [|done]. injection Hk as <-.
  rewrite (holds_COL_INDEX _ _ Hm), (holds_V _ _ Hm), !length_fmap.
  split; apply offset_le.
Qed.

Lemma hadamard_row_Ok this matrix rsA rsB C i :
  holds this rsA → holds matrix rsB → ∃ C', hadamard_row this matrix C i = Ok C'.
Proof.
  intros HA HB. unfold hadamard_row.
  destruct (ROW_INDEX this !! i) as [aPtr|]; [|by eexists].
  destruct (ROW_INDEX this !! (i + 1)) as [aEnd|] eqn:Ea; [|by eexists].
  destruct (ROW_INDEX matrix !! i) as [bPtr|]; [|by eexists].
  destruct (ROW_INDEX matrix !! (i + 1)) as [bEnd|] eqn:Eb; [|by eexists].
  destruct (holds_offset_le _ _ _ _ HA Ea) as [? ?].
  destruct (holds_offset_le _ _ _ _ HB Eb) as [? ?].
  destruct (hadamard_walk_Ok (aEnd - aPtr + (bEnd - bPtr)) this matrix
              aPtr aEnd bPtr bEnd C) as [C' ->]; [done..|].
  by eexists.
Qed.

Lemma hadamard_Ok this matrix :
  structured this → structured matrix →
  rows this = rows matrix → cols this = cols matrix →
  ∃ C, hadamard this matrix = Ok C ∧ rows C = rows this ∧ cols C = cols this.
Proof.
  intros HA%structured_holds HB%structured_holds Hr Hc. unfold hadamard.
  rewrite decide_False by (intros [?|?]; done).
  assert (Hloop : ∀ l C, ∃ C', foldlM (hadamard_row this matrix) C l = Ok C').
  { induction l as [|i l IH]; intros C; [by exists C|]. cbn [foldlM].
    destruct (hadamard_row_Ok this matrix _ _ C i HA HB) as [C1 ->]. cbn. apply IH. }
  destruct (Hloop (upto (rows this)) empty_arrays) as [C ->]. cbn.
  by eexists.
Qed.

(** C7.  For two stores of the same shape, [A.hadamard(B)] and
    [B.hadamard(A)] both return, and they return the same store: same shape,
    same arrays, hence the same dense projection.  The order of the columns
    plays no part in this. *)
Theorem hadamard_commutative (A B : Matrix) :
  structured A → structured B → rows A = rows B → cols A = cols B →
  ∃ C D, hadamard A B = Ok C ∧ hadamard B A = Ok D ∧
         rows C = rows D ∧ cols C = cols D ∧ toArray C = toArray D ∧ C = D.
Proof.
  intros HA HB Hr Hc.
  destruct (hadamard_Ok A B HA HB Hr Hc) as (C & HC & _).
  exists C, C. split; [done|]. split; [by rewrite <- hadamard_comm|]. done.
Qed.

(** The distance of the two pointers to their ends bounds the number of
    iterations: more fuel changes nothing. *)
Lemma hadamard_walk_enough f1 f2 this matrix aPtr aEnd bPtr bEnd C :
  (aEnd - aPtr) + (bEnd - bPtr) ≤ f1 → (aEnd - aPtr) + (bEnd - bPtr) ≤ f2 →
  hadamard_walk f1 this matrix aPtr aEnd bPtr bEnd C =
  hadamard_walk f2 this matrix aPtr aEnd bPtr bEnd C.
Proof.
  revert f2 aPtr bPtr C. induction f1 as [|f1 IH]; intros f2 aPtr bPtr C H1 H2.
  - destruct f2 as [|f2]; [done|]. cbn [hadamard_walk].
    by rewrite decide_False by lia.
  - destruct f2 as [|f2]; cbn [hadamard_walk].
    { by rewrite decide_False by lia. }
    destruct (decide (aPtr < aEnd ∧ bPtr < bEnd)) as [[Ha Hb]|_]; [|done].
    destruct (read (COL_INDEX this) aPtr) as [aCol| |]; cbn; [|done..].
    destruct (read (COL_INDEX matrix) bPtr) as [bCol| |]; cbn; [|done..].
    destruct (decide (aCol = bCol)).
    + destruct (read (V this) aPtr) as [x| |]; cbn; [|done..].
      destruct (read (V matrix) bPtr) as [y| |]; cbn; [|done..].
      apply IH; lia.
    + destruct (decide (aCol < bCol)); apply IH; lia.
Qed.

Lemma hadamard_commutative_witness :
  ∃ C, hadamard m_2517 m_3729 = Ok C ∧ hadamard m_3729 m_2517 = Ok C.
Proof.
  assert (HA : structured m_2517) by by_evaluation.
  assert (HB : structured m_3729) by by_evaluation.
  destruct (hadamard_commutative m_2517 m_3729 HA HB eq_refl eq_refl)
    as (C & D & HC & HD & _ & _ & _ & <-).
  exists C. split; [exact HC | exact HD].
Defined.

(** ** Minors *)

Lemma submatrix_entries c (r : entries) (sub : arrays) (len : nat) :
  foldlM (λ st e,
            if decide (e.1 = c) then Ok st
            else Ok (emit st.1 e.2 (if decide (e.1 < c) then e.1 else e.1 - 1),
                     st.2 + 1))
         (sub, len) r =
  Ok (foldl (λ C e, emit C e.2 e.1) sub (strike c r), len + length (strike c r)).
Proof.
  revert sub len. induction r as [|e r IH]; intros sub len.
  - cbn. by rewrite Nat.add_0_r.
  - cbn [foldlM strike omap list_omap]. fold (strike c r).
    destruct (decide (e.1 = c)); cbn; [apply IH|].
    rewrite IH. do 2 f_equal. lia.
Qed.

Lemma submatrix_row_holds matrix rs x c acc i r :
  holds matrix rs → rs !! i = Some r → i ≠ x →
  submatrix_row matrix x c (layout acc) i = Ok (layout (acc ++ [strike c r])).
Proof.
  intros Hm Hr Hne. unfold submatrix_row. rewrite decide_False by done.
  rewrite (foldlM_row matrix rs i r _
             (λ st e,
                if decide (e.1 = c) then Ok st
                else Ok (emit st.1 e.2 (if decide (e.1 < c) then e.1 else e.1 - 1),
                         st.2 + 1)) _ Hm Hr).
  2:{ intros [sub len] j e Hc Hv. unfold submatrix_entry, read. rewrite Hc. cbn.
      destruct (decide (e.1 = c)); [done|]. by rewrite Hv. }
  rewrite submatrix_entries. cbn.
  rewrite foldl_emit. cbn [C_ROW_INDEX].
  unfold read. rewrite lookup_offsets.
  assert (Hlen : length (C_ROW_INDEX (layout acc)) = S (length acc)).
  { unfold layout. cbn [C_ROW_INDEX]. by rewrite length_fmap, length_seq. }
  rewrite Hlen. cbn [Nat.sub]. rewrite Nat.sub_0_r, decide_True by lia. cbn.
  rewrite layout_snoc. unfold close_row. cbn. do 4 f_equal.
  rewrite offset_ge by lia. by rewrite !length_app, !length_fmap.
Qed.

Lemma submatrix_rows_holds matrix rs x c l acc :
  holds matrix rs → Forall (λ i, i < length rs ∧ i ≠ x) l →
  foldlM (submatrix_row matrix x c) (layout acc) l =
  Ok (layout (acc ++ ((λ i, strike c (default [] (rs !! i))) <$> l))).
Proof.
  intros Hm. revert acc. induction l as [|i l IH]; intros acc Hl.
  - cbn. by rewrite app_nil_r.
  - apply Forall_cons in Hl as [[Hi Hne] Hl].
    destruct (lookup_lt_is_Some_2 rs i Hi) as [r Hr].
    cbn [foldlM]. rewrite (submatrix_row_holds _ _ _ _ _ _ _ Hm Hr Hne). cbn.
    rewrite IH by done. rewrite Hr. cbn. by rewrite <- app_assoc.
Qed.

(** The minor along row 0 holds the remaining rows, each struck at [c]. *)
Lemma csrMatrixSubmatrix_holds matrix r0 rs c :
  holds matrix (r0 :: rs) →
  ∃ sub, csrMatrixSubmatrix matrix 0 c = Ok sub ∧ holds sub (strike c <$> rs).
Proof.
  intros Hm. unfold csrMatrixSubmatrix.
  rewrite (holds_length_ROW_INDEX _ _ Hm). cbn [length Nat.sub seq foldlM].
  unfold submatrix_row at 2. rewrite decide_True by done. cbn.
  change empty_arrays with (layout []).
  rewrite (submatrix_rows_holds matrix (r0 :: rs) 0 c _ [] Hm).
  2:{ apply Forall_forall. intros i Hi. apply elem_of_seq in Hi. cbn. lia. }
  assert (Heq : (λ i, strike c (default [] ((r0 :: rs) !! i))) <$> seq 1 (length rs)
                = strike c <$> rs).
  { apply list_eq. intros k. rewrite !list_lookup_fmap.
    destruct (decide (k < length rs)) as [Hk|Hk].
    - replace (seq 1 (length rs) !! k) with (Some (S k))
        by (symmetry; apply lookup_seq; lia).
      destruct (lookup_lt_is_Some_2 rs k Hk) as [r Hr].
      cbn [fmap option_fmap option_map]. change ((r0 :: rs) !! S k) with (rs !! k).
      by rewrite Hr.
    - rewrite (lookup_ge_None_2 (seq 1 (length rs))) by (rewrite length_seq; lia).
      rewrite (lookup_ge_None_2 rs) by lia. done. }
  cbn [app]. rewrite Heq. cbn. eexists. split; [reflexivity|].
  apply holds_with_arrays.
Qed.

(** A struck row read at column [j] is the row read at the column that [j]
    was before the deletion. *)
Lemma acc_get_strike c (r : entries) j :
  acc_get (strike c r) j = acc_get r (if decide (j < c) then j else S j).
Proof.
  induction r as [|[c' v] r IH]; [done|].
  cbn [strike omap list_omap acc_get fst snd]. fold (strike c r).
  destruct (decide (c' = c)) as [->|Hne].
  - rewrite IH. destruct (decide (j < c)).
    + by rewrite decide_False by lia.
    + by rewrite decide_False by lia.
  - cbn [acc_get]. rewrite IH.
    destruct (decide (c' < c)), (decide (j < c)).
    + destruct (decide (c' = j)); done.
    + rewrite decide_False by lia. by rewrite decide_False by lia.
    + rewrite decide_False by lia. by rewrite decide_False by lia.
    + destruct (decide (c' - 1 = j)).
      * by rewrite decide_True by lia.
      * by rewrite decide_False by lia.
Qed.

(** ** The Laplace expansion along row 0 *)

Lemma Zsum_cons x l : Zsum (x :: l) = (x + Zsum l)%Z.
Proof. reflexivity. Qed.

Lemma Zsum_zero {A} (h : A → Z) l : (∀ x, h x = 0%Z) → Zsum (h <$> l) = 0%Z.
Proof.
  intros Hh. induction l as [|x l IH]; [done|].
  by rewrite fmap_cons, Zsum_cons, Hh, IH.
Qed.

Lemma Zsum_point (h : nat → Z) (l : list nat) c0 a :
  NoDup l → c0 ∈ l →
  Zsum ((λ c, if decide (c = c0) then a else h c) <$> l) = (a - h c0 + Zsum (h <$> l))%Z.
Proof.
  induction l as [|c l IH]; intros Hnd Hin; [by apply elem_of_nil in Hin|].
  apply NoDup_cons in Hnd as [Hc Hnd]. rewrite !fmap_cons, !Zsum_cons.
  destruct (decide (c = c0)) as [->|Hne].
  - assert (Hrest : (λ c, if decide (c = c0) then a else h c) <$> l = h <$> l).
    { apply list_fmap_ext. intros i x Hx. rewrite decide_False; [done|].
      intros ->. apply Hc. by eapply list_elem_of_lookup_2. }
    rewrite Hrest. lia.
  - apply elem_of_cons in Hin as [?|Hin]; [congruence|].
    rewrite IH by done. lia.
Qed.

Lemma acc_get_None (r : entries) c : acc_get r c = None ↔ c ∉ r.*1.
Proof.
  pose proof (indexOf_acc_get r c) as H. rewrite <- indexOf_None.
  destruct (indexOf c r.*1) as [i|].
  - destruct H as (v & _ & ->). split; done.
  - split; done.
Qed.

Lemma acc_get_Some (r : entries) c v : acc_get r c = Some v → (c, v) ∈ r.
Proof.
  pose proof (indexOf_acc_get r c) as H.
  destruct (indexOf c r.*1) as [i|].
  - destruct H as (v' & Hi & ->). intros [= <-]. by eapply list_elem_of_lookup_2.
  - rewrite H. done.
Qed.

(** The sum over the stored entries of a row is the sum over all columns,
    where an absent column reads 0. *)
Lemma Zsum_entries n (r : entries) (h : nat → Z → Z) :
  (∀ c, h c 0%Z = 0%Z) → NoDup r.*1 → Forall (λ e, e.1 < n) r →
  Zsum ((λ e, h e.1 e.2) <$> r) =
  Zsum ((λ c, h c (default 0%Z (acc_get r c))) <$> seq 0 n).
Proof.
  intros Hh. induction r as [|[c0 v0] r IH]; intros Hnd Hlt.
  - symmetry. by apply Zsum_zero.
  - rewrite fmap_cons in Hnd. apply NoDup_cons in Hnd as [Hc0 Hnd].
    apply Forall_cons in Hlt as [Hc0n Hlt]. cbn in Hc0n.
    rewrite fmap_cons, Zsum_cons. cbn [fst snd].
    rewrite IH by done.
    assert (Hf : (λ c, h c (default 0%Z (acc_get ((c0, v0) :: r) c))) <$> seq 0 n =
                 (λ c, if decide (c = c0) then h c0 v0
                       else h c (default 0%Z (acc_get r c))) <$> seq 0 n).
    { apply list_fmap_ext. intros i c _. cbn [acc_get].
      destruct (decide (c0 = c)) as [->|Hne].
      - by rewrite decide_True.
      - by rewrite decide_False by congruence. }
    rewrite Hf, Zsum_point; [|apply NoDup_seq|apply elem_of_seq; lia].
    cbn [fst] in Hc0. apply acc_get_None in Hc0. rewrite Hc0. cbn. rewrite Hh. lia.
Qed.

Lemma forallb_entries n (r : entries) (p : nat → bool) :
  Forall (λ e, e.1 < n ∧ e.2 ≠ 0%Z) r →
  forallb (λ e, p e.1) r =
  forallb (λ c, bool_decide (default 0%Z (acc_get r c) = 0%Z) || p c) (seq 0 n).
Proof.
  intros Hr. apply eq_bool_prop_intro. rewrite !forallb_True, !Forall_forall.
  rewrite Forall_forall in Hr. split.
  - intros Hl c Hc. apply orb_True.
    destruct (acc_get r c) as [v|] eqn:Hv; [|left; by apply bool_decide_spec].
    right. apply acc_get_Some in Hv. apply (Hl _ Hv).
  - intros Hs [c v] He. cbn.
    destruct (Hr _ He) as [Hlt Hnz]. cbn in Hlt, Hnz.
    specialize (Hs c). apply orb_True in Hs as [Hs|Hs]; [|done|apply elem_of_seq; lia].
    apply bool_decide_spec in Hs. exfalso.
    destruct (acc_get r c) as [v'|] eqn:Hv.
    + apply acc_get_Some in Hv. destruct (Hr _ Hv) as [_ Hnz']. by apply Hnz'.
    + apply acc_get_None in Hv. apply Hv.
      apply list_elem_of_fmap. by exists (c, v).
Qed.

Lemma laplace_SS n f :
  laplace (S (S n)) f =
  Zsum ((λ c, sign c * f 0%nat c * laplace (S n) (minor f c))%Z <$> seq 0 (S (S n))).
Proof. reflexivity. Qed.

Lemma expansion_defined_SS n f :
  expansion_defined (S (S n)) f =
  last_column_used (S (S n)) f &&
  forallb (λ c, bool_decide (f 0 c = 0%Z) || expansion_defined (S n) (minor f c))
          (seq 0 (S (S n))).
Proof. reflexivity. Qed.

(** The expansion and its definedness look at the cells of the grid only. *)
Lemma laplace_ext n f g :
  (∀ i j, i < n → j < n → f i j = g i j) →
  laplace n f = laplace n g ∧ expansion_defined n f = expansion_defined n g.
Proof.
  revert f g. induction n as [|n IH]; intros f g Hfg; [done|].
  destruct n as [|n]; [split; [apply Hfg; lia | done]|].
  assert (Hminor : ∀ c, c < S (S n) →
            laplace (S n) (minor f c) = laplace (S n) (minor g c) ∧
            expansion_defined (S n) (minor f c) = expansion_defined (S n) (minor g c)).
  { intros c Hc. apply IH. intros i j Hi Hj. unfold minor.
    apply Hfg; [lia|]. destruct (decide (j < c)); lia. }
  split.
  - rewrite !laplace_SS. f_equal. apply list_fmap_ext. intros i c Hc.
    apply lookup_seq in Hc as [-> Hc]. cbn [Nat.add].
    destruct (Hminor i Hc) as [-> _]. rewrite Hfg by lia. done.
  - rewrite !expansion_defined_SS. f_equal.
    + unfold last_column_used. apply eq_bool_prop_intro.
      rewrite !existb_True, !Exists_exists. split; intros (i & Hi & Hx); exists i;
        (split; [done|]); apply elem_of_seq in Hi;
        [rewrite <- Hfg by lia | rewrite Hfg by lia]; done.
    + apply eq_bool_prop_intro. rewrite !forallb_True, !Forall_forall.
      split; intros H c Hc; specialize (H c Hc); apply elem_of_seq in Hc;
        destruct (Hminor c) as [_ Hd]; try lia;
        [rewrite <- Hfg, <- Hd by lia | rewrite Hfg, Hd by lia]; done.
Qed.

Lemma cell_strike c r0 (rs : list entries) i j :
  cell (strike c <$> rs) i j = minor (cell (r0 :: rs)) c i j.
Proof.
  unfold minor, cell. change ((r0 :: rs) !! S i) with (rs !! i).
  rewrite list_lookup_fmap. destruct (rs !! i) as [r|]; [|done].
  cbn. by rewrite acc_get_strike.
Qed.

Lemma strike_cons c e (r : entries) :
  strike c (e :: r) =
  if decide (e.1 = c) then strike c r
  else (if decide (e.1 < c) then e.1 else e.1 - 1, e.2) :: strike c r.
Proof. unfold strike. cbn [omap list_omap]. by destruct (decide (e.1 = c)). Qed.

Lemma elem_of_strike c (r : entries) j :
  j ∈ (strike c r).*1 →
  ∃ c', c' ∈ r.*1 ∧ c' ≠ c ∧ j = if decide (c' < c) then c' else c' - 1.
Proof.
  induction r as [|e r IH]; [by intros ?%elem_of_nil|].
  rewrite strike_cons. destruct (decide (e.1 = c)) as [He|He].
  - intros Hj. destruct (IH Hj) as (c' & ? & ? & ?). exists c'.
    rewrite fmap_cons. split; [by right | done].
  - rewrite fmap_cons. intros [->|Hj]%elem_of_cons.
    + exists e.1. rewrite fmap_cons. split; [by left | done].
    + destruct (IH Hj) as (c' & ? & ? & ?). exists c'.
      rewrite fmap_cons. split; [by right | done].
Qed.

Lemma tidy_strike n c (r : entries) : c < S n → tidy (S n) r → tidy n (strike c r).
Proof.
  intros Hc [Hnd Hall]. split.
  - induction r as [|e r IH]; [constructor|].
    rewrite fmap_cons in Hnd. apply NoDup_cons in Hnd as [He Hnd].
    apply Forall_cons in Hall as [_ Hall].
    rewrite strike_cons. destruct (decide (e.1 = c)) as [Hec|Hec]; [by apply IH|].
    rewrite fmap_cons. apply NoDup_cons. split; [|by apply IH].
    cbn [fst]. intros (c' & Hc' & Hne & Heq)%elem_of_strike.
    apply He. replace e.1 with c'; [done|].
    destruct (decide (e.1 < c)), (decide (c' < c)); lia.
  - unfold strike. apply Forall_forall. intros e' (e & He & Hf)%list_elem_of_omap.
    rewrite Forall_forall in Hall. destruct (Hall e He) as [Hlt Hnz].
    destruct (decide (e.1 = c)); [done|]. injection Hf as <-. cbn.
    split; [|done]. destruct (decide (e.1 < c)); lia.
Qed.

Lemma elem_of_concat_keys (rs : list entries) c :
  c ∈ (concat rs).*1 ↔ ∃ i r, rs !! i = Some r ∧ c ∈ r.*1.
Proof.
  induction rs as [|r rs IH].
  - cbn. split; [by intros ?%elem_of_nil | by intros (i & r & ? & _)].
  - cbn [concat]. rewrite fmap_app, elem_of_app, IH. split.
    + intros [Hc|(i & r' & Hi & Hc)]; [by exists 0, r | by exists (S i), r'].
    + intros ([|i] & r' & Hi & Hc); [left; by simplify_eq/= | right; by exists i, r'].
Qed.

(** For a store with tidy rows, the squareness test of the code passes
    exactly when the last column holds a non-zero cell. *)
Lemma last_column_used_rows n (rs : list entries) :
  length rs = S n → Forall (tidy (S n)) rs →
  last_column_used (S n) (cell rs) = true ↔
  (concat rs).*1 ≠ [] ∧ S n = max_list (concat rs).*1 + 1.
Proof.
  intros Hlen Hrs. unfold last_column_used.
  rewrite <- Is_true_true, existb_True, Exists_exists.
  replace (S n - 1) with n by lia.
  assert (Hbound : ∀ c, c ∈ (concat rs).*1 → c < S n).
  { intros c (i & r & Hi & Hc)%elem_of_concat_keys.
    rewrite Forall_forall in Hrs. destruct (Hrs r) as [_ Hr];
      [by eapply list_elem_of_lookup_2|].
    apply list_elem_of_fmap in Hc as (e & -> & He).
    rewrite Forall_forall in Hr. by destruct (Hr e He). }
  assert (Hmem : (∃ i, i ∈ seq 0 (S n) ∧ bool_decide (cell rs i n ≠ 0%Z)) ↔
                 n ∈ (concat rs).*1).
  { rewrite elem_of_concat_keys. split.
    - intros (i & Hi & Hx). apply bool_decide_spec in Hx.
      unfold cell in Hx. destruct (rs !! i) as [r|] eqn:Hr; [|done].
      exists i, r. split; [done|]. cbn in Hx.
      destruct (acc_get r n) as [v|] eqn:Hv; [|done].
      apply acc_get_Some in Hv. apply list_elem_of_fmap. by exists (n, v).
    - intros (i & r & Hi & Hc). exists i. split.
      + apply elem_of_seq. apply lookup_lt_Some in Hi. lia.
      + apply bool_decide_spec. unfold cell. rewrite Hi. cbn.
        destruct (acc_get r n) as [v|] eqn:Hv.
        * apply acc_get_Some in Hv.
          rewrite Forall_forall in Hrs. destruct (Hrs r) as [_ Hr];
            [by eapply list_elem_of_lookup_2|].
          rewrite Forall_forall in Hr. by destruct (Hr _ Hv).
        * by apply acc_get_None in Hv. }
  rewrite Hmem. split.
  - intros Hn. split; [by intros Hnil; rewrite Hnil in Hn; apply elem_of_nil in Hn|].
    pose proof (max_list_elem_of_le _ _ Hn) as Hle.
    assert (max_list (concat rs).*1 < S n); [|lia].
    apply Hbound, max_list_elem_of. intros Hnil. rewrite Hnil in Hn.
    by apply elem_of_nil in Hn.
  - intros [Hne Hmax]. replace n with (max_list (concat rs).*1) by lia.
    by apply max_list_elem_of.
Qed.

(** The size of the expansion: [n! * M ^ n] bounds it when [M] bounds the
    cells. *)
Lemma Zsum_abs (l : list Z) : (Z.abs (Zsum l) ≤ Zsum (Z.abs <$> l))%Z.
Proof.
  induction l as [|x l IH]; [done|]. rewrite fmap_cons, !Zsum_cons. lia.
Qed.

Lemma Zsum_bound (l : list Z) (B : Z) :
  Forall (λ x, (x ≤ B)%Z) l → (Zsum l ≤ Z.of_nat (length l) * B)%Z.
Proof.
  induction 1 as [|x l Hx _ IH]; [done|]. rewrite Zsum_cons. cbn [length]. lia.
Qed.

Lemma size_S (n : nat) (M : Z) :
  (Z.of_nat (fact (S n)) * M ^ Z.of_nat (S n) =
   Z.of_nat (S n) * (M * (Z.of_nat (fact n) * M ^ Z.of_nat n)))%Z.
Proof.
  change (fact (S n)) with (S n * fact n).
  rewrite Nat2Z.inj_mul, (Nat2Z.inj_succ n), Z.pow_succ_r by lia. ring.
Qed.

Lemma size_nonneg (n : nat) (M : Z) : (0 ≤ M → 0 ≤ Z.of_nat (fact n) * M ^ Z.of_nat n)%Z.
Proof. intros HM. apply Z.mul_nonneg_nonneg; [lia|]. by apply Z.pow_nonneg. Qed.

(** A bound on the expansion of [S n] rows is one on that of [n] rows, for
    [n >= 1], and on the cells. *)
Lemma size_pred (n : nat) (M B : Z) :
  (0 ≤ M)%Z → (0 ≤ B)%Z → 0 < n →
  (Z.of_nat (fact (S n)) * M ^ Z.of_nat (S n) ≤ B)%Z →
  (Z.of_nat (fact n) * M ^ Z.of_nat n ≤ B)%Z ∧ (M ≤ B)%Z.
Proof.
  intros HM HB Hn. rewrite size_S.
  pose proof (size_nonneg n M HM) as Hs.
  destruct (decide (M = 0%Z)) as [->|HM0].
  - rewrite Z.pow_0_l by lia. lia.
  - assert (1 ≤ M ^ Z.of_nat n)%Z as Hp.
    { replace 1%Z with (1 ^ Z.of_nat n)%Z by apply Z.pow_1_l, Nat2Z.is_nonneg.
      apply Z.pow_le_mono_l. lia. }
    assert (1 ≤ Z.of_nat (fact n))%Z as Hf by (pose proof (lt_O_fact n); lia).
    intros H.
    set (P := (M ^ Z.of_nat n)%Z) in *. set (F := Z.of_nat (fact n)) in *.
    assert (1 ≤ F * P)%Z by nia.
    assert (M ≤ M * (F * P))%Z by nia.
    assert (F * P ≤ M * (F * P))%Z by nia.
    assert (M * (F * P) ≤ Z.of_nat (S n) * (M * (F * P)))%Z by nia.
    split; lia.
Qed.

Lemma laplace_bound n f (M : Z) :
  (0 ≤ M)%Z → (∀ i j, (Z.abs (f i j) ≤ M)%Z) →
  (Z.abs (laplace n f) ≤ Z.of_nat (fact n) * M ^ Z.of_nat n)%Z.
Proof.
  intros HM. revert f. induction n as [|n IH]; intros f Hf; [done|].
  destruct n as [|n].
  { change (laplace 1 f) with (f 0 0). specialize (Hf 0 0). cbn. lia. }
  rewrite laplace_SS, size_S.
  etrans; [apply Zsum_abs|]. rewrite <- list_fmap_compose.
  etrans; [apply (Zsum_bound _ (M * (Z.of_nat (fact (S n)) * M ^ Z.of_nat (S n))))|].
  - apply Forall_fmap, Forall_forall. intros c _. unfold compose. cbn beta.
    assert (Z.abs (sign c) = 1)%Z as Hs by (unfold sign; destruct (Nat.even _); lia).
    rewrite !Z.abs_mul, Hs, Z.mul_1_l.
    pose proof (IH (minor f c) (λ i j, Hf _ _)) as Hl. specialize (Hf 0 c).
    apply Z.mul_le_mono_nonneg; lia.
  - by rewrite length_fmap, length_seq.
Qed.

(** What holds of 0 and of every stored value holds of every cell. *)
Lemma cell_Forall (P : Z → Prop) (rs : list entries) i j :
  P 0%Z → Forall (Forall (λ e, P e.2)) rs → P (cell rs i j).
Proof.
  intros H0 Hrs. unfold cell. destruct (rs !! i) as [r|] eqn:Hr; cbn; [|done].
  destruct (acc_get r j) as [v|] eqn:Hv; cbn; [|done].
  apply acc_get_Some in Hv. rewrite Forall_forall in Hrs.
  pose proof (Hrs r (list_elem_of_lookup_2 _ _ _ Hr)) as Hall.
  rewrite Forall_forall in Hall. exact (Hall _ Hv).
Qed.

Lemma cell_bound (rs : list entries) (M : Z) i j :
  (0 ≤ M)%Z → Forall (Forall (λ e, (Z.abs e.2 ≤ M)%Z)) rs → (Z.abs (cell rs i j) ≤ M)%Z.
Proof. intros HM. apply (cell_Forall (λ v, Z.abs v ≤ M)%Z). lia. Qed.

(** A row without a repeated column has at most as many entries as there
    are columns. *)
Lemma NoDup_keys_length n (r : entries) :
  NoDup r.*1 → Forall (λ e, e.1 < n) r → length r ≤ n.
Proof.
  intros Hnd Hall. rewrite <- (length_fmap fst r), <- (length_seq n 0).
  apply submseteq_length, NoDup_submseteq; [done|].
  intros c (e & -> & He)%list_elem_of_fmap. rewrite Forall_forall in Hall.
  apply elem_of_seq. specialize (Hall e He). cbn beta in Hall. lia.
Qed.

Lemma tidy_length n (r : entries) : tidy n r → length r ≤ n.
Proof.
  intros [Hnd Hall]. apply NoDup_keys_length; [done|].
  eapply Forall_impl; [exact Hall|]. by intros e [? _].
Qed.

(** The loop over row 0, when every recursive call answers as the expansion
    of the minor does, and the values are small enough for the products and
    the running sum to be exact. *)
Lemma cofactor_loop_rows D m (r : entries) a det (dfn : nat → bool) (lap : nat → Z)
    (M L : Z) :
  (∀ j e, r !! j = Some e →
          COL_INDEX m !! (a + j) = Some e.1 ∧ V m !! (a + j) = Some e.2) →
  (∀ e, e ∈ r →
        ∃ sub, csrMatrixSubmatrix m 0 e.1 = Ok sub ∧
               D sub = Some (if dfn e.1 then Ok (lap e.1) else Throw NotSquareMatrix)) →
  Forall (λ e, (Z.abs e.2 ≤ M)%Z) r → (∀ c, (Z.abs (lap c) ≤ L)%Z) →
  (0 ≤ M ≤ 2 ^ 53)%Z → (0 ≤ L)%Z →
  (Z.abs det + Z.of_nat (length r) * (M * L) ≤ 2 ^ 53)%Z →
  cofactor_loop D m (seq a (length r)) det =
  Some (if forallb (λ e, dfn e.1) r
        then Ok (det + Zsum ((λ e, sign e.1 * e.2 * lap e.1)%Z <$> r))%Z
        else Throw NotSquareMatrix).
Proof.
  intros Hread Hsub Hr Hlap HM HL.
  revert a det Hread Hsub. induction Hr as [|e r He _ IH]; intros a det Hread Hsub Hdet.
  - cbn. unfold Zsum. cbn. rewrite Z.add_0_r. done.
  - cbn [length seq cofactor_loop].
    destruct (Hread 0 e eq_refl) as [Hc Hv]. rewrite Nat.add_0_r in Hc, Hv.
    unfold read. rewrite Hc, Hv. cbn.
    destruct (Hsub e) as (sub & -> & HD); [by left|]. cbn. rewrite HD.
    cbn [forallb]. destruct (dfn e.1); [|done]. cbn [andb].
    assert (Z.abs (sign e.1) = 1)%Z as Hs by (unfold sign; destruct (Nat.even _); lia).
    assert (Z.abs (sign e.1 * e.2 * lap e.1) ≤ M * L)%Z as Hterm.
    { rewrite !Z.abs_mul, Hs, Z.mul_1_l. specialize (Hlap e.1).
      apply Z.mul_le_mono_nonneg; lia. }
    assert (0 ≤ Z.of_nat (length r) * (M * L))%Z as Hrest by nia.
    cbn [length] in Hdet.
    rewrite (number_mul_exact (sign e.1)) by (rewrite Z.abs_mul, Hs; lia).
    rewrite number_mul_exact by lia. rewrite number_add_exact by lia.
    rewrite IH.
    + rewrite Zsum_cons.
      destruct (forallb (λ e0, dfn e0.1) r); [|done]. do 2 f_equal. lia.
    + intros j e' Hj. replace (S a + j) with (a + S j) by lia. by apply Hread.
    + intros e' He'. apply Hsub. by right.
    + lia.
Qed.

(** The recursion of the code computes the expansion of the cells it holds,
    unless the squareness test fails at some level. *)
Lemma determinant_steps_rows fuel n (rs : list entries) m (M : Z) :
  n < fuel → length rs = n → Forall (tidy n) rs → holds m rs →
  (0 ≤ M)%Z → Forall (Forall (λ e, (Z.abs e.2 ≤ M)%Z)) rs →
  (Z.of_nat (fact n) * M ^ Z.of_nat n ≤ 2 ^ 53)%Z →
  determinant_steps fuel m =
  Some (if expansion_defined n (cell rs) then Ok (laplace n (cell rs))
        else Throw NotSquareMatrix).
Proof.
  intros Hfuel Hlen Hrs Hm HM. revert n rs m Hfuel Hlen Hrs Hm.
  induction fuel as [|fuel IH]; intros n rs m Hfuel Hlen Hrs Hm Hval Hsize; [lia|].
  cbn [determinant_steps].
  pose proof (holds_length_ROW_INDEX _ _ Hm) as HR. rewrite Hlen in HR.
  destruct (ROW_INDEX m) as [|x R] eqn:ER; [done|]. rewrite HR.
  replace (S n - 1) with n by lia.
  destruct (decide (n = 0)) as [->|Hn0]; [done|].
  destruct (decide (n = 1)) as [->|Hn1].
  { (* one row *)
    destruct rs as [|r [|? ?]]; [done| |done]. cbn [expansion_defined laplace].
    do 2 f_equal. rewrite (holds_V _ _ Hm). cbn [concat]. rewrite app_nil_r.
    apply Forall_singleton in Hrs as [Hnd Hall]. unfold cell. cbn.
    destruct r as [|[c v] r]; [done|].
    apply Forall_cons in Hall as [[Hc _] Hall]. cbn in Hc.
    assert (c = 0) as -> by lia. cbn. done. }
  destruct n as [|[|n]]; [done..|]. clear Hn0 Hn1.
  destruct rs as [|r0 rs]; [done|].
  pose proof (last_column_used_rows (S n) (r0 :: rs) Hlen Hrs) as Hguard.
  rewrite <- (holds_COL_INDEX _ _ Hm) in Hguard.
  rewrite expansion_defined_SS, laplace_SS.
  destruct (COL_INDEX m) as [|c0 cs] eqn:EC.
  { destruct (last_column_used (S (S n)) (cell (r0 :: rs))); [|done].
    by destruct Hguard as [[? _] _]. }
  destruct (decide (S (S n) ≠ max_list (c0 :: cs) + 1)) as [Hmax|Hmax].
  { destruct (last_column_used (S (S n)) (cell (r0 :: rs))); [|done].
    by destruct Hguard as [[_ ?] _]. }
  assert (Hused : last_column_used (S (S n)) (cell (r0 :: rs)) = true).
  { apply Hguard. split; [done|]. by destruct (decide (S (S n) = max_list (c0 :: cs) + 1)). }
  rewrite Hused. cbn [andb]. clear Hguard Hmax Hused.
  rewrite (holds_row_range _ _ Hm 0 r0 eq_refl). rewrite offset_0.
  pose proof (cell_bound (r0 :: rs) M) as Hcell.
  apply Forall_cons in Hrs as [Hr0 Hrs]. apply Forall_cons in Hval as [Hv0 Hval].
  destruct (size_pred (S n) M (2 ^ 53)) as [Hsize' HM53]; [lia..|].
  rewrite (cofactor_loop_rows _ m r0 0 0%Z
             (λ c, expansion_defined (S n) (minor (cell (r0 :: rs)) c))
             (λ c, laplace (S n) (minor (cell (r0 :: rs)) c))
             M (Z.of_nat (fact (S n)) * M ^ Z.of_nat (S n))).
  - destruct Hr0 as [Hnd Hall].
    cbn beta.
    rewrite (forallb_entries (S (S n)) r0
               (λ c, expansion_defined (S n) (minor (cell (r0 :: rs)) c))) by done.
    rewrite (Zsum_entries (S (S n)) r0
               (λ c v, sign c * v * laplace (S n) (minor (cell (r0 :: rs)) c))%Z);
      [|intros c; lia|done|].
    2:{ eapply Forall_impl; [exact Hall|]. by intros e [? _]. }
    rewrite Z.add_0_l. done.
  - intros j e Hj. split.
    + by apply (holds_read_col _ _ Hm 0 r0 j e).
    + by apply (holds_read_value _ _ Hm 0 r0 j e).
  - intros e He.
    destruct (csrMatrixSubmatrix_holds m r0 rs e.1 Hm) as (sub & Hsub & Hh).
    exists sub. split; [done|].
    assert (Hcol : e.1 < S (S n)).
    { destruct Hr0 as [_ Hall]. rewrite Forall_forall in Hall. by destruct (Hall e He). }
    rewrite (IH (S n) (strike e.1 <$> rs) sub); [|lia| | |done| |done].
    + destruct (laplace_ext (S n) (cell (strike e.1 <$> rs)) (minor (cell (r0 :: rs)) e.1))
        as [-> ->]; [|done].
      intros i j _ _. apply cell_strike.
    + rewrite length_fmap. cbn in Hlen. lia.
    + apply Forall_fmap. eapply Forall_impl; [exact Hrs|].
      intros r Hr. by apply tidy_strike.
    + apply Forall_fmap. eapply Forall_impl; [exact Hval|].
      intros r Hr. unfold strike. apply Forall_forall.
      intros e' (e0 & He0 & Hf)%list_elem_of_omap. rewrite Forall_forall in Hr.
      destruct (decide (e0.1 = e.1)); [done|]. injection Hf as <-. cbn.
      exact (Hr _ He0).
  - done.
  - intros c. apply laplace_bound; [done|]. intros i j. unfold minor. apply Hcell; [done | by constructor].
  - lia.
  - by apply size_nonneg.
  - pose proof (tidy_length _ _ Hr0) as Hlen0.
    pose proof (size_nonneg (S n) M HM) as Hnn.
    rewrite size_S in Hsize. cbn [Z.abs].
    assert (0 ≤ M * (Z.of_nat (fact (S n)) * M ^ Z.of_nat (S n)))%Z by nia.
    nia.
Qed.

(** ** The bound on the recursion is enough *)

Lemma submatrix_entry_offsets matrix c l st st' :
  foldlM (submatrix_entry matrix c) st l = Ok st' →
  C_ROW_INDEX st'.1 = C_ROW_INDEX st.1.
Proof.
  revert st. induction l as [|j l IH]; intros st; [by intros [= ->]|].
  cbn [foldlM]. destruct (submatrix_entry matrix c st j) as [st1| |] eqn:E; [|done..].
  cbn. intros H. rewrite (IH _ H). clear H IH.
  unfold submatrix_entry in E. destruct st as [sub len].
  destruct (read (COL_INDEX matrix) j) as [col| |]; [|done..]. cbn in E.
  destruct (decide (col = c)); [by injection E as <-|].
  destruct (read (V matrix) j) as [v| |]; [|done..]. cbn in E. by injection E as <-.
Qed.

Lemma submatrix_rows_offsets matrix x c l sub sub' :
  Forall (λ i, i ≠ x) l →
  foldlM (submatrix_row matrix x c) sub l = Ok sub' →
  length (C_ROW_INDEX sub') = length (C_ROW_INDEX sub) + length l.
Proof.
  revert sub. induction l as [|i l IH]; intros sub Hl.
  - intros [= ->]. cbn. lia.
  - apply Forall_cons in Hl as [Hi Hl]. cbn [foldlM].
    destruct (submatrix_row matrix x c sub i) as [sub1| |] eqn:E; [|done..].
    cbn. intros H. rewrite (IH _ Hl H). clear H IH. cbn [length].
    unfold submatrix_row in E. rewrite decide_False in E by done.
    destruct (foldlM (submatrix_entry matrix c) (sub, 0) (row_range matrix i))
      as [[sub2 len]| |] eqn:E2; [|done..].
    apply submatrix_entry_offsets in E2. cbn in E, E2.
    destruct (read (C_ROW_INDEX sub2) (length (C_ROW_INDEX sub2) - 1)); [|done..].
    cbn in E. injection E as <-. cbn. rewrite length_app, E2. cbn. lia.
Qed.

Lemma csrMatrixSubmatrix_offsets matrix c sub :
  csrMatrixSubmatrix matrix 0 c = Ok sub →
  2 ≤ length (ROW_INDEX matrix) →
  length (ROW_INDEX sub) = length (ROW_INDEX matrix) - 1.
Proof.
  unfold csrMatrixSubmatrix. intros H Hlen.
  destruct (length (ROW_INDEX matrix)) as [|[|n]]; [lia..|].
  cbn [Nat.sub seq foldlM] in H.
  unfold submatrix_row at 2 in H. rewrite decide_True in H by done. cbn in H.
  destruct (foldlM (submatrix_row matrix 0 c) empty_arrays (seq 1 n))
    as [sub1| |] eqn:E; [|done..].
  cbn in H. injection H as <-. cbn.
  rewrite (submatrix_rows_offsets matrix 0 c (seq 1 n) empty_arrays sub1); [|  |done].
  - cbn. rewrite length_seq. lia.
  - apply Forall_forall. intros i Hi. apply elem_of_seq in Hi. lia.
Qed.

Lemma cofactor_loop_is_Some D matrix js det :
  (∀ c sub, csrMatrixSubmatrix matrix 0 c = Ok sub → is_Some (D sub)) →
  is_Some (cofactor_loop D matrix js det).
Proof.
  intros HD. revert det. induction js as [|i js IH]; intros det; [by eexists|].
  cbn [cofactor_loop].
  destruct (read (COL_INDEX matrix) i) as [col| |]; cbn; [|by eexists..].
  destruct (read (V matrix) i) as [value| |]; cbn; [|by eexists..].
  destruct (csrMatrixSubmatrix matrix 0 col) as [sub| |] eqn:E; cbn; [|by eexists..].
  destruct (HD col sub E) as [[cof|e|] ->]; [apply IH | by eexists..].
Qed.

(** The recursion never runs out of steps when it starts with more steps
    than the store has row offsets. *)
Lemma determinant_steps_enough fuel matrix :
  length (ROW_INDEX matrix) < fuel → is_Some (determinant_steps fuel matrix).
Proof.
  revert matrix. induction fuel as [|fuel IH]; intros matrix Hfuel; [lia|].
  cbn [determinant_steps].
  destruct (ROW_INDEX matrix) as [|x R] eqn:ER; [by eexists|].
  destruct (decide (length (x :: R) - 1 = 0)); [by eexists|].
  destruct (decide (length (x :: R) - 1 = 1)); [by eexists|].
  destruct (COL_INDEX matrix) as [|c0 cs]; [by eexists|].
  destruct (decide (length (x :: R) - 1 ≠ max_list (c0 :: cs) + 1)); [by eexists|].
  apply cofactor_loop_is_Some. intros c sub Hsub. apply IH.
  rewrite (csrMatrixSubmatrix_offsets _ _ _ Hsub); rewrite ER; cbn [length] in *; lia.
Qed.

(** ** The determinant of a store *)

Lemma Sorted_lt_NoDup (l : list nat) : Sorted lt l → NoDup l.
Proof.
  intros Hs. apply Sorted_StronglySorted in Hs; [|intros ???; lia].
  induction Hs as [|x l Hs IH Hx]; constructor; [|done].
  intros Hin. rewrite Forall_forall in Hx. specialize (Hx x Hin). lia.
Qed.

Lemma holds_tidy m (rs : list entries) n :
  holds m rs → sorted_columns m → no_stored_zero m →
  Forall (λ c, c < n) (COL_INDEX m) → Forall (tidy n) rs.
Proof.
  intros Hm Hsorted Hzero Hcols. apply Forall_forall. intros r Hr.
  apply list_elem_of_lookup in Hr as [k Hk]. split.
  - apply Sorted_lt_NoDup. rewrite <- (holds_columns _ _ Hm _ _ Hk).
    unfold sorted_columns in Hsorted. rewrite Forall_forall in Hsorted.
    apply Hsorted, elem_of_seq. rewrite (holds_length_ROW_INDEX _ _ Hm).
    apply lookup_lt_Some in Hk. lia.
  - apply Forall_forall. intros e He.
    apply list_elem_of_lookup in He as [j Hj]. split.
    + rewrite Forall_forall in Hcols. apply Hcols.
      eapply list_elem_of_lookup_2. by apply (holds_read_col _ _ Hm k r j e).
    + unfold no_stored_zero in Hzero. rewrite Forall_forall in Hzero. apply Hzero.
      eapply list_elem_of_lookup_2. by apply (holds_read_value _ _ Hm k r j e).
Qed.

Lemma dense_of_holds m rs i j : holds m rs → i < length rs → dense_of m i j = cell rs i j.
Proof. intros Hm Hi. unfold dense_of. by rewrite (get_holds _ _ _ _ Hm Hi). Qed.


Lemma magnitude_nonneg m : (0 ≤ magnitude m)%Z.
Proof. unfold magnitude. induction (V m) as [|v l IH]; cbn; lia. Qed.

Lemma bounded_magnitude m : bounded (magnitude m) m.
Proof.
  unfold bounded, magnitude. induction (V m) as [|v l IH]; [constructor|].
  cbn [foldr]. constructor; [lia|]. eapply Forall_impl; [exact IH|].
  intros x Hx. cbn beta in Hx. lia.
Qed.

(** The rows of a store hold its values. *)
Lemma holds_values (P : Z → Prop) m rs :
  holds m rs → Forall P (V m) ↔ Forall (Forall (λ e, P e.2)) rs.
Proof.
  intros Hm. rewrite (holds_V _ _ Hm), Forall_fmap, Forall_concat. done.
Qed.

Lemma holds_bounded m rs (M : Z) :
  holds m rs → bounded M m → Forall (Forall (λ e, (Z.abs e.2 ≤ M)%Z)) rs.
Proof. intros Hm. by apply (holds_values (λ v, Z.abs v ≤ M)%Z). Qed.



(** C4 as stated does not hold: this 2x3 store satisfies the invariants and
    its [determinant()] returns -2. *)
Lemma determinant_2x3_returns :
  construct 2 3 (Some [Some [Some 1; Some 2]; Some [Some 3; Some 4]]%Z) = Ok m_2x3 ∧
  csr_invariants m_2x3 ∧ rows m_2x3 ≠ cols m_2x3 ∧
  determinant m_2x3 = Ok (-2)%Z ∧
  determinant m_2x3 ≠ Throw NotSquareMatrix.
Proof.
  split; [reflexivity|]. split; [by_evaluation|]. split; [discriminate|].
  split; [reflexivity | discriminate].
Qed.

(** C4, amended.  A store with at least two rows fails with
    NotSquareMatrix as soon as its largest stored column is not [rows - 1]:
    when it stores nothing, and when [max(COL_INDEX) + 1] differs from
    [rows], which is the case of every store with fewer columns than rows and
    of every store with an entry in a column [>= rows]; so of every 2x3 store
    that holds an entry in column 2. *)
Theorem determinant_not_square (m : Matrix) :
  well_shaped m → (2 ≤ rows m)%Z →
  COL_INDEX m = [] ∨
  (Z.of_nat (max_list (COL_INDEX m)) + 1 ≠ rows m)%Z ∨
  (cols m < rows m)%Z ∨
  (∃ c, c ∈ COL_INDEX m ∧ (rows m ≤ Z.of_nat c)%Z) →
  determinant m = Throw NotSquareMatrix.
Proof.
  intros (Hlen & HR & Hlast & Hcols & _) Hrows Hcase.
  unfold determinant, csrMatrixDeterminant. cbn [determinant_steps].
  destruct (ROW_INDEX m) as [|x R] eqn:ER; [done|].
  rewrite HR. replace (Z.to_nat (rows m) + 1 - 1) with (Z.to_nat (rows m)) by lia.
  rewrite decide_False by lia. rewrite decide_False by lia.
  destruct (COL_INDEX m) as [|c0 cs] eqn:EC; [done|].
  rewrite decide_True; [done|].
  destruct Hcase as [?|[Hmax|[Hlt|(c & Hc & Hle)]]]; [done|lia| |].
  - assert (Hmax : max_list (c0 :: cs) ∈ c0 :: cs) by (by apply max_list_elem_of).
    rewrite Forall_forall in Hcols. specialize (Hcols _ Hmax). cbn beta in Hcols. lia.
  - pose proof (max_list_elem_of_le _ _ Hc). lia.
Qed.

Lemma determinant_not_square_witness :
  determinant m_2x3_full = Throw NotSquareMatrix.
Proof.
  apply determinant_not_square.
  - by_evaluation.
  - cbn. lia.
  - right. right. right. exists 2. split; [by_evaluation | cbn; lia].
Defined.

(** ** Loops *)

Lemma foldlM_app {A B} (f : B → A → result B) b l k :
  foldlM f b (l ++ k) = b' ← foldlM f b l; foldlM f b' k.
Proof.
  revert b. induction l as [|x l IH]; intros b; [done|].
  cbn. destruct (f b x); cbn; [apply IH | done..].
Qed.

Lemma foldlM_fmap {A B C} (f : B → A → result B) (g : C → A) b l :
  foldlM f b (g <$> l) = foldlM (λ b x, f b (g x)) b l.
Proof.
  revert b. induction l as [|x l IH]; intros b; [done|].
  cbn. destruct (f b (g x)); cbn; [apply IH | done..].
Qed.

Lemma foldlM_ext_in {A B} (f g : B → A → result B) b l :
  (∀ b x, x ∈ l → f b x = g b x) → foldlM f b l = foldlM g b l.
Proof.
  revert b. induction l as [|x l IH]; intros b Hfg; [done|].
  cbn. rewrite Hfg by left. destruct (g b x); cbn; [|done..].
  apply IH. intros b' y Hy. apply Hfg. by right.
Qed.

(** A counted loop over the positions of a list. *)
Lemma foldlM_positions {A St} (body : St → nat → result St) (g : St → A → result St)
    (l : list A) a s :
  (∀ s j x, l !! j = Some x → body s (a + j) = g s x) →
  foldlM body s (seq a (length l)) = foldlM g s l.
Proof.
  revert a s. induction l as [|x l IH]; intros a s Hb; [done|].
  cbn. rewrite <- (Hb s 0 x), Nat.add_0_r by done.
  destruct (body s a) as [s'| |]; cbn; [|done..].
  apply IH. intros s0 j y Hj.
  replace (S a + j) with (a + S j) by lia. by apply Hb.
Qed.

(** ** The stored entries with their row *)

Lemma triples_cols i0 rs : t_col <$> triples_from i0 rs = (concat rs).*1.
Proof.
  revert i0. induction rs as [|r rs IH]; intros i0; [done|].
  cbn [triples_from concat]. rewrite !fmap_app, IH. f_equal.
  rewrite <- list_fmap_compose. by apply list_fmap_ext.
Qed.

Lemma triples_vals i0 rs : t_val <$> triples_from i0 rs = (concat rs).*2.
Proof.
  revert i0. induction rs as [|r rs IH]; intros i0; [done|].
  cbn [triples_from concat]. rewrite !fmap_app, IH. f_equal.
  rewrite <- list_fmap_compose. by apply list_fmap_ext.
Qed.

Lemma triples_rows i0 rs t :
  t ∈ triples_from i0 rs → i0 ≤ t_row t < i0 + length rs.
Proof.
  revert i0. induction rs as [|r rs IH]; intros i0; [by intros ?%elem_of_nil|].
  cbn [triples_from length]. intros [Ht|Ht]%elem_of_app.
  - apply list_elem_of_fmap in Ht as (e & -> & _). cbn. lia.
  - specialize (IH _ Ht). lia.
Qed.

Lemma length_triples i0 rs : length (triples_from i0 rs) = length (concat rs).
Proof. by rewrite <- (length_fmap t_col), triples_cols, length_fmap. Qed.

Lemma start_0 E : start E 0 = 0.
Proof.
  unfold start. induction E as [|t E IH]; [done|].
  rewrite filter_cons. by rewrite decide_False by lia.
Qed.

Lemma start_S E c : start E (S c) = start E c + length (in_col c E).
Proof.
  unfold start, in_col. induction E as [|t E IH]; [done|].
  rewrite !filter_cons.
  destruct (decide (t_col t < S c)), (decide (t_col t < c)), (decide (t_col t = c));
    cbn [length]; lia.
Qed.

Lemma start_mono E c c' : c ≤ c' → start E c ≤ start E c'.
Proof. induction 1 as [|c' _ IH]; [done|]. rewrite start_S. lia. Qed.

Lemma start_all E n : Forall (λ t, t_col t < n) E → start E n = length E.
Proof.
  intros HE. unfold start. induction HE as [|t E Ht HE IH]; [done|].
  rewrite filter_cons, decide_True by done. cbn. by rewrite IH.
Qed.

(** ** First and second pass of [transpose]: the offsets of the result *)

Lemma tally_columns (cs : list nat) (t : list nat) n :
  Forall (λ c, c < n) cs → length t = S n →
  ∃ t', foldlM tally_step t cs = Ok t' ∧
        length t' = S n ∧ t' !! 0 = t !! 0 ∧
        ∀ c, c < n →
             t' !! S c = (λ x, x + length (filter (λ y, y = c) cs)) <$> t !! S c.
Proof.
  intros Hcs. revert t. induction Hcs as [|c0 cs Hc0 Hcs IH]; intros t Hlen.
  - exists t. split; [done|]. split; [done|]. split; [done|].
    intros c _. destruct (t !! S c); cbn; [f_equal; lia | done].
  - cbn [foldlM]. destruct (lookup_lt_is_Some_2 t (c0 + 1)) as [x Hx]; [lia|].
    assert (Hstep : tally_step t c0 = Ok (<[c0 + 1 := x + 1]> t))
      by (unfold tally_step, read; by rewrite Hx).
    rewrite Hstep. cbn [mbind result_bind].
    destruct (IH (<[c0 + 1 := x + 1]> t)) as (t' & Ht' & Hlen' & H0 & HS);
      [by rewrite length_insert|].
    exists t'. split; [done|]. split; [done|]. split.
    + rewrite H0. apply list_lookup_insert_ne. lia.
    + intros c Hc. rewrite (HS c Hc), filter_cons.
      destruct (decide (c0 = c)) as [->|Hne].
      * replace (c + 1) with (S c) in * by lia.
        rewrite list_lookup_insert_eq by lia. rewrite Hx. cbn. f_equal. lia.
      * rewrite list_lookup_insert_ne by lia. done.
Qed.

Lemma running_sums (t : list nat) n j :
  length t = S n → j ≤ n →
  ∃ t', foldlM sum_step t (seq 1 j) = Ok t' ∧
        length t' = S n ∧
        (∀ k, k ≤ j → t' !! k = Some (sum_list (take (S k) t))) ∧
        (∀ k, j < k → t' !! k = t !! k).
Proof.
  intros Hlen. induction j as [|j IH]; intros Hj.
  - exists t. split; [done|]. split; [done|]. split; [|done].
    intros k Hk. assert (k = 0) as -> by lia.
    destruct t as [|x t]; [done|]. cbn. rewrite take_0. cbn. f_equal. lia.
  - destruct IH as (t1 & Ht1 & Hlen1 & Hle & Hgt); [lia|].
    rewrite seq_S, foldlM_app, Ht1. cbn [mbind result_bind foldlM Nat.add].
    destruct (lookup_lt_is_Some_2 t (S j)) as [x Hx]; [lia|].
    assert (Hstep : sum_step t1 (S j) =
                    Ok (<[S j := x + sum_list (take (S j) t)]> t1)).
    { unfold sum_step, read. rewrite (Hgt (S j)), Hx by lia. cbn.
      by rewrite Nat.sub_0_r, (Hle j) by lia. }
    rewrite Hstep. cbn [mbind result_bind].
    eexists. split; [reflexivity|]. split; [by rewrite length_insert|]. split.
    + intros k Hk. destruct (decide (k = S j)) as [->|Hne].
      * rewrite list_lookup_insert_eq by lia. f_equal.
        rewrite (take_S_r t (S j) x Hx), sum_list_with_app. cbn. lia.
      * rewrite list_lookup_insert_ne by lia. apply Hle. lia.
    + intros k Hk. rewrite list_lookup_insert_ne by lia. apply Hgt. lia.
Qed.

Lemma filter_fmap_length {A} (f : A → nat) (l : list A) c :
  length (filter (λ y, y = c) (f <$> l)) = length (filter (λ x, f x = c) l).
Proof.
  induction l as [|x l IH]; [done|]. rewrite fmap_cons, !filter_cons.
  destruct (decide (f x = c)); cbn; by rewrite IH.
Qed.

(** The offsets of the transposed store: entry [k] counts the stored entries
    whose column is below [k]. *)
Lemma transpose_offsets m E n :
  COL_INDEX m = t_col <$> E → length (V m) = length E →
  Forall (λ t, t_col t < n) E → Z.to_nat (cols m) = n → (0 ≤ cols m)%Z →
  ∃ T, (t0 ← count_columns m (replicate (Z.to_nat (cols m + 1)) 0); prefix_sums m t0)
       = Ok T ∧
       length T = S n ∧ ∀ k, k ≤ n → T !! k = Some (start E k).
Proof.
  intros HC HV HE Hn Hcols. unfold count_columns, prefix_sums.
  rewrite HV, <- (length_fmap t_col E).
  rewrite (foldlM_positions _ tally_step (t_col <$> E)).
  2:{ intros s j c Hj. cbn [Nat.add]. unfold tally_step, read. by rewrite HC, Hj. }
  replace (Z.to_nat (cols m + 1)) with (S n) by lia.
  destruct (tally_columns (t_col <$> E) (replicate (S n) 0) n) as (t0 & -> & Hlen0 & H0 & HS).
  { by apply Forall_fmap. }
  { by rewrite length_replicate. }
  cbn [mbind result_bind]. rewrite Hn. fold sum_step.
  destruct (running_sums t0 n n Hlen0) as (T & -> & HlenT & Hle & _); [done|].
  exists T. split; [done|]. split; [done|].
  intros k Hk. rewrite (Hle k Hk). f_equal.
  induction k as [|k IH].
  - rewrite start_0. destruct t0 as [|x t0]; [done|].
    cbn in H0. injection H0 as ->. done.
  - assert (Hk' : t0 !! S k = Some (length (in_col k E))).
    { rewrite HS by lia. rewrite lookup_replicate_2 by lia. cbn.
      by rewrite filter_fmap_length. }
    rewrite (take_S_r _ _ _ Hk'), sum_list_with_app, IH, start_S by lia. cbn. lia.
Qed.

(** ** Writes into a growing array *)

Lemma length_js_write {A} (a : list (option A)) pos x :
  length (js_write a pos x) = length a `max` S pos.
Proof.
  unfold js_write. destruct (decide (pos < length a)).
  - rewrite length_insert. lia.
  - rewrite !length_app, length_replicate. cbn. lia.
Qed.

Lemma lookup_js_write_eq {A} (a : list (option A)) pos x :
  js_write a pos x !! pos = Some (Some x).
Proof.
  unfold js_write. destruct (decide (pos < length a)).
  - by apply list_lookup_insert_eq.
  - rewrite lookup_app_r by lia. rewrite lookup_app_r by (rewrite length_replicate; lia).
    rewrite length_replicate. by replace (pos - length a - (pos - length a)) with 0 by lia.
Qed.

Lemma lookup_js_write_ne {A} (a : list (option A)) pos x q y :
  q ≠ pos → a !! q = Some y → js_write a pos x !! q = Some y.
Proof.
  intros Hne Hq. unfold js_write. destruct (decide (pos < length a)).
  - by rewrite list_lookup_insert_ne.
  - rewrite lookup_app_l; [done|]. by eapply lookup_lt_Some.
Qed.

Lemma no_holes_Some {A} (l : list A) : no_holes (Some <$> l) = Ok l.
Proof. unfold no_holes. by rewrite (mapM_fmap_Some id Some l). Qed.

(** ** Third pass of [transpose]: the scatter *)

(** The two nested loops visit the stored entries in storage order. *)
Lemma scatter_rows m rs i0 (suf : list entries) st :
  holds m rs → (∀ j r, suf !! j = Some r → rs !! (i0 + j) = Some r) →
  foldlM (λ st i, foldlM (scatter_entry m i) st (row_range m i)) st
         (seq i0 (length suf)) =
  foldlM scatter_step st (triples_from i0 suf).
Proof.
  intros Hm. revert i0 st. induction suf as [|r suf IH]; intros i0 st Hsuf; [done|].
  cbn [length seq foldlM triples_from]. rewrite foldlM_app, foldlM_fmap.
  assert (Hr : rs !! i0 = Some r).
  { rewrite <- (Nat.add_0_r i0). by apply Hsuf. }
  rewrite (foldlM_row m rs i0 r _ (λ st e, scatter_step st (i0, e.1, e.2)) st Hm Hr).
  2:{ intros s j e Hc Hv. unfold scatter_entry, scatter_step, read.
      rewrite Hc. cbn. destruct (rowPtr s !! e.1); cbn; [|done]. by rewrite Hv. }
  destruct (foldlM _ st r) as [st1| |]; cbn; [|done..].
  apply IH. intros j r' Hj. replace (S i0 + j) with (i0 + S j) by lia. by apply Hsuf.
Qed.

Lemma in_col_snoc c P t :
  in_col c (P ++ [t]) = if decide (t_col t = c) then in_col c P ++ [t] else in_col c P.
Proof.
  unfold in_col. rewrite filter_app, filter_cons, filter_nil.
  destruct (decide (t_col t = c)); [done|]. by rewrite app_nil_r.
Qed.

(** An entry of column [c] comes after fewer entries of that column than
    there are in all. *)
Lemma rank_lt P k t :
  P !! k = Some t → length (in_col (t_col t) (take k P)) < length (in_col (t_col t) P).
Proof.
  intros Hk. rewrite <- (take_drop_middle P k t Hk) at 2.
  unfold in_col. rewrite filter_app, filter_cons, decide_True by done.
  rewrite length_app. cbn. lia.
Qed.

Lemma in_col_prefix c P Q : length (in_col c P) ≤ length (in_col c (P ++ Q)).
Proof. unfold in_col. rewrite filter_app, length_app. lia. Qed.

Section scatter.
Context (E : list (nat * nat * Z)) (n : nat).
Context (HE : Forall (λ t, t_col t < n) E).

Lemma slot_range P Q k t :
  E = P ++ Q → P !! k = Some t →
  start E (t_col t) ≤ slot E P k t < start E (S (t_col t)).
Proof using Type.
  intros HPQ Hk. unfold slot. rewrite start_S. split; [lia|].
  pose proof (rank_lt P k t Hk). pose proof (in_col_prefix (t_col t) P Q).
  rewrite <- HPQ in *. lia.
Qed.

Lemma scatter_step_scattered P t Q st :
  E = P ++ t :: Q → scattered E n P st →
  ∃ st', scatter_step st t = Ok st' ∧ scattered E n (P ++ [t]) st'.
Proof using HE.
  intros HPQ (Hlen & Hptr & Hent & HlV & HlC).
  assert (Hc : t_col t < n).
  { rewrite Forall_forall in HE. apply HE. rewrite HPQ.
    apply elem_of_app. right. left. }
  set (c := t_col t) in *. set (pos := start E c + length (in_col c P)).
  assert (Hpos : pos < start E (S c)).
  { unfold pos. rewrite start_S. apply Nat.add_lt_mono_l.
    rewrite HPQ. unfold in_col. rewrite !filter_app, filter_cons, decide_True by done.
    rewrite !length_app. cbn. lia. }
  assert (HposE : pos < length E).
  { rewrite <- (start_all E n HE). pose proof (start_mono E (S c) n). lia. }
  unfold scatter_step. fold c. unfold read. rewrite (Hptr c Hc). cbn. fold pos.
  eexists. split; [reflexivity|].
  assert (Hother : ∀ k tk, P !! k = Some tk → slot E P k tk ≠ pos).
  { intros k tk Hk.
    pose proof (slot_range P (t :: Q) k tk HPQ Hk) as [Hlo Hhi].
    destruct (decide (t_col tk = c)) as [Heq|Hne].
    - unfold slot, pos. rewrite Heq. pose proof (rank_lt P k tk Hk) as Hr.
      rewrite Heq in Hr. lia.
    - destruct (decide (t_col tk < c)).
      + pose proof (start_mono E (S (t_col tk)) c). unfold pos. lia.
      + pose proof (start_mono E (S c) (t_col tk)). lia. }
  split; [|split; [|split; [|split]]]; cbn.
  - by rewrite length_insert.
  - intros c' Hc'. rewrite in_col_snoc. fold c.
    destruct (decide (c = c')) as [<-|Hne].
    + rewrite list_lookup_insert_eq by lia. rewrite length_app. cbn.
      unfold pos. f_equal. lia.
    + rewrite list_lookup_insert_ne by done. by apply Hptr.
  - intros k tk Hk. destruct (decide (k < length P)) as [Hlt|Hge].
    + rewrite lookup_app_l in Hk by done.
      assert (Hslot : slot E (P ++ [t]) k tk = slot E P k tk).
      { unfold slot. by rewrite take_app_le by lia. }
      rewrite Hslot. destruct (Hent k tk Hk) as [HV HC].
      split; apply lookup_js_write_ne; try done; by apply Hother.
    + assert (k = length P) as ->.
      { apply lookup_lt_Some in Hk. rewrite length_app in Hk. cbn in Hk. lia. }
      rewrite lookup_app_r, Nat.sub_diag in Hk by lia. injection Hk as <-.
      assert (Hslot : slot E (P ++ [t]) (length P) t = pos).
      { unfold slot. by rewrite take_app_length. }
      rewrite Hslot. split; apply lookup_js_write_eq.
  - rewrite length_js_write. lia.
  - rewrite length_js_write. lia.
Qed.

Lemma scatter_scattered Q P st :
  E = P ++ Q → scattered E n P st →
  ∃ st', foldlM scatter_step st Q = Ok st' ∧ scattered E n E st'.
Proof using HE.
  revert P st. induction Q as [|t Q IH]; intros P st HPQ Hst.
  - rewrite app_nil_r in HPQ. subst P. by exists st.
  - destruct (scatter_step_scattered P t Q st HPQ Hst) as (st1 & Hst1 & Hinv).
    cbn [foldlM]. rewrite Hst1. cbn.
    apply (IH (P ++ [t])); [|done]. by rewrite <- app_assoc.
Qed.
End scatter.

(** ** The transposed store *)

Lemma lookup_transposed_rows rs n c :
  c < n →
  transposed_rows rs n !! c =
  Some ((λ t, (t_row t, t_val t)) <$> in_col c (triples_from 0 rs)).
Proof.
  intros Hc. unfold transposed_rows. rewrite list_lookup_fmap.
  replace (seq 0 n !! c) with (Some c); [done|]. symmetry. apply lookup_seq. lia.
Qed.

Lemma offset_transposed_rows rs n k :
  k ≤ n → offset (transposed_rows rs n) k = start (triples_from 0 rs) k.
Proof.
  induction k as [|k IH]; intros Hk; [by rewrite start_0|].
  rewrite (offset_S _ _ _ (lookup_transposed_rows rs n k Hk)), IH by lia.
  by rewrite start_S, length_fmap.
Qed.

Lemma filter_lookup_inv {A} (P : A → Prop) `{∀ x, Decision (P x)} (l : list A) j x :
  filter P l !! j = Some x →
  ∃ k, l !! k = Some x ∧ length (filter P (take k l)) = j.
Proof.
  revert j. induction l as [|y l IH]; intros j; [done|].
  rewrite filter_cons. destruct (decide (P y)) as [Hy|Hy].
  - destruct j as [|j].
    + intros [= ->]. by exists 0.
    + intros Hj. destruct (IH j Hj) as (k & Hk & Hlen). exists (S k).
      split; [done|]. cbn [take]. rewrite filter_cons, decide_True by done.
      cbn. by rewrite Hlen.
  - intros Hj. destruct (IH j Hj) as (k & Hk & Hlen). exists (S k).
    split; [done|]. cbn [take]. by rewrite filter_cons, decide_False by done.
Qed.

(** Once every entry is scattered, the two arrays hold the rows of the
    transpose, without a hole. *)
Lemma scattered_arrays rs n st :
  Forall (λ t, t_col t < n) (triples_from 0 rs) →
  scattered (triples_from 0 rs) n (triples_from 0 rs) st →
  T_V st = Some <$> (concat (transposed_rows rs n)).*2 ∧
  T_COL_INDEX st = Some <$> (concat (transposed_rows rs n)).*1.
Proof.
  intros HE (_ & _ & Hent & HlV & HlC).
  set (E := triples_from 0 rs) in *.
  assert (Hlen : length (concat (transposed_rows rs n)) = length E).
  { rewrite <- (offset_ge (transposed_rows rs n) n)
      by (unfold transposed_rows; rewrite length_fmap, length_seq; lia).
    rewrite offset_transposed_rows by lia. by apply start_all. }
  assert (Hslot : ∀ p e, concat (transposed_rows rs n) !! p = Some e →
            T_V st !! p = Some (Some e.2) ∧ T_COL_INDEX st !! p = Some (Some e.1)).
  { intros p e Hp.
    apply lookup_concat_inv in Hp as (c & r & j & Hc & Hj & ->).
    assert (Hcn : c < n).
    { apply lookup_lt_Some in Hc. unfold transposed_rows in Hc.
      by rewrite length_fmap, length_seq in Hc. }
    rewrite lookup_transposed_rows in Hc by done. injection Hc as <-.
    rewrite list_lookup_fmap in Hj. fold E in Hj.
    destruct (in_col c E !! j) as [t|] eqn:Ht; [|done]. injection Hj as <-.
    assert (Htc : t_col t = c).
    { apply list_elem_of_lookup_2 in Ht. unfold in_col in Ht.
      by apply list_elem_of_filter in Ht as [? _]. }
    apply filter_lookup_inv in Ht as (k & Hk & Hrank).
    destruct (Hent k t Hk) as [HV HC]. unfold slot in HV, HC.
    rewrite Htc in HV, HC. fold (in_col c (take k E)) in Hrank.
    rewrite Hrank in HV, HC. rewrite offset_transposed_rows by lia. done. }
  split; apply list_eq; intros p; rewrite !list_lookup_fmap.
  - destruct (concat (transposed_rows rs n) !! p) as [e|] eqn:Hp.
    + by destruct (Hslot p e Hp) as [-> _].
    + apply lookup_ge_None in Hp. cbn. apply lookup_ge_None. lia.
  - destruct (concat (transposed_rows rs n) !! p) as [e|] eqn:Hp.
    + by destruct (Hslot p e Hp) as [_ ->].
    + apply lookup_ge_None in Hp. cbn. apply lookup_ge_None. lia.
Qed.

Lemma transpose_holds m rs :
  holds m rs → length rs = Z.to_nat (rows m) → (0 ≤ cols m)%Z →
  Forall (λ c, c < Z.to_nat (cols m)) (COL_INDEX m) →
  ∃ T, transpose m = Ok T ∧ rows T = cols m ∧ cols T = rows m ∧
       holds T (transposed_rows rs (Z.to_nat (cols m))).
Proof.
  intros Hm Hrows Hcols Hbound.
  set (n := Z.to_nat (cols m)) in *. set (E := triples_from 0 rs).
  assert (HC : COL_INDEX m = t_col <$> E).
  { unfold E. by rewrite triples_cols, (holds_COL_INDEX _ _ Hm). }
  assert (HV : length (V m) = length E).
  { unfold E. by rewrite length_triples, (holds_V _ _ Hm), length_fmap. }
  assert (HE : Forall (λ t, t_col t < n) E).
  { rewrite HC in Hbound. by apply Forall_fmap in Hbound. }
  destruct (transpose_offsets m E n HC HV HE eq_refl Hcols) as (T & HT & HlenT & Hstart).
  unfold transpose. rewrite decide_False by lia.
  destruct (count_columns m (replicate (Z.to_nat (cols m + 1)) 0)) as [t0| |];
    cbn in HT |- *; [|done..].
  rewrite HT. cbn. unfold scatter, upto. rewrite <- Hrows.
  rewrite (scatter_rows m rs 0 rs _ Hm) by done. fold E.
  destruct (scatter_scattered E n HE E [] {| rowPtr := T; T_V := []; T_COL_INDEX := [] |})
    as (st & -> & Hst); [done| |].
  { split; [done|]. split; [|split; [done|cbn; lia]].
    intros c Hc. cbn. rewrite Hstart by lia. f_equal. lia. }
  cbn [mbind result_bind].
  destruct (scattered_arrays rs n st HE Hst) as [-> ->].
  rewrite !no_holes_Some. cbn [mbind result_bind].
  eexists. split; [reflexivity|]. split; [done|]. split; [done|].
  unfold holds, arrays_of, layout. cbn [V COL_INDEX ROW_INDEX]. f_equal.
  apply list_eq. intros k. rewrite list_lookup_fmap.
  assert (Hlen : length (transposed_rows rs n) = n).
  { unfold transposed_rows. by rewrite length_fmap, length_seq. }
  rewrite Hlen. destruct (decide (k ≤ n)) as [Hk|Hk].
  - replace (seq 0 (S n) !! k) with (Some k) by (symmetry; apply lookup_seq; lia).
    cbn. by rewrite Hstart, offset_transposed_rows.
  - rewrite (lookup_ge_None_2 (seq 0 (S n))) by (rewrite length_seq; lia).
    apply lookup_ge_None. lia.
Qed.

(** ** Cells of the transpose *)

Lemma find_entry_app E1 E2 i c :
  find_entry (E1 ++ E2) i c =
  match find_entry E1 i c with Some v => Some v | None => find_entry E2 i c end.
Proof.
  induction E1 as [|t E1 IH]; [done|]. cbn.
  by destruct (decide (t_row t = i ∧ t_col t = c)).
Qed.

Lemma find_entry_row i0 (r : entries) i c :
  find_entry ((λ e, (i0, e.1, e.2)) <$> r) i c =
  if decide (i0 = i) then acc_get r c else None.
Proof.
  induction r as [|[c' v] r IH]; [by destruct (decide (i0 = i))|].
  cbn. rewrite IH. unfold t_row, t_col. cbn.
  destruct (decide (i0 = i)) as [->|Hne].
  - destruct (decide (c' = c)) as [->|Hc].
    + by rewrite decide_True.
    + by rewrite decide_False by (intros [_ ?]; done).
  - by rewrite decide_False by (intros [? _]; done).
Qed.

Lemma find_entry_triples i0 rs i c :
  find_entry (triples_from i0 rs) i c =
  if decide (i0 ≤ i) then r ← rs !! (i - i0); acc_get r c else None.
Proof.
  revert i0. induction rs as [|r rs IH]; intros i0.
  - cbn. by destruct (decide (i0 ≤ i)).
  - cbn [triples_from]. rewrite find_entry_app, find_entry_row, IH.
    destruct (decide (i0 = i)) as [->|Hne].
    + rewrite (decide_True (P := i ≤ i)), Nat.sub_diag by lia. cbn.
      destruct (acc_get r c); [done|]. by rewrite decide_False by lia.
    + destruct (decide (i0 ≤ i)).
      * rewrite (decide_True (P := S i0 ≤ i)) by lia.
        replace (i - i0) with (S (i - S i0)) by lia. done.
      * by rewrite decide_False by lia.
Qed.

Lemma acc_get_in_col E i c :
  acc_get ((λ t, (t_row t, t_val t)) <$> in_col c E) i = find_entry E i c.
Proof.
  unfold in_col. induction E as [|t E IH]; [done|].
  rewrite filter_cons. cbn [find_entry].
  destruct (decide (t_col t = c)) as [Hc|Hc].
  - rewrite fmap_cons. cbn [acc_get]. rewrite IH.
    destruct (decide (t_row t = i)).
    + by rewrite decide_True.
    + by rewrite decide_False by (intros [? _]; done).
  - rewrite IH. by rewrite decide_False by (intros [_ ?]; done).
Qed.

(** Cell [(c, i)] of the transpose is cell [(i, c)] of the store. *)
Lemma cell_transposed_rows rs n c i :
  c < n → cell (transposed_rows rs n) c i = cell rs i c.
Proof.
  intros Hc. unfold cell. rewrite lookup_transposed_rows by done. cbn.
  rewrite acc_get_in_col, find_entry_triples, decide_True, Nat.sub_0_r by lia.
  done.
Qed.

Lemma transposed_rows_bound rs n c :
  c ∈ (concat (transposed_rows rs n)).*1 → c < length rs.
Proof.
  intros (k & r & Hk & Hc)%elem_of_concat_keys.
  assert (Hkn : k < n).
  { apply lookup_lt_Some in Hk. unfold transposed_rows in Hk.
    by rewrite length_fmap, length_seq in Hk. }
  rewrite lookup_transposed_rows in Hk by done. injection Hk as <-.
  rewrite <- list_fmap_compose in Hc.
  apply list_elem_of_fmap in Hc as (t & -> & Ht).
  unfold in_col in Ht. apply list_elem_of_filter in Ht as [_ Ht].
  apply triples_rows in Ht. cbn. unfold t_row in *. lia.
Qed.

Lemma toArray_ext m1 m2 :
  rows m1 = rows m2 → cols m1 = cols m2 →
  (∀ i j, (Z.of_nat i < rows m1)%Z → (Z.of_nat j < cols m1)%Z →
          get m1 i j = get m2 i j) →
  toArray m1 = toArray m2.
Proof.
  intros Hr Hc Hget. unfold toArray. rewrite <- Hr, <- Hc.
  apply foldlM_ext_in. intros arr i Hi. apply foldlM_ext_in. intros arr' j Hj.
  unfold upto in Hi, Hj. apply elem_of_seq in Hi, Hj.
  rewrite Hget by lia. done.
Qed.

(** C6.  Transposing twice gives back a store of the shape of [A] whose
    every cell reads as in [A], and so the same [toArray()].  The layout of
    the data model and the monotone offsets are all that is needed of [A]. *)
Theorem transpose_transpose (A : Matrix) :
  structured A →
  ∃ T TT, transpose A = Ok T ∧ transpose T = Ok TT ∧
          rows TT = rows A ∧ cols TT = cols A ∧
          (∀ i j, (Z.of_nat i < rows A)%Z → (Z.of_nat j < cols A)%Z →
                  get TT i j = get A i j) ∧
          toArray TT = toArray A.
Proof.
  intros [(Hlen & HR & Hlast & Hbound & Hrows & Hcols) Hmono].
  pose proof (holds_rows_of A Hlen Hmono Hlast) as HA.
  set (rs := rows_of A) in *.
  assert (Hn : length rs = Z.to_nat (rows A)).
  { pose proof (holds_length_ROW_INDEX _ _ HA). lia. }
  destruct (transpose_holds A rs HA Hn Hcols) as (T & HT & HTr & HTc & HTh).
  { eapply Forall_impl; [exact Hbound|]. intros c Hc. cbn in Hc. lia. }
  set (n := Z.to_nat (cols A)) in *.
  destruct (transpose_holds T (transposed_rows rs n) HTh) as (TT & HTT & HTTr & HTTc & HTTh).
  { unfold transposed_rows. rewrite length_fmap, length_seq, HTr. done. }
  { by rewrite HTc. }
  { rewrite (holds_COL_INDEX _ _ HTh). apply Forall_forall. intros c Hc.
    apply transposed_rows_bound in Hc. rewrite HTc. lia. }
  exists T, TT. split; [done|]. split; [done|].
  assert (Hget : ∀ i j, (Z.of_nat i < rows A)%Z → (Z.of_nat j < cols A)%Z →
                        get TT i j = get A i j).
  { intros i j Hi Hj.
    rewrite (get_holds TT _ i j HTTh).
    2:{ unfold transposed_rows. rewrite length_fmap, length_seq, HTc. lia. }
    rewrite (get_holds A rs i j HA) by lia. f_equal.
    rewrite cell_transposed_rows by (rewrite HTc; lia).
    apply cell_transposed_rows. unfold n. lia. }
  split; [congruence|]. split; [congruence|]. split; [done|].
  apply toArray_ext; [congruence | congruence |].
  intros i j Hi Hj. apply Hget; congruence.
Qed.

Example transpose_4x6 : (t ← transpose m_4x6; get t 3 1) = Ok 40%Z.
Proof. vm_compute. reflexivity. Qed.

Lemma transpose_transpose_witness :
  ∃ T TT, transpose m_4x6 = Ok T ∧ transpose T = Ok TT ∧ toArray TT = toArray m_4x6.
Proof.
  assert (HA : structured m_4x6) by by_evaluation.
  destruct (transpose_transpose m_4x6 HA) as (T & TT & HT & HTT & _ & _ & _ & Harr).
  exists T, TT. split; [exact HT|]. split; [exact HTT | exact Harr].
Defined.

(** ** [set] on the rows that a store holds *)

Lemma splice_remove_fmap {A B} (f : A → B) (l : list A) i :
  f <$> splice_remove l i = splice_remove (f <$> l) i.
Proof. unfold splice_remove. by rewrite fmap_app, fmap_take, fmap_drop. Qed.

Lemma splice_remove_middle {A} (l1 l2 r : list A) i :
  i < length r →
  splice_remove (l1 ++ r ++ l2) (length l1 + i) = l1 ++ delete i r ++ l2.
Proof.
  intros Hi. unfold splice_remove. rewrite delete_take_drop.
  rewrite take_app_ge, drop_app_ge by lia.
  replace (length l1 + i - length l1) with i by lia.
  replace (S (length l1 + i) - length l1) with (S i) by lia.
  rewrite take_app_le, drop_app_le by lia.
  by rewrite <- !app_assoc.
Qed.

Lemma insert_middle {A} (l1 l2 r : list A) i x :
  i < length r →
  <[length l1 + i := x]> (l1 ++ r ++ l2) = l1 ++ <[i := x]> r ++ l2.
Proof.
  intros Hi. rewrite insert_app_r. f_equal. by rewrite insert_app_l.
Qed.

Lemma offset_at (A B : list entries) (r : entries) :
  offset (A ++ r :: B) (length A) = length (concat A).
Proof. unfold offset. by rewrite take_app_length. Qed.

Lemma offsets_same_length (A B : list entries) (r r' : entries) :
  length r' = length r →
  offset (A ++ r' :: B) <$> seq 0 (S (length (A ++ r' :: B))) =
  offset (A ++ r :: B) <$> seq 0 (S (length (A ++ r :: B))).
Proof.
  intros Hlen. rewrite !length_app. cbn [length].
  apply list_fmap_ext. intros i k _.
  pose proof (offset_middle A B r r' k) as H. rewrite Hlen in H. lia.
Qed.

(** [set] in terms of the rows the store holds. *)
Lemma set_holds m (A B : list entries) (r : entries) col value :
  holds m (A ++ r :: B) →
  ∃ m', set m (length A) col value = Ok m' ∧
        rows m' = rows m ∧ cols m' = cols m ∧
        holds m' (A ++ put col value r :: B).
Proof.
  intros Hm.
  assert (Hr : (A ++ r :: B) !! length A = Some r) by apply list_lookup_middle, eq_refl.
  unfold put.
  pose proof (indexOf_acc_get r col) as Hi.
  destruct (indexOf col r.*1) as [i|] eqn:Hidx.
  2:{ destruct (decide (value ≠ 0%Z)) as [Hnz|Hz].
      - apply set_appends; [done| by apply indexOf_None |done].
      - exists m. split; [|done]. unfold set.
        rewrite (holds_columns _ _ Hm _ _ Hr), Hidx. by rewrite decide_False. }
  destruct Hi as (v & Hri & _).
  pose proof (lookup_lt_Some _ _ _ Hri) as Hlt.
  unfold set. rewrite (holds_columns _ _ Hm _ _ Hr), Hidx.
  destruct (holds_bounds _ _ Hm _ _ Hr) as [Hs He]. rewrite Hs.
  assert (Hcat : concat (A ++ r :: B) = concat A ++ r ++ concat B).
  { by rewrite concat_app. }
  destruct (decide (value = 0%Z)) as [Hz|Hnz].
  - (* removal *)
    unfold drop_offsets. rewrite decide_True.
    2:{ rewrite (holds_ROW_INDEX _ _ Hm). apply Forall_forall. intros x Hx.
        apply list_elem_of_lookup in Hx as [j Hj].
        rewrite lookup_drop, list_lookup_fmap in Hj.
        destruct (seq 0 (S (length (A ++ r :: B))) !! (length A + 1 + j)) as [k|] eqn:Hk;
          [|done].
        apply lookup_seq in Hk as [-> _]. injection Hj as <-.
        pose proof (offset_mono (A ++ r :: B) (S (length A)) (length A + 1 + j)
                      ltac:(lia)) as Hmono.
        rewrite (offset_S _ _ _ Hr) in Hmono. lia. }
    cbn. eexists. split; [reflexivity|]. split; [done|]. split; [done|].
    unfold holds, arrays_of, layout. cbn [V COL_INDEX ROW_INDEX].
    rewrite offset_at.
    assert (Hcat' : splice_remove (concat (A ++ r :: B)) (length (concat A) + i) =
                    concat (A ++ delete i r :: B)).
    { rewrite Hcat, splice_remove_middle by done. by rewrite concat_app. }
    f_equal.
    + rewrite (holds_V _ _ Hm). by rewrite <- Hcat', splice_remove_fmap.
    + rewrite (holds_COL_INDEX _ _ Hm). by rewrite <- Hcat', splice_remove_fmap.
    + rewrite (holds_ROW_INDEX _ _ Hm).
      apply list_eq. intros k. rewrite list_lookup_imap, !list_lookup_fmap.
      rewrite !length_app. cbn [length].
      destruct (seq 0 (S (length A + S (length B))) !! k) as [k'|] eqn:Hk; [|done].
      apply lookup_seq in Hk as [-> _]. cbn. f_equal.
      pose proof (offset_middle A B r (delete i r) k) as Hoff.
      rewrite length_delete in Hoff by (by rewrite Hri).
      unfold offset in Hoff |- *.
      destruct (decide (length A + 1 ≤ k)), (decide (length A < k)); lia.
  - (* overwrite *)
    rewrite offset_at.
    rewrite decide_True.
    2:{ rewrite (holds_V _ _ Hm), length_fmap, Hcat, !length_app. lia. }
    eexists. split; [reflexivity|]. split; [done|]. split; [done|].
    unfold holds, arrays_of, layout. cbn [V COL_INDEX ROW_INDEX].
    assert (Hcat' : <[length (concat A) + i := (col, value)]> (concat (A ++ r :: B)) =
                    concat (A ++ <[i := (col, value)]> r :: B)).
    { rewrite Hcat, insert_middle by done. by rewrite concat_app. }
    f_equal.
    + rewrite (holds_V _ _ Hm). by rewrite <- Hcat', list_fmap_insert.
    + rewrite (holds_COL_INDEX _ _ Hm). rewrite <- Hcat', list_fmap_insert. cbn [fst].
      symmetry. apply list_insert_id. rewrite list_lookup_fmap, Hcat.
      rewrite lookup_app_r by lia.
      replace (length (concat A) + i - length (concat A)) with i by lia.
      rewrite lookup_app_l by done. by rewrite Hri.
    + rewrite (holds_ROW_INDEX _ _ Hm). symmetry. apply offsets_same_length.
      by rewrite length_insert.
Qed.

Lemma put_cons col value c v (r : entries) :
  put col value ((c, v) :: r) =
  if decide (c = col) then (if decide (value = 0%Z) then r else (col, value) :: r)
  else (c, v) :: put col value r.
Proof.
  unfold put. rewrite fmap_cons. cbn [indexOf fst].
  destruct (decide (c = col)) as [->|Hne]; [done|].
  destruct (indexOf col r.*1) as [i|]; cbn.
  - by destruct (decide (value = 0%Z)).
  - by destruct (decide (value ≠ 0%Z)).
Qed.

Lemma put_nil col value :
  put col value [] = if decide (value ≠ 0%Z) then [(col, value)] else [].
Proof. reflexivity. Qed.

Lemma acc_get_put_other col value (r : entries) c :
  c ≠ col → acc_get (put col value r) c = acc_get r c.
Proof.
  intros Hne. induction r as [|[c' v'] r IH].
  - rewrite put_nil. destruct (decide (value ≠ 0%Z)); [|done].
    cbn. by rewrite decide_False.
  - rewrite put_cons. destruct (decide (c' = col)) as [->|Hc'].
    + destruct (decide (value = 0%Z)); cbn; by rewrite !decide_False by done.
    + cbn. by rewrite IH.
Qed.

Lemma acc_get_put_same col value (r : entries) :
  (value = 0%Z → NoDup r.*1) →
  acc_get (put col value r) col = if decide (value = 0%Z) then None else Some value.
Proof.
  induction r as [|[c' v'] r IH]; intros Hnd.
  - rewrite put_nil. destruct (decide (value = 0%Z)) as [Hz|Hnz].
    + by rewrite decide_False by (intros ?; done).
    + rewrite decide_True by done. cbn. by rewrite decide_True.
  - rewrite put_cons. destruct (decide (c' = col)) as [->|Hc'].
    + destruct (decide (value = 0%Z)) as [Hz|Hnz].
      * specialize (Hnd Hz). rewrite fmap_cons in Hnd. apply NoDup_cons in Hnd as [Hnot _].
        by apply acc_get_None.
      * cbn. by rewrite decide_True.
    + cbn. rewrite decide_False by done. apply IH.
      intros Hz. specialize (Hnd Hz). rewrite fmap_cons in Hnd.
      by apply NoDup_cons in Hnd as [_ ?].
Qed.

Lemma put_keys col value (r : entries) c :
  c ∈ (put col value r).*1 → c ∈ r.*1 ∨ (c = col ∧ value ≠ 0%Z).
Proof.
  induction r as [|[c' v'] r IH].
  - rewrite put_nil. destruct (decide (value ≠ 0%Z)); cbn; [|by left].
    intros ->%list_elem_of_singleton. by right.
  - rewrite put_cons. destruct (decide (c' = col)) as [->|Hc'].
    + destruct (decide (value = 0%Z)).
      * intros ?. left. rewrite fmap_cons. by right.
      * rewrite !fmap_cons. cbn. by left.
    + rewrite !fmap_cons. cbn. intros [->|Hin]%elem_of_cons.
      * left. by left.
      * destruct (IH Hin) as [?|?]; [left; by right | by right].
Qed.

Lemma put_values col value (r : entries) :
  Forall (λ e, e.2 ≠ 0%Z) r → Forall (λ e, e.2 ≠ 0%Z) (put col value r).
Proof.
  induction r as [|[c' v'] r IH]; intros Hr.
  - rewrite put_nil. destruct (decide (value ≠ 0%Z)); [|done]. by constructor.
  - apply Forall_cons in Hr as [Hv Hr]. rewrite put_cons.
    destruct (decide (c' = col)) as [->|Hc'].
    + destruct (decide (value = 0%Z)); [done|]. by constructor.
    + constructor; [done|]. by apply IH.
Qed.

(** The columns stay increasing when the column is already stored, or is
    larger than every column of the row, or nothing is stored. *)
Lemma put_sorted col value (r : entries) :
  Sorted lt r.*1 →
  col ∈ r.*1 ∨ Forall (λ c, c < col) r.*1 ∨ value = 0%Z →
  Sorted lt (put col value r).*1.
Proof.
  intros Hs%(Sorted_StronglySorted _) Hcase.
  apply StronglySorted_Sorted.
  induction r as [|[c' v'] r IH].
  - rewrite put_nil. destruct (decide (value ≠ 0%Z)); cbn; repeat constructor.
  - rewrite fmap_cons in Hs. apply StronglySorted_inv in Hs as [Hs Hall].
    rewrite put_cons. destruct (decide (c' = col)) as [->|Hc'].
    + destruct (decide (value = 0%Z)); [done|]. rewrite fmap_cons. by constructor.
    + rewrite fmap_cons. cbn [fst]. constructor.
      * apply IH; [done|]. rewrite fmap_cons in Hcase. cbn [fst] in Hcase.
        destruct Hcase as [Hin|[Hall'|Hz]].
        -- left. apply elem_of_cons in Hin as [?|?]; [congruence|done].
        -- right. left. by apply Forall_cons in Hall' as [_ ?].
        -- by right; right.
      * apply Forall_forall. intros c Hc. apply put_keys in Hc as [Hc|[-> Hvnz]].
        -- by eapply Forall_forall in Hall.
        -- rewrite fmap_cons in Hcase. cbn [fst] in Hcase.
           destruct Hcase as [Hin|[Hall'|Hz]]; [| |done].
           ++ apply elem_of_cons in Hin as [?|Hin]; [congruence|].
              by eapply Forall_forall in Hall.
           ++ by apply Forall_cons in Hall' as [? _].
Qed.

(** ** Stores and the rows they hold *)

Lemma holds_length m rs : holds m rs → well_shaped m → length rs = Z.to_nat (rows m).
Proof.
  intros Hm (_ & Hlen & _). rewrite (holds_length_ROW_INDEX _ _ Hm) in Hlen. lia.
Qed.

Lemma holds_well_shaped m rs :
  holds m rs → length rs = Z.to_nat (rows m) → (0 ≤ rows m)%Z → (0 ≤ cols m)%Z →
  Forall (λ c, (Z.of_nat c < cols m)%Z) (concat rs).*1 →
  well_shaped m.
Proof.
  intros Hm Hlen Hr Hc Hcols. repeat split; try done.
  - by eapply holds_aligned.
  - rewrite (holds_length_ROW_INDEX _ _ Hm). lia.
  - by eapply holds_last_offset.
  - by rewrite (holds_COL_INDEX _ _ Hm).
Qed.

Lemma holds_structured m rs :
  holds m rs → length rs = Z.to_nat (rows m) → (0 ≤ rows m)%Z → (0 ≤ cols m)%Z →
  Forall (λ c, (Z.of_nat c < cols m)%Z) (concat rs).*1 →
  structured m.
Proof.
  intros Hm ????. split; [by eapply holds_well_shaped | by eapply holds_monotone_offsets].
Qed.

(** The row [row] of a store with the layout of the data model. *)
Lemma structured_row m row :
  structured m → (Z.of_nat row < rows m)%Z →
  ∃ A r B, holds m (A ++ r :: B) ∧ length A = row ∧
           length (A ++ r :: B) = Z.to_nat (rows m) ∧ columns m row = r.*1.
Proof.
  intros Hs Hrow. pose proof (structured_holds m Hs) as Hm.
  pose proof (holds_length _ _ Hm (proj1 Hs)) as Hlen.
  destruct (lookup_lt_is_Some_2 (rows_of m) row) as [r Hr]; [lia|].
  exists (take row (rows_of m)), r, (drop (S row) (rows_of m)).
  rewrite (take_drop_middle _ _ _ Hr).
  split; [done|]. split; [rewrite length_take; lia|]. split; [done|].
  by eapply holds_columns.
Qed.

Lemma sorted_columns_rows m rs :
  holds m rs → sorted_columns m → Forall (λ r : entries, Sorted lt r.*1) rs.
Proof.
  intros Hm Hs. apply Forall_lookup. intros k r Hk.
  rewrite <- (holds_columns _ _ Hm _ _ Hk).
  unfold sorted_columns in Hs. rewrite (holds_length_ROW_INDEX _ _ Hm) in Hs.
  eapply Forall_forall in Hs; [exact Hs|].
  apply elem_of_seq. apply lookup_lt_Some in Hk. lia.
Qed.

Lemma no_stored_zero_rows m rs :
  holds m rs → no_stored_zero m → Forall (λ r : entries, Forall (λ e, e.2 ≠ 0%Z) r) rs.
Proof.
  intros Hm Hz. unfold no_stored_zero in Hz. rewrite (holds_V _ _ Hm) in Hz.
  apply Forall_concat, Forall_forall. intros e He.
  eapply Forall_forall in Hz; [exact Hz|]. apply list_elem_of_fmap. by exists e.
Qed.

(** ** [set] followed by [get] *)

(** X1.  After [set(row, col, value)] the cell reads [value], on every store with
    the layout of the data model and for every row of the matrix.  A zero
    removes the first stored entry of the column only, so for [value = 0] the
    row must not store the column twice. *)
Theorem set_get_same (m : Matrix) (row col : nat) (value : Z) :
  structured m → (Z.of_nat row < rows m)%Z →
  (value = 0%Z → NoDup (columns m row)) →
  ∃ m', set m row col value = Ok m' ∧ get m' row col = Ok value.
Proof.
  intros Hs Hrow Hnd.
  destruct (structured_row m row Hs Hrow) as (A & r & B & Hm & <- & Hlen & Hcols).
  destruct (set_holds m A B r col value Hm) as (m' & Hset & _ & _ & Hm').
  exists m'. split; [done|].
  rewrite (get_holds _ _ _ _ Hm') by (rewrite length_app; simpl; lia).
  unfold cell. rewrite list_lookup_middle by done. cbn.
  rewrite acc_get_put_same by (by rewrite <- Hcols).
  by destruct (decide (value = 0%Z)) as [->|].
Qed.

Lemma set_get_same_witness :
  ∃ m', set m_1234 1 0 7%Z = Ok m' ∧ get m' 1 0 = Ok 7%Z.
Proof.
  apply (set_get_same m_1234 1 0 7%Z); [by_evaluation | reflexivity | intros; discriminate].
Defined.

(** X2.  [set(row, col, value)] leaves every other cell of the grid as it read
    before the call. *)
Theorem set_get_other (m : Matrix) (row col row' col' : nat) (value : Z) :
  structured m → (Z.of_nat row < rows m)%Z → (Z.of_nat row' < rows m)%Z →
  row' ≠ row ∨ col' ≠ col →
  ∃ m', set m row col value = Ok m' ∧ get m' row' col' = get m row' col'.
Proof.
  intros Hs Hrow Hrow' Hne.
  destruct (structured_row m row Hs Hrow) as (A & r & B & Hm & <- & Hlen & Hcols).
  destruct (set_holds m A B r col value Hm) as (m' & Hset & _ & _ & Hm').
  exists m'. split; [done|].
  rewrite (get_holds _ _ _ _ Hm') by (rewrite length_app in *; simpl in *; lia).
  rewrite (get_holds _ _ _ _ Hm) by lia.
  unfold cell. destruct (decide (row' = length A)) as [->|Hr].
  - rewrite !list_lookup_middle by done. cbn.
    rewrite acc_get_put_other; [done|]. by destruct Hne.
  - f_equal. f_equal.
    destruct (decide (row' < length A)).
    + by rewrite !lookup_app_l by done.
    + rewrite !lookup_app_r by lia.
      by replace (row' - length A) with (S (row' - S (length A))) by lia.
Qed.

Lemma set_get_other_witness :
  ∃ m', set m_1234 1 0 0%Z = Ok m' ∧ get m' 1 1 = get m_1234 1 1.
Proof.
  apply (set_get_other m_1234 1 0 1 1 0%Z);
    [by_evaluation | reflexivity | reflexivity | right; discriminate].
Defined.

(** ** The invariants that [set] keeps *)

Lemma Forall_concat_middle {A} (P : A → Prop) (X Y : list (list A)) (r r' : list A) :
  Forall P (concat (X ++ r :: Y)) → Forall P r' → Forall P (concat (X ++ r' :: Y)).
Proof.
  rewrite !concat_app. cbn [concat]. rewrite !Forall_app. tauto.
Qed.

(** X3.  [set] on a cell of the grid keeps the shape, the layout of the data
    model and the monotone offsets, and it never stores a zero. *)
Theorem set_keeps_layout (m : Matrix) (row col : nat) (value : Z) :
  structured m → (Z.of_nat row < rows m)%Z → (Z.of_nat col < cols m)%Z →
  ∃ m', set m row col value = Ok m' ∧ rows m' = rows m ∧ cols m' = cols m ∧
        structured m' ∧ (no_stored_zero m → no_stored_zero m').
Proof.
  intros Hs Hrow Hcol.
  destruct (structured_row m row Hs Hrow) as (A & r & B & Hm & <- & Hlen & Hcols).
  destruct (set_holds m A B r col value Hm) as (m' & Hset & Hr' & Hc' & Hm').
  destruct Hs as [(_ & _ & _ & Hbound & Hr0 & Hc0) _].
  exists m'. split; [done|]. split; [done|]. split; [done|]. split.
  - eapply holds_structured; [exact Hm'| | | |].
    + rewrite Hr', <- Hlen, !length_app. done.
    + by rewrite Hr'.
    + by rewrite Hc'.
    + rewrite Hc'. rewrite (holds_COL_INDEX _ _ Hm) in Hbound.
      rewrite Forall_fmap in Hbound |- *.
      eapply Forall_concat_middle; [exact Hbound|].
      apply Forall_forall. intros e He.
      assert (e.1 ∈ (put col value r).*1) as Hk by (apply list_elem_of_fmap; by exists e).
      apply put_keys in Hk as [Hk|[Hk _]].
      * apply list_elem_of_fmap in Hk as (e' & Heq & He').
        rewrite concat_app, Forall_app in Hbound. cbn [concat] in Hbound.
        destruct Hbound as [_ Hb]. rewrite Forall_app in Hb. destruct Hb as [Hb _].
        eapply Forall_forall in Hb; [|exact He']. cbn in Hb |- *. by rewrite Heq.
      * cbn. by rewrite Hk.
  - intros Hz. pose proof (no_stored_zero_rows _ _ Hm Hz) as Hrs.
    eapply holds_no_stored_zero; [exact Hm'|].
    rewrite Forall_app, Forall_cons in Hrs |- *. destruct Hrs as (HA & Hr & HB).
    split; [done|]. split; [|done]. by apply put_values.
Qed.

Lemma set_keeps_layout_witness :
  ∃ m', set m_1234 0 1 0%Z = Ok m' ∧ rows m' = 2%Z ∧ cols m' = 2%Z ∧
        structured m' ∧ (no_stored_zero m_1234 → no_stored_zero m').
Proof.
  apply (set_keeps_layout m_1234 0 1 0%Z); [by_evaluation | reflexivity | reflexivity].
Defined.

(** X4.  [set] keeps the columns of every row strictly increasing when the
    column is already stored in the row, or is larger than every column
    stored in it, or the value is 0. *)
Theorem set_keeps_order (m : Matrix) (row col : nat) (value : Z) :
  structured m → sorted_columns m → (Z.of_nat row < rows m)%Z →
  col ∈ columns m row ∨ Forall (λ c, c < col) (columns m row) ∨ value = 0%Z →
  ∃ m', set m row col value = Ok m' ∧ sorted_columns m'.
Proof.
  intros Hs Hsorted Hrow Hcase.
  destruct (structured_row m row Hs Hrow) as (A & r & B & Hm & <- & Hlen & Hcols).
  destruct (set_holds m A B r col value Hm) as (m' & Hset & Hr' & Hc' & Hm').
  exists m'. split; [done|].
  pose proof (sorted_columns_rows _ _ Hm Hsorted) as Hrs.
  eapply holds_sorted_columns; [exact Hm'|].
  rewrite Forall_app, Forall_cons in Hrs |- *. destruct Hrs as (HA & Hr & HB).
  split; [done|]. split; [|done]. apply put_sorted; [done|]. by rewrite <- Hcols.
Qed.

Lemma set_keeps_order_witness :
  ∃ m', set m_1004 0 1 5%Z = Ok m' ∧ sorted_columns m'.
Proof.
  apply (set_keeps_order m_1004 0 1 5%Z); [by_evaluation | by_evaluation | reflexivity |].
  right. left. apply (bool_decide_unpack _). vm_compute. exact I.
Defined.

(** ** [toArray] *)

Lemma toArray_row m (f : nat → Z) i l arr :
  (∀ j, j ∈ l → get m i j = Ok (f j)) →
  foldlM (λ arr col, v ← get m i col; Ok (arr ++ [v])) arr l = Ok (arr ++ (f <$> l)).
Proof.
  revert arr. induction l as [|j l IH]; intros arr Hget.
  - by rewrite app_nil_r.
  - cbn [foldlM]. rewrite Hget by left. cbn.
    rewrite IH by (intros; apply Hget; by right).
    by rewrite <- app_assoc.
Qed.

Lemma toArray_rows m (f : nat → nat → Z) l arr :
  (∀ i j, i ∈ l → j ∈ upto (cols m) → get m i j = Ok (f i j)) →
  foldlM (λ arr row,
            foldlM (λ arr col, v ← get m row col; Ok (arr ++ [v])) arr (upto (cols m)))
         arr l = Ok (arr ++ concat ((λ i, f i <$> upto (cols m)) <$> l)).
Proof.
  revert arr. induction l as [|i l IH]; intros arr Hget.
  - by rewrite app_nil_r.
  - cbn [foldlM]. rewrite (toArray_row m (f i)) by (intros; apply Hget; [left|done]).
    cbn. rewrite IH by (intros; apply Hget; [by right|done]).
    by rewrite <- app_assoc.
Qed.

Lemma toArray_cells m (f : nat → nat → Z) :
  (∀ i j, (Z.of_nat i < rows m)%Z → (Z.of_nat j < cols m)%Z → get m i j = Ok (f i j)) →
  toArray m = Ok (grid_cells f (rows m) (cols m)).
Proof.
  intros Hget. unfold toArray. rewrite (toArray_rows m f); [done|].
  intros i j Hi Hj. unfold upto in Hi, Hj. apply elem_of_seq in Hi, Hj.
  apply Hget; lia.
Qed.

Lemma grid_ext f g r c :
  (∀ i j, (Z.of_nat i < r)%Z → (Z.of_nat j < c)%Z → f i j = g i j) →
  grid f r c = grid g r c.
Proof.
  intros Hfg. unfold grid. apply list_fmap_ext. intros k i Hi.
  apply list_fmap_ext. intros k' j Hj.
  unfold upto in Hi, Hj. apply lookup_seq in Hi as [-> ?], Hj as [-> ?].
  apply Hfg; lia.
Qed.

(** ** What the constructor stores *)

Lemma kept_value data i j :
  default 0%Z (snd <$> kept data i j) = default 0%Z (numeric_cell data i j).
Proof.
  unfold kept. destruct (numeric_cell data i j) as [x|]; [|done]. cbn.
  destruct (decide (x ≠ 0%Z)) as [|Hz]; [done|]. cbn.
  destruct (decide (x = 0%Z)); [done|]. by destruct Hz.
Qed.

Lemma dense_row_keys data i a n :
  StronglySorted lt (omap (kept data i) (seq a n)).*1 ∧
  Forall (λ e, a ≤ e.1 < a + n ∧ e.2 ≠ 0%Z) (omap (kept data i) (seq a n)).
Proof.
  revert a. induction n as [|n IH]; intros a; [split; constructor|].
  destruct (IH (S a)) as [IHs IHf].
  assert (Hf : Forall (λ e : nat * Z, a ≤ e.1 < a + S n ∧ e.2 ≠ 0%Z)
                      (omap (kept data i) (seq (S a) n))).
  { eapply Forall_impl; [exact IHf|]. intros e [? ?]. split; [lia|done]. }
  cbn [seq omap list_omap].
  destruct (kept data i a) as [e|] eqn:He; [|done].
  assert (e.1 = a ∧ e.2 ≠ 0%Z) as [He1 He2].
  { unfold kept in He. destruct (numeric_cell data i a) as [x|]; [|done]. cbn in He.
    destruct (decide (x ≠ 0%Z)); [|done]. by injection He as <-. }
  split.
  - rewrite fmap_cons. constructor; [done|].
    rewrite Forall_fmap. eapply Forall_impl; [exact IHf|]. intros e' [? _]. cbn. lia.
  - constructor; [|done]. split; [lia|done].
Qed.

Lemma dense_row_clean data c i : clean_row (dense_row data c i).
Proof.
  destruct (dense_row_keys data i 0 (Z.to_nat c)) as [Hs Hf]. split.
  - by apply StronglySorted_Sorted.
  - eapply Forall_impl; [exact Hf|]. by intros e [_ ?].
Qed.

(** X5.  The constructor, given data and a shape that is not negative, builds a
    store of that shape with the layout of the data model and the three
    invariants, whatever the data holds (short rows, missing rows, cells that
    are not numbers). *)
Theorem construct_invariants (r c : Z) (data : dense) :
  (0 ≤ r)%Z → (0 ≤ c)%Z →
  ∃ m, construct r c (Some data) = Ok m ∧ rows m = r ∧ cols m = c ∧ csr_invariants m.
Proof.
  intros Hr Hc. destruct (construct_holds r c data) as (m & Hm & Hrows & Hcols & Hh).
  exists m. split; [done|]. split; [done|]. split; [done|].
  destruct (holds_clean _ _ Hh) as (Hs & Hz & Hmono & _).
  { apply Forall_fmap, Forall_forall. intros i _. apply dense_row_clean. }
  split; [|done].
  eapply holds_well_shaped; [exact Hh| | | |].
  - rewrite length_fmap, Hrows. unfold upto. by rewrite length_seq.
  - by rewrite Hrows.
  - by rewrite Hcols.
  - rewrite Forall_fmap. apply Forall_concat, Forall_fmap, Forall_forall. intros i _.
    destruct (dense_row_keys data i 0 (Z.to_nat c)) as [_ Hf].
    eapply Forall_impl; [exact Hf|]. intros e [? _]. cbn. rewrite Hcols. lia.
Qed.

Lemma construct_invariants_witness :
  ∃ m, construct 4 6 (Some example_4x6) = Ok m ∧ rows m = 4%Z ∧ cols m = 6%Z ∧
       csr_invariants m.
Proof. apply (construct_invariants 4 6 example_4x6); lia. Defined.

Lemma construct_cells (r c : Z) (data : dense) :
  ∃ m, construct r c (Some data) = Ok m ∧ rows m = r ∧ cols m = c ∧
       ∀ i j, (Z.of_nat i < r)%Z → (Z.of_nat j < c)%Z →
              get m i j = Ok (default 0%Z (numeric_cell data i j)).
Proof.
  destruct (construct_holds r c data) as (m & Hm & Hrows & Hcols & Hh).
  exists m. split; [done|]. split; [done|]. split; [done|].
  intros i j Hi Hj. rewrite (get_holds _ _ _ _ Hh).
  - rewrite cell_dense by lia. by rewrite kept_value.
  - rewrite length_fmap. unfold upto. rewrite length_seq. lia.
Qed.

Lemma construct_toArray (r c : Z) (data : dense) :
  ∃ m, construct r c (Some data) = Ok m ∧
       toArray m = Ok (grid_cells (λ i j, default 0%Z (numeric_cell data i j)) r c).
Proof.
  destruct (construct_cells r c data) as (m & Hm & Hrows & Hcols & Hget).
  exists m. split; [done|]. rewrite <- Hrows, <- Hcols. apply toArray_cells.
  intros i j Hi Hj. apply Hget; lia.
Qed.

(** X7.  Round trip: [Matrix.fromArray(arr).toArray()] is [arr], for every array
    of numbers. *)
Theorem fromArray_toArray (arr : list Z) :
  (m ← fromArray arr; toArray m) = Ok arr.
Proof.
  unfold fromArray.
  destruct (construct_cells 1 (Z.of_nat (length arr)) [Some (Some <$> arr)])
    as (m & -> & Hrows & Hcols & Hget).
  cbn [mbind result_bind].
  rewrite (toArray_cells m (λ i j, default 0%Z (numeric_cell [Some (Some <$> arr)] i j)))
    by (intros i j Hi Hj; apply Hget; lia).
  rewrite Hrows, Hcols. f_equal.
  unfold grid_cells, grid, upto. rewrite Nat2Z.id.
  change (Z.to_nat 1) with 1. cbn [seq fmap list_fmap concat].
  rewrite app_nil_r. apply list_eq. intros j. rewrite list_lookup_fmap.
  destruct (arr !! j) as [x|] eqn:Hj.
  - rewrite (proj2 (lookup_seq 0 (length arr) j j)); [|split; [done|by eapply lookup_lt_Some]].
    cbn. unfold numeric_cell. cbn. by rewrite list_lookup_fmap, Hj.
  - rewrite lookup_ge_None_2; [done|]. rewrite length_seq. by apply lookup_ge_None.
Qed.

(** ** Rows without a repeated column *)

Lemma sorted_distinct_columns m : sorted_columns m → distinct_columns m.
Proof.
  unfold sorted_columns, distinct_columns. intros Hs.
  eapply Forall_impl; [exact Hs|]. intros r. apply Sorted_lt_NoDup.
Qed.

Lemma distinct_columns_rows m rs :
  holds m rs → distinct_columns m → Forall (λ r : entries, NoDup r.*1) rs.
Proof.
  intros Hm Hs. apply Forall_lookup. intros k r Hk.
  rewrite <- (holds_columns _ _ Hm _ _ Hk).
  unfold distinct_columns in Hs. rewrite (holds_length_ROW_INDEX _ _ Hm) in Hs.
  eapply Forall_forall in Hs; [exact Hs|].
  apply elem_of_seq. apply lookup_lt_Some in Hk. lia.
Qed.

(** ** One transposition *)

Lemma in_col_absent c i0 (r : entries) :
  c ∉ r.*1 → in_col c ((λ e, (i0, e.1, e.2)) <$> r) = [].
Proof.
  induction r as [|[c' v] r IH]; [done|]. rewrite !fmap_cons. cbn [fst].
  intros Hc. apply not_elem_of_cons in Hc as [Hne Hc].
  unfold in_col. rewrite filter_cons. unfold t_col at 1. cbn.
  rewrite decide_False by done. by apply IH.
Qed.

Lemma in_col_row_sorted c i0 (r : entries) :
  NoDup r.*1 → StronglySorted lt (t_row <$> in_col c ((λ e, (i0, e.1, e.2)) <$> r)).
Proof.
  induction r as [|[c' v] r IH]; [constructor|]. rewrite !fmap_cons. cbn [fst].
  intros [Hnot Hnd]%NoDup_cons.
  unfold in_col. rewrite filter_cons. unfold t_col at 1. cbn.
  destruct (decide (c' = c)) as [->|Hne]; [|by apply IH].
  fold (in_col c ((λ e, (i0, e.1, e.2)) <$> r)). rewrite in_col_absent by done.
  repeat constructor.
Qed.

Lemma in_col_rows_sorted c i0 (rs : list entries) :
  Forall (λ r : entries, NoDup r.*1) rs →
  StronglySorted lt (t_row <$> in_col c (triples_from i0 rs)).
Proof.
  intros Hrs. revert i0. induction Hrs as [|r rs Hr Hrs IH]; intros i0; [constructor|].
  cbn [triples_from]. unfold in_col. rewrite filter_app, fmap_app.
  apply StronglySorted_app_2.
  - intros x1 x2 H1 H2.
    apply list_elem_of_fmap in H1 as (t1 & -> & H1), H2 as (t2 & -> & H2).
    apply list_elem_of_filter in H1 as [_ H1], H2 as [_ H2].
    apply list_elem_of_fmap in H1 as (e & -> & _).
    apply triples_rows in H2. cbn. lia.
  - by apply in_col_row_sorted.
  - apply IH.
Qed.

Lemma transposed_rows_sorted rs n :
  Forall (λ r : entries, NoDup r.*1) rs →
  Forall (λ r : entries, Sorted lt r.*1) (transposed_rows rs n).
Proof.
  intros Hrs. unfold transposed_rows. apply Forall_fmap, Forall_forall. intros c _.
  cbn. rewrite <- list_fmap_compose. apply StronglySorted_Sorted.
  by apply (in_col_rows_sorted c 0 rs).
Qed.

Lemma transposed_rows_values rs n :
  Forall (λ r : entries, Forall (λ e, e.2 ≠ 0%Z) r) rs →
  Forall (λ r : entries, Forall (λ e, e.2 ≠ 0%Z) r) (transposed_rows rs n).
Proof.
  intros Hrs. unfold transposed_rows. apply Forall_fmap, Forall_forall. intros c _.
  cbn. apply Forall_fmap, Forall_forall. intros t Ht. cbn.
  apply list_elem_of_filter in Ht as [_ Ht].
  assert (t_val t ∈ (concat rs).*2) as Hv.
  { rewrite <- (triples_vals 0). apply list_elem_of_fmap. by exists t. }
  apply list_elem_of_fmap in Hv as (e & -> & He).
  apply Forall_concat in Hrs. by eapply Forall_forall in Hrs.
Qed.

(** The same holds of every property of the values. *)
Lemma transposed_rows_Forall (P : Z → Prop) rs n :
  Forall (Forall (λ e : nat * Z, P e.2)) rs →
  Forall (Forall (λ e : nat * Z, P e.2)) (transposed_rows rs n).
Proof.
  intros Hrs. unfold transposed_rows. apply Forall_fmap, Forall_forall. intros c _.
  cbn. apply Forall_fmap, Forall_forall. intros t Ht. cbn.
  apply list_elem_of_filter in Ht as [_ Ht].
  assert (t_val t ∈ (concat rs).*2) as Hv.
  { rewrite <- (triples_vals 0). apply list_elem_of_fmap. by exists t. }
  apply list_elem_of_fmap in Hv as (e & -> & He).
  apply Forall_concat in Hrs. by eapply Forall_forall in Hrs.
Qed.

Lemma structured_transposed m :
  structured m →
  ∃ T, transpose m = Ok T ∧ rows T = cols m ∧ cols T = rows m ∧
       holds T (transposed_rows (rows_of m) (Z.to_nat (cols m))) ∧ structured T.
Proof.
  intros Hs. pose proof (structured_holds m Hs) as Hm.
  pose proof (holds_length _ _ Hm (proj1 Hs)) as Hlen.
  destruct Hs as [(_ & _ & _ & Hbound & Hr0 & Hc0) _].
  destruct (transpose_holds m _ Hm Hlen Hc0) as (T & HT & HTr & HTc & HTh).
  { eapply Forall_impl; [exact Hbound|]. intros c Hc. cbn in Hc. lia. }
  exists T. split; [done|]. split; [done|]. split; [done|]. split; [done|].
  eapply holds_structured; [exact HTh| | | |].
  - unfold transposed_rows. by rewrite length_fmap, length_seq, HTr.
  - by rewrite HTr.
  - by rewrite HTc.
  - apply Forall_forall. intros c Hc. apply transposed_rows_bound in Hc.
    rewrite HTc. lia.
Qed.

Lemma transpose_cells (A : Matrix) :
  structured A →
  ∃ T, transpose A = Ok T ∧ rows T = cols A ∧ cols T = rows A ∧ structured T ∧
       (no_stored_zero A → no_stored_zero T) ∧
       (distinct_columns A → sorted_columns T) ∧
       ∀ i j, (Z.of_nat i < rows A)%Z → (Z.of_nat j < cols A)%Z →
              get T j i = get A i j.
Proof.
  intros Hs. pose proof (structured_holds A Hs) as Hm.
  pose proof (holds_length _ _ Hm (proj1 Hs)) as Hlen.
  destruct (structured_transposed A Hs) as (T & HT & HTr & HTc & HTh & HTs).
  exists T. split; [done|]. split; [done|]. split; [done|]. split; [done|]. split; [|split].
  - intros Hz. eapply holds_no_stored_zero; [exact HTh|].
    apply transposed_rows_values. by eapply no_stored_zero_rows.
  - intros Hd. eapply holds_sorted_columns; [exact HTh|].
    apply transposed_rows_sorted. by eapply distinct_columns_rows.
  - intros i j Hi Hj. rewrite (get_holds _ _ _ _ HTh).
    2:{ unfold transposed_rows. rewrite length_fmap, length_seq. lia. }
    rewrite (get_holds _ _ _ _ Hm) by lia.
    f_equal. apply cell_transposed_rows. lia.
Qed.

(** The transpose holds the values of the receiver. *)
Lemma transpose_bounded (A : Matrix) (M : Z) :
  structured A → bounded M A → ∃ T, transpose A = Ok T ∧ bounded M T.
Proof.
  intros Hs Hb. pose proof (structured_holds A Hs) as Hm.
  destruct (structured_transposed A Hs) as (T & HT & _ & _ & HTh & _).
  exists T. split; [done|].
  apply (holds_values (λ v, Z.abs v ≤ M)%Z T _ HTh).
  apply (transposed_rows_Forall (λ v, Z.abs v ≤ M)%Z).
  by apply (holds_bounded A).
Qed.

(** X12.  One transposition: [transpose()] returns a store of the swapped shape
    whose cell [(j, i)] reads as the cell [(i, j)] of the receiver. *)
Theorem transpose_get (A : Matrix) (i j : nat) :
  structured A → (Z.of_nat i < rows A)%Z → (Z.of_nat j < cols A)%Z →
  ∃ T, transpose A = Ok T ∧ rows T = cols A ∧ cols T = rows A ∧
       get T j i = get A i j.
Proof.
  intros Hs Hi Hj.
  destruct (transpose_cells A Hs) as (T & HT & HTr & HTc & _ & _ & _ & Hget).
  exists T. split; [done|]. split; [done|]. split; [done|]. by apply Hget.
Qed.

Lemma transpose_get_witness :
  ∃ T, transpose m_4x6 = Ok T ∧ rows T = 6%Z ∧ cols T = 4%Z ∧
       get T 4 2 = get m_4x6 2 4.
Proof. apply (transpose_get m_4x6 2 4); [by_evaluation | reflexivity | reflexivity]. Defined.

(** X13.  [transpose()] returns a store with the layout of the data model; it
    stores no zero if the receiver stores none, and its columns are strictly
    increasing as soon as no row of the receiver stores a column twice, even
    when the rows of the receiver are out of order. *)
Theorem transpose_invariants (A : Matrix) :
  structured A →
  ∃ T, transpose A = Ok T ∧ structured T ∧
       (no_stored_zero A → no_stored_zero T) ∧
       (distinct_columns A → sorted_columns T).
Proof.
  intros Hs.
  destruct (transpose_cells A Hs) as (T & HT & _ & _ & HTs & Hz & Hd & _).
  by exists T.
Qed.

Lemma transpose_invariants_witness :
  ¬ sorted_columns m_02_set ∧
  ∃ T, transpose m_02_set = Ok T ∧ structured T ∧
       (no_stored_zero m_02_set → no_stored_zero T) ∧
       (distinct_columns m_02_set → sorted_columns T).
Proof.
  split; [by_evaluation|]. apply (transpose_invariants m_02_set). by_evaluation.
Defined.

(** ** The accumulator *)

Lemma acc_get_acc_set a k v k' :
  acc_get (acc_set a k v) k' = if decide (k = k') then Some v else acc_get a k'.
Proof.
  induction a as [|[k0 v0] a IH]; cbn [acc_set acc_get].
  - done.
  - destruct (decide (k0 = k)) as [->|Hne]; cbn [acc_get].
    + by destruct (decide (k = k')).
    + rewrite IH. destruct (decide (k0 = k')) as [->|]; [|done].
      by rewrite decide_False by congruence.
Qed.

Lemma acc_get_acc_add a k x k' :
  default 0%Z (acc_get (acc_add a k x) k') =
  if decide (k = k') then number_add (default 0%Z (acc_get a k')) x
  else default 0%Z (acc_get a k').
Proof.
  unfold acc_add. rewrite acc_get_acc_set.
  by destruct (decide (k = k')) as [->|].
Qed.

Lemma acc_add_keys a k x k' : k' ∈ (acc_add a k x).*1 ↔ k' ∈ a.*1 ∨ k' = k.
Proof.
  unfold acc_add. destruct (decide (k ∈ a.*1)) as [Hin|Hout].
  - rewrite acc_set_keys by done. split; [by left|]. by intros [?| ->].
  - rewrite acc_set_keys_fresh by done. rewrite elem_of_app, list_elem_of_singleton. done.
Qed.

(** A row without a repeated column adds at most one value per column. *)
Lemma accumulated_value f a (r : entries) k :
  NoDup r.*1 →
  default 0%Z (acc_get (accumulated f a r) k) =
  match acc_get r k with
  | Some v => number_add (default 0%Z (acc_get a k)) (f v)
  | None => default 0%Z (acc_get a k)
  end.
Proof.
  unfold accumulated. revert a. induction r as [|[c v] r IH]; intros a Hnd; [done|].
  rewrite fmap_cons in Hnd. apply NoDup_cons in Hnd as [Hnot Hnd]. cbn [fst] in Hnot.
  cbn [foldl fst snd acc_get]. rewrite IH, acc_get_acc_add by done.
  destruct (decide (c = k)) as [->|Hne]; [|done].
  apply acc_get_None in Hnot. by rewrite Hnot.
Qed.

Lemma accumulated_keys f a (r : entries) k :
  k ∈ (accumulated f a r).*1 ↔ k ∈ a.*1 ∨ k ∈ r.*1.
Proof.
  unfold accumulated. revert a. induction r as [|e r IH]; intros a.
  - cbn. rewrite elem_of_nil. tauto.
  - cbn [foldl]. rewrite IH, acc_add_keys, fmap_cons, elem_of_cons. tauto.
Qed.

Lemma accumulated_NoDup f a (r : entries) :
  NoDup a.*1 → NoDup (accumulated f a r).*1.
Proof.
  unfold accumulated. revert a. induction r as [|e r IH]; intros a Hnd; [done|].
  cbn [foldl]. by apply IH, acc_add_NoDup.
Qed.

Lemma acc_get_elem (a : accumulator) k v :
  NoDup a.*1 → acc_get a k = Some v ↔ (k, v) ∈ a.
Proof.
  intros Hnd. split; [apply acc_get_Some|].
  induction a as [|[k' v'] a IH]; [by intros ?%elem_of_nil|].
  rewrite fmap_cons in Hnd. apply NoDup_cons in Hnd as [Hnot Hnd].
  intros [Heq|Hin]%elem_of_cons; cbn [acc_get].
  - injection Heq as -> ->. by rewrite decide_True.
  - rewrite decide_False; [by apply IH|].
    intros ->. apply Hnot. apply list_elem_of_fmap. by exists (k, v).
Qed.

Lemma acc_get_Permutation (a b : accumulator) k :
  NoDup a.*1 → a ≡ₚ b → acc_get a k = acc_get b k.
Proof.
  intros Hnd Hp.
  assert (Hnd' : NoDup b.*1) by (by rewrite <- Hp).
  destruct (acc_get a k) as [v|] eqn:Ha.
  - symmetry. apply acc_get_elem; [done|]. rewrite <- Hp. by apply acc_get_elem.
  - symmetry. apply acc_get_None. rewrite <- Hp. by apply acc_get_None.
Qed.

Lemma acc_get_filter (a : accumulator) k :
  NoDup a.*1 →
  acc_get (filter (λ e, e.2 ≠ 0%Z) a) k =
  match acc_get a k with
  | Some v => if decide (v ≠ 0%Z) then Some v else None
  | None => None
  end.
Proof.
  induction a as [|[k' v'] a IH]; intros Hnd; [done|].
  rewrite fmap_cons in Hnd. apply NoDup_cons in Hnd as [Hnot Hnd].
  rewrite filter_cons. cbn [snd acc_get].
  destruct (decide (v' ≠ 0%Z)) as [Hnz|Hz]; cbn [acc_get].
  - destruct (decide (k' = k)); [by rewrite decide_True|]. by apply IH.
  - destruct (decide (k' = k)) as [->|]; [|by apply IH].
    rewrite (decide_False (P := v' ≠ 0%Z)) by done.
    apply acc_get_None. intros Hin. apply Hnot.
    apply list_elem_of_fmap in Hin as (e & -> & He).
    apply list_elem_of_filter in He as [_ He]. apply list_elem_of_fmap. by exists e.
Qed.

Lemma NoDup_filter_keys (a : accumulator) (P : nat * Z → Prop) `{∀ e, Decision (P e)} :
  NoDup a.*1 → NoDup (filter P a).*1.
Proof.
  intros Hnd. eapply sublist_NoDup; [exact Hnd|]. apply fmap_sublist, sublist_filter.
Qed.

(** The sorted entries read as the accumulator does; a zero is read as an
    absent column. *)
Lemma sortedEntries_value a k :
  NoDup a.*1 →
  default 0%Z (acc_get (sortedEntries a) k) = default 0%Z (acc_get a k).
Proof.
  intros Hnd. unfold sortedEntries.
  rewrite (acc_get_Permutation _ (filter (λ e, e.2 ≠ 0%Z) a)).
  - rewrite acc_get_filter by done. destruct (acc_get a k) as [v|]; [|done].
    destruct (decide (v ≠ 0%Z)) as [|Hz]; [done|]. cbn.
    destruct (decide (v = 0%Z)); [done|]. by destruct Hz.
  - rewrite merge_sort_Permutation. by apply NoDup_filter_keys.
  - apply merge_sort_Permutation.
Qed.

(** Two accumulators with the same keys and values give the same sorted
    entries, in whatever order the keys were inserted. *)
Lemma sortedEntries_ext a b :
  NoDup a.*1 → NoDup b.*1 → (∀ k, acc_get a k = acc_get b k) →
  sortedEntries a = sortedEntries b.
Proof.
  intros Ha Hb Hab.
  destruct (sortedEntries_clean a Ha) as [Hsa _].
  destruct (sortedEntries_clean b Hb) as [Hsb _].
  assert (Hperm : sortedEntries a ≡ₚ sortedEntries b).
  { unfold sortedEntries. rewrite !merge_sort_Permutation.
    apply NoDup_Permutation.
    - by eapply NoDup_fmap_1, NoDup_filter_keys.
    - by eapply NoDup_fmap_1, NoDup_filter_keys.
    - intros [k v]. rewrite !list_elem_of_filter. cbn.
      rewrite <- !acc_get_elem by done. by rewrite Hab. }
  set (R := λ e1 e2 : nat * Z, e1.1 < e2.1).
  assert (HR : ∀ l : entries, Sorted lt l.*1 → StronglySorted R l).
  { intros l Hl. apply Sorted_StronglySorted; [intros ???; unfold R; lia|].
    induction l as [|e l IH]; [constructor|].
    rewrite fmap_cons in Hl. apply Sorted_inv in Hl as [Hl Hhd].
    constructor; [by apply IH|]. destruct l; constructor.
    by apply HdRel_inv in Hhd. }
  apply (StronglySorted_unique_strong R); [|by apply HR|by apply HR|done].
  intros x1 x2 _ _. unfold R. lia.
Qed.

(** ** [addition] and [subtract] on the rows that the operands hold *)

Lemma accumulate_row_holds f m rs i a :
  holds m rs → accumulate_row f m i a = Ok (accumulated f a (default [] (rs !! i))).
Proof.
  intros Hm. unfold accumulate_row, accumulated.
  destruct (rs !! i) as [r|] eqn:Hr.
  - rewrite (foldlM_row m rs i r _ (λ a e, Ok (acc_add a e.1 (f e.2))) a Hm Hr).
    + cbn. clear Hr. revert a. induction r as [|e r IH]; intros a; [done|]. cbn. apply IH.
    + intros s j e Hc Hv. unfold read. by rewrite Hc, Hv.
  - apply lookup_ge_None in Hr. by rewrite (holds_row_range_out _ _ Hm) by done.
Qed.

Lemma merge_rows_rows f this matrix rsA rsB l rs :
  holds this rsA → holds matrix rsB →
  foldlM (λ C i,
            a1 ← accumulate_row id this i [];
            a2 ← accumulate_row f matrix i a1;
            Ok (emit_row C a2)) (layout rs) l =
  Ok (layout (rs ++ ((λ i, merged_row f (default [] (rsA !! i)) (default [] (rsB !! i)))
                       <$> l))).
Proof.
  intros HA HB. revert rs. induction l as [|i l IH]; intros rs.
  - by rewrite app_nil_r.
  - cbn [foldlM]. rewrite (accumulate_row_holds id this rsA i [] HA). cbn.
    rewrite (accumulate_row_holds f matrix rsB i _ HB). cbn.
    rewrite emit_row_layout, IH. by rewrite <- app_assoc.
Qed.

Lemma merge_rows_holds f this matrix rsA rsB :
  holds this rsA → holds matrix rsB →
  rows this = rows matrix → cols this = cols matrix →
  merge_rows f this matrix =
  Ok (with_arrays (rows this) (cols this)
        (layout ((λ i, merged_row f (default [] (rsA !! i)) (default [] (rsB !! i)))
                   <$> upto (rows this)))).
Proof.
  intros HA HB Hr Hc. unfold merge_rows.
  rewrite decide_False by (intros [?|?]; done).
  change empty_arrays with (layout []).
  by rewrite (merge_rows_rows f this matrix rsA rsB _ [] HA HB).
Qed.

(** The value that two rows without a repeated column merge into: the
    value of the first row is added to 0, which leaves a number as it is,
    and the value of the second row is added to that. *)
Lemma merged_row_value f (ra rb : entries) k :
  NoDup ra.*1 → NoDup rb.*1 → f 0%Z = 0%Z →
  round64 (default 0%Z (acc_get ra k)) = default 0%Z (acc_get ra k) →
  default 0%Z (acc_get (merged_row f ra rb) k) =
  number_add (default 0%Z (acc_get ra k)) (f (default 0%Z (acc_get rb k))).
Proof.
  intros Ha Hb Hf Hnum. unfold merged_row. rewrite sortedEntries_value.
  2:{ apply accumulated_NoDup, accumulated_NoDup. constructor. }
  rewrite !accumulated_value by done. cbn [acc_get default].
  assert (Hfirst : match acc_get ra k with
                   | Some v => number_add 0 (id v)
                   | None => 0%Z
                   end = default 0%Z (acc_get ra k)).
  { destruct (acc_get ra k) as [v|]; [|done]. by apply number_add_0_l. }
  rewrite Hfirst. destruct (acc_get rb k) as [v|]; [done|].
  cbn [default]. rewrite Hf. unfold number_add. by rewrite Z.add_0_r.
Qed.

Lemma merged_row_keys f (ra rb : entries) k :
  k ∈ (merged_row f ra rb).*1 → k ∈ ra.*1 ∨ k ∈ rb.*1.
Proof.
  unfold merged_row, sortedEntries. rewrite merge_sort_Permutation.
  intros (e & -> & He)%list_elem_of_fmap.
  apply list_elem_of_filter in He as [_ He].
  assert (e.1 ∈ (accumulated f (accumulated id [] ra) rb).*1) as Hk
    by (apply list_elem_of_fmap; by exists e).
  apply accumulated_keys in Hk as [Hk|Hk]; [|by right].
  apply accumulated_keys in Hk as [Hk|Hk]; [by apply elem_of_nil in Hk | by left].
Qed.

Lemma merged_row_clean f (ra rb : entries) : clean_row (merged_row f ra rb).
Proof. apply sortedEntries_clean, accumulated_NoDup, accumulated_NoDup. constructor. Qed.

(** The cell of a store as the rows it holds give it. *)
Lemma default_lookup_cell (rs : list entries) i j :
  default 0%Z (acc_get (default [] (rs !! i)) j) = cell rs i j.
Proof. unfold cell. by destruct (rs !! i). Qed.

Lemma lookup_NoDup (rs : list entries) i :
  Forall (λ r : entries, NoDup r.*1) rs → NoDup (default [] (rs !! i)).*1.
Proof.
  intros Hrs. destruct (rs !! i) as [r|] eqn:Hr; [|constructor].
  by eapply Forall_lookup_1 in Hrs.
Qed.

Lemma merged_cell f (rsA rsB : list entries) (n : Z) i j :
  Forall (λ r : entries, NoDup r.*1) rsA → Forall (λ r : entries, NoDup r.*1) rsB →
  f 0%Z = 0%Z → (Z.of_nat i < n)%Z → round64 (cell rsA i j) = cell rsA i j →
  cell ((λ i, merged_row f (default [] (rsA !! i)) (default [] (rsB !! i))) <$> upto n) i j
  = number_add (cell rsA i j) (f (cell rsB i j)).
Proof.
  intros HA HB Hf Hi Hnum. unfold cell at 1. rewrite list_lookup_fmap.
  unfold upto. rewrite (proj2 (lookup_seq 0 (Z.to_nat n) i i)) by (split; [done|lia]).
  cbn. rewrite merged_row_value, !default_lookup_cell;
    [done | by apply lookup_NoDup.. | done | by rewrite default_lookup_cell].
Qed.

(** The cells of a store of numbers are numbers. *)
Lemma cell_number m rs i j : holds m rs → numbers m → round64 (cell rs i j) = cell rs i j.
Proof.
  intros Hm Hn. apply (cell_Forall (λ v, round64 v = v)); [done|].
  apply (holds_values (λ v, round64 v = v) m); [done|].
  eapply Forall_impl; [exact Hn|]. by intros v [? _].
Qed.

Lemma merge_rows_get f (A B : Matrix) (i j : nat) :
  structured A → structured B → distinct_columns A → distinct_columns B →
  numbers A →
  rows A = rows B → cols A = cols B → f 0%Z = 0%Z → (Z.of_nat i < rows A)%Z →
  ∃ C a b, merge_rows f A B = Ok C ∧ get A i j = Ok a ∧ get B i j = Ok b ∧
           get C i j = Ok (number_add a (f b)).
Proof.
  intros HsA HsB HdA HdB HnA Hr Hc Hf Hi.
  pose proof (structured_holds A HsA) as HA. pose proof (structured_holds B HsB) as HB.
  pose proof (holds_length _ _ HA (proj1 HsA)) as HlA.
  pose proof (holds_length _ _ HB (proj1 HsB)) as HlB.
  eexists _, (cell (rows_of A) i j), (cell (rows_of B) i j).
  split; [by apply merge_rows_holds|].
  split; [apply get_holds; [done|lia]|]. split; [apply get_holds; [done|lia]|].
  rewrite (get_holds _ _ i j (holds_with_arrays _ _ _)).
  - f_equal. apply merged_cell; [by eapply distinct_columns_rows..|done|done|].
    by apply (cell_number A).
  - rewrite length_fmap. unfold upto. rewrite length_seq. lia.
Qed.



(** ** Laws of [addition] and [subtract] *)

Lemma acc_get_ext (a b : accumulator) :
  (∀ k, k ∈ a.*1 ↔ k ∈ b.*1) →
  (∀ k, default 0%Z (acc_get a k) = default 0%Z (acc_get b k)) →
  ∀ k, acc_get a k = acc_get b k.
Proof.
  intros Hkeys Hval k. specialize (Hkeys k). specialize (Hval k).
  destruct (acc_get a k) as [x|] eqn:Ha, (acc_get b k) as [y|] eqn:Hb; cbn in Hval.
  - by rewrite Hval.
  - apply acc_get_None in Hb. exfalso. apply Hb, Hkeys.
    apply acc_get_Some in Ha. apply list_elem_of_fmap. by exists (k, x).
  - apply acc_get_None in Ha. exfalso. apply Ha, Hkeys.
    apply acc_get_Some in Hb. apply list_elem_of_fmap. by exists (k, y).
  - done.
Qed.

(** The values of the rows that a store of numbers holds are numbers. *)
Lemma lookup_numbers m rs i :
  holds m rs → numbers m → Forall (λ e, round64 e.2 = e.2) (default [] (rs !! i)).
Proof.
  intros Hm Hn. destruct (rs !! i) as [r|] eqn:Hr; [|constructor].
  assert (Hall : Forall (Forall (λ e, round64 e.2 = e.2)) rs).
  { apply (holds_values (λ v, round64 v = v) m); [done|].
    eapply Forall_impl; [exact Hn|]. by intros v [? _]. }
  by eapply Forall_lookup_1 in Hall.
Qed.

Lemma acc_get_number (r : entries) k :
  Forall (λ e, round64 e.2 = e.2) r →
  round64 (default 0%Z (acc_get r k)) = default 0%Z (acc_get r k).
Proof.
  intros Hr. destruct (acc_get r k) as [v|] eqn:Hv; [|done].
  apply acc_get_Some in Hv. rewrite Forall_forall in Hr. exact (Hr _ Hv).
Qed.

Lemma merged_row_comm (ra rb : entries) :
  NoDup ra.*1 → NoDup rb.*1 →
  Forall (λ e, round64 e.2 = e.2) ra → Forall (λ e, round64 e.2 = e.2) rb →
  merged_row id ra rb = merged_row id rb ra.
Proof.
  intros Ha Hb Hna Hnb. unfold merged_row. apply sortedEntries_ext.
  - apply accumulated_NoDup, accumulated_NoDup. constructor.
  - apply accumulated_NoDup, accumulated_NoDup. constructor.
  - apply acc_get_ext.
    + intros k. rewrite !accumulated_keys. cbn. rewrite elem_of_nil. tauto.
    + intros k. rewrite !accumulated_value by done. cbn [acc_get default].
      pose proof (acc_get_number ra k Hna) as Hka.
      pose proof (acc_get_number rb k Hnb) as Hkb.
      destruct (acc_get ra k) as [x|], (acc_get rb k) as [y|];
        cbn [default from_option] in *; try done.
      unfold id in *. rewrite !number_add_0_l by done. apply number_add_comm.
Qed.

(** X16.  [addition] is commutative, as an operation on stores of numbers no
    row of which stores a column twice: both orders give the same outcome,
    the same store or the same error, whatever the order of the columns and
    the zeros the operands store. *)
Theorem addition_commutative (A B : Matrix) :
  structured A → structured B → distinct_columns A → distinct_columns B →
  numbers A → numbers B → addition A B = addition B A.
Proof.
  intros HsA HsB HdA HdB HnA HnB. unfold addition.
  destruct (decide (rows A = rows B ∧ cols A = cols B)) as [[Hr Hc]|Hne].
  - pose proof (structured_holds A HsA) as HA. pose proof (structured_holds B HsB) as HB.
    rewrite (merge_rows_holds id A B _ _ HA HB Hr Hc).
    rewrite (merge_rows_holds id B A _ _ HB HA) by done.
    rewrite Hr, Hc. do 3 f_equal. apply list_fmap_ext. intros _ i _.
    apply merged_row_comm.
    + by apply lookup_NoDup, (distinct_columns_rows A).
    + by apply lookup_NoDup, (distinct_columns_rows B).
    + by apply (lookup_numbers A).
    + by apply (lookup_numbers B).
  - unfold merge_rows. rewrite !decide_True; [done| |].
    + destruct (decide (rows B = rows A)), (decide (cols B = cols A)); try tauto.
      exfalso. apply Hne. by split.
    + destruct (decide (rows A = rows B)), (decide (cols A = cols B)); tauto.
Qed.

Lemma addition_commutative_witness :
  addition m_2143 m_1234 = addition m_1234 m_2143.
Proof. apply (addition_commutative m_2143 m_1234); by_evaluation. Defined.

Lemma sortedEntries_zero a :
  NoDup a.*1 → (∀ k, default 0%Z (acc_get a k) = 0%Z) → sortedEntries a = [].
Proof.
  intros Hnd Hz. unfold sortedEntries.
  replace (filter (λ e, e.2 ≠ 0%Z) a) with ([] : list (nat * Z)); [done|].
  symmetry. apply elem_of_nil_inv. intros [k v] [Hv He]%list_elem_of_filter.
  apply Hv. cbn. apply acc_get_elem in He; [|done].
  specialize (Hz k). by rewrite He in Hz.
Qed.

Lemma merged_row_cancel (r : entries) :
  NoDup r.*1 → Forall (λ e, round64 e.2 = e.2) r → merged_row Z.opp r r = [].
Proof.
  intros Hnd Hnum. unfold merged_row. apply sortedEntries_zero.
  - apply accumulated_NoDup, accumulated_NoDup. constructor.
  - intros k. rewrite !accumulated_value by done. cbn [acc_get default].
    pose proof (acc_get_number r k Hnum) as Hk.
    destruct (acc_get r k) as [v|]; [|done]. cbn [default from_option] in Hk.
    unfold number_add, id in *. rewrite Z.add_0_l, Hk, Z.add_opp_diag_r. done.
Qed.

Lemma layout_empty_rows n :
  layout (replicate n []) = {| C_V := []; C_COL_INDEX := []; C_ROW_INDEX := replicate (n + 1) 0 |}.
Proof.
  assert (Hc : ∀ k, concat (replicate k ([] : entries)) = []).
  { intros k. induction k; [done|]. done. }
  unfold layout. rewrite Hc. cbn [fmap list_fmap]. f_equal.
  rewrite length_replicate. apply list_eq. intros k.
  rewrite list_lookup_fmap.
  destruct (decide (k < n + 1)) as [Hk|Hk].
  - rewrite lookup_replicate_2 by done.
    rewrite (proj2 (lookup_seq 0 (S n) k k)) by (split; [done|lia]). cbn.
    unfold offset. by rewrite take_replicate, Hc.
  - rewrite !lookup_ge_None_2; [done| |]; rewrite ?length_replicate, ?length_seq; lia.
Qed.

(** X19.  A store of numbers, no row of which stores a column twice, minus
    itself stores nothing: every entry cancels and is dropped, and every
    offset is 0. *)
Theorem subtract_self (A : Matrix) :
  structured A → distinct_columns A → numbers A →
  ∃ C, subtract A A = Ok C ∧ rows C = rows A ∧ cols C = cols A ∧
       V C = [] ∧ COL_INDEX C = [] ∧ ROW_INDEX C = replicate (Z.to_nat (rows A) + 1) 0.
Proof.
  intros Hs Hd Hn. pose proof (structured_holds A Hs) as HA.
  unfold subtract. rewrite (merge_rows_holds Z.opp A A _ _ HA HA) by done.
  eexists. split; [reflexivity|]. split; [done|]. split; [done|].
  assert (Hrows : (λ i, merged_row Z.opp (default [] (rows_of A !! i))
                                   (default [] (rows_of A !! i))) <$> upto (rows A)
                  = replicate (Z.to_nat (rows A)) []).
  { unfold upto. apply list_eq. intros k. rewrite list_lookup_fmap.
    destruct (decide (k < Z.to_nat (rows A))) as [Hk|Hk].
    - rewrite lookup_replicate_2 by done.
      rewrite (proj2 (lookup_seq 0 _ k k)) by (split; [done|lia]). cbn.
      rewrite merged_row_cancel; [done | |].
      + by apply lookup_NoDup, (distinct_columns_rows A).
      + by apply (lookup_numbers A).
    - rewrite !lookup_ge_None_2; [done| |]; rewrite ?length_replicate, ?length_seq; lia. }
  rewrite Hrows, layout_empty_rows. done.
Qed.

Lemma subtract_self_witness :
  ∃ C, subtract m_4x6 m_4x6 = Ok C ∧ rows C = 4%Z ∧ cols C = 6%Z ∧
       V C = [] ∧ COL_INDEX C = [] ∧ ROW_INDEX C = [0; 0; 0; 0; 0].
Proof. apply (subtract_self m_4x6); by_evaluation. Defined.

(** ** The results of [addition] and [subtract] are stores of the data model *)

Lemma structured_keys m rs :
  holds m rs → well_shaped m →
  ∀ i k, k ∈ (default [] (rs !! i)).*1 → (Z.of_nat k < cols m)%Z.
Proof.
  intros Hm (_ & _ & _ & Hb & _) i k Hk.
  rewrite (holds_COL_INDEX _ _ Hm) in Hb.
  destruct (rs !! i) as [r|] eqn:Hr; [|by apply elem_of_nil in Hk].
  eapply Forall_forall in Hb; [exact Hb|].
  apply elem_of_concat_keys. by exists i, r.
Qed.

Lemma merge_rows_closed f (A B : Matrix) :
  structured A → structured B → rows A = rows B → cols A = cols B →
  ∃ C, merge_rows f A B = Ok C ∧ rows C = rows A ∧ cols C = cols A ∧ csr_invariants C.
Proof.
  intros HsA HsB Hr Hc.
  pose proof (structured_holds A HsA) as HA. pose proof (structured_holds B HsB) as HB.
  rewrite (merge_rows_holds f A B _ _ HA HB Hr Hc).
  eexists. split; [reflexivity|]. split; [done|]. split; [done|].
  match goal with |- csr_invariants (with_arrays _ _ (layout ?rs)) => set (rsC := rs) end.
  pose proof (holds_with_arrays (rows A) (cols A) rsC) as HC.
  destruct (holds_clean _ _ HC) as (Hs & Hz & Hmono & _).
  { apply Forall_fmap, Forall_forall. intros i _. apply merged_row_clean. }
  split; [|done].
  destruct HsA as [HwA _]. destruct HsB as [HwB _].
  eapply holds_well_shaped; [exact HC| | | |]; cbn [rows cols with_arrays].
  - unfold rsC, upto. by rewrite length_fmap, length_seq.
  - apply HwA.
  - apply HwA.
  - apply Forall_forall. intros k Hk.
    apply elem_of_concat_keys in Hk as (i & r & Hi & Hk).
    unfold rsC in Hi. rewrite list_lookup_fmap in Hi.
    destruct (upto (rows A) !! i) as [i'|]; [|done]. injection Hi as <-.
    apply merged_row_keys in Hk as [Hk|Hk].
    + by eapply structured_keys.
    + rewrite Hc. by eapply structured_keys.
Qed.

(** ** [multiply] on the rows that the operands hold *)

Lemma multiply_row_from this matrix rsA rsB i a :
  holds this rsA → holds matrix rsB →
  foldlM (λ a aPtr,
            k ← read (COL_INDEX this) aPtr;
            aVal ← read (V this) aPtr;
            accumulate_row (number_mul aVal) matrix k a)
         a (row_range this i) = Ok (products rsB a (default [] (rsA !! i))).
Proof.
  intros HA HB. unfold products.
  destruct (rsA !! i) as [r|] eqn:Hr.
  - rewrite (foldlM_row this rsA i r _
               (λ a e, accumulate_row (number_mul e.2) matrix e.1 a) a HA Hr).
    + cbn. clear Hr. revert a. induction r as [|e r IH]; intros a; [done|].
      cbn [foldlM foldl]. rewrite (accumulate_row_holds _ matrix rsB e.1 a HB). cbn.
      apply IH.
    + intros s j e Hc Hv. unfold read. by rewrite Hc, Hv.
  - apply lookup_ge_None in Hr. by rewrite (holds_row_range_out _ _ HA) by done.
Qed.

Lemma multiply_row_holds this matrix rsA rsB i :
  holds this rsA → holds matrix rsB →
  multiply_row this matrix i = Ok (products rsB [] (default [] (rsA !! i))).
Proof. apply multiply_row_from. Qed.

Lemma multiply_rows this matrix rsA rsB l rs :
  holds this rsA → holds matrix rsB →
  foldlM (λ C i, a ← multiply_row this matrix i; Ok (emit_row C a)) (layout rs) l =
  Ok (layout (rs ++ ((λ i, product_row rsB (default [] (rsA !! i))) <$> l))).
Proof.
  intros HA HB. revert rs. induction l as [|i l IH]; intros rs.
  - by rewrite app_nil_r.
  - cbn [foldlM]. rewrite (multiply_row_holds this matrix rsA rsB i HA HB). cbn.
    rewrite emit_row_layout, IH. by rewrite <- app_assoc.
Qed.

Lemma multiply_holds this matrix rsA rsB :
  holds this rsA → holds matrix rsB → cols this = rows matrix →
  multiply this matrix =
  Ok (with_arrays (rows this) (cols matrix) (layout (product_row rsB <$> rsA))).
Proof.
  intros HA HB Hc. unfold multiply. rewrite decide_False by (intros ?; done).
  change empty_arrays with (layout []).
  rewrite (multiply_rows this matrix rsA rsB _ [] HA HB). cbn. do 3 f_equal.
  rewrite (holds_length_ROW_INDEX _ _ HA). cbn. rewrite Nat.sub_0_r.
  apply list_eq. intros i. rewrite !list_lookup_fmap.
  destruct (rsA !! i) as [r|] eqn:Hr.
  - rewrite (proj2 (lookup_seq 0 (length rsA) i i))
      by (split; [done|by eapply lookup_lt_Some]).
    cbn. by rewrite Hr.
  - rewrite lookup_ge_None_2; [done|]. rewrite length_seq. by apply lookup_ge_None.
Qed.

Lemma products_NoDup rsB a (ra : entries) : NoDup a.*1 → NoDup (products rsB a ra).*1.
Proof.
  unfold products. revert a. induction ra as [|e ra IH]; intros a Hnd; [done|].
  cbn [foldl]. by apply IH, accumulated_NoDup.
Qed.

Lemma products_keys rsB a (ra : entries) k :
  k ∈ (products rsB a ra).*1 → k ∈ a.*1 ∨ ∃ e, e ∈ ra ∧ k ∈ (default [] (rsB !! e.1)).*1.
Proof.
  unfold products. revert a. induction ra as [|e ra IH]; intros a; [by left|].
  cbn [foldl]. intros [Hk|(e' & He' & Hk)]%IH.
  - apply accumulated_keys in Hk as [Hk|Hk]; [by left|].
    right. exists e. split; [by left|done].
  - right. exists e'. split; [by right|done].
Qed.

(** The value accumulated for column [j] is the exact sum of the products
    as long as [P] bounds each product and the bound on the partial sums
    stays within 2^53. *)
Lemma products_value rsB a (ra : entries) j (P : Z) :
  Forall (λ r : entries, NoDup r.*1) rsB →
  (0 ≤ P)%Z → Forall (λ e, (Z.abs (e.2 * cell rsB e.1 j) ≤ P)%Z) ra →
  (Z.abs (default 0%Z (acc_get a j)) + Z.of_nat (length ra) * P ≤ 2 ^ 53)%Z →
  default 0%Z (acc_get (products rsB a ra) j) =
  (default 0%Z (acc_get a j) + Zsum ((λ e, e.2 * cell rsB e.1 j)%Z <$> ra))%Z.
Proof.
  intros HB HP Hra. unfold products. revert a.
  induction Hra as [|e ra He _ IH]; intros a Hsize.
  - cbn. change (Zsum []) with 0%Z. lia.
  - cbn [foldl length] in *.
    assert (Hstep : default 0%Z (acc_get (accumulated (number_mul e.2) a
                                            (default [] (rsB !! e.1))) j) =
                    (default 0%Z (acc_get a j) + e.2 * cell rsB e.1 j)%Z).
    { rewrite accumulated_value by (by apply lookup_NoDup).
      rewrite <- default_lookup_cell in He |- *.
      destruct (acc_get (default [] (rsB !! e.1)) j) as [v|]; cbn [default from_option] in *;
        unfold id in *; [|lia].
      rewrite number_mul_exact by lia. rewrite number_add_exact by lia. done. }
    rewrite IH, Hstep, fmap_cons, Zsum_cons; lia.
Qed.

Lemma product_row_value rsA rsB (n : Z) i j (MA MB : Z) :
  Forall (λ r : entries, NoDup r.*1) rsA → Forall (λ r : entries, NoDup r.*1) rsB →
  Forall (λ c, (Z.of_nat c < n)%Z) (concat rsA).*1 →
  (0 ≤ MA)%Z → (0 ≤ MB)%Z →
  Forall (Forall (λ e, (Z.abs e.2 ≤ MA)%Z)) rsA →
  Forall (Forall (λ e, (Z.abs e.2 ≤ MB)%Z)) rsB →
  (n * (MA * MB) ≤ 2 ^ 53)%Z →
  cell (product_row rsB <$> rsA) i j = dot n (cell rsA i) (λ k, cell rsB k j).
Proof.
  intros HA HB Hn HMA HMB HvA HvB Hsize. unfold cell at 1, dot. rewrite list_lookup_fmap.
  destruct (rsA !! i) as [r|] eqn:Hr.
  - assert (Hkeys : Forall (λ e, e.1 < Z.to_nat n) r).
    { apply Forall_forall. intros e He.
      assert (e.1 ∈ (concat rsA).*1) as Hk.
      { apply elem_of_concat_keys. exists i, r. split; [done|].
        apply list_elem_of_fmap. by exists e. }
      eapply Forall_forall in Hn; [|exact Hk]. cbn in Hn. lia. }
    pose proof (Forall_lookup_1 _ _ _ _ HA Hr) as Hnd. cbn beta in Hnd.
    pose proof (NoDup_keys_length _ _ Hnd Hkeys) as Hlen.
    cbn. unfold product_row. rewrite sortedEntries_value by (apply products_NoDup; constructor).
    rewrite (products_value _ _ _ _ (MA * MB)); [|done|nia| |].
    + cbn [acc_get default]. rewrite Z.add_0_l.
      rewrite (Zsum_entries (Z.to_nat n) r (λ c v, v * cell rsB c j)%Z); [|intros c; lia|done..].
      unfold upto. f_equal. apply list_fmap_ext. intros _ k _.
      unfold cell at 2. by rewrite Hr.
    + pose proof (Forall_lookup_1 _ _ _ _ HvA Hr) as Hv. cbn beta in Hv.
      eapply Forall_impl; [exact Hv|]. intros e He. cbn beta in He.
      pose proof (cell_bound rsB MB e.1 j HMB HvB) as Hc.
      rewrite Z.abs_mul. apply Z.mul_le_mono_nonneg; lia.
    + cbn [acc_get default Z.abs]. nia.
  - cbn. symmetry. apply Zsum_zero. intros k. unfold cell. rewrite Hr. cbn. lia.
Qed.

Lemma multiply_dot (A B : Matrix) (i j : nat) (MA MB : Z) :
  structured A → structured B → distinct_columns A → distinct_columns B →
  cols A = rows B → (Z.of_nat i < rows A)%Z →
  (0 ≤ MA)%Z → (0 ≤ MB)%Z → bounded MA A → bounded MB B →
  (cols A * (MA * MB) ≤ 2 ^ 53)%Z →
  ∃ C, multiply A B = Ok C ∧ rows C = rows A ∧ cols C = cols B ∧
       get C i j = Ok (dot (cols A) (dense_of A i) (λ k, dense_of B k j)).
Proof.
  intros HsA HsB HdA HdB Hc Hi HMA HMB HbA HbB Hsize.
  pose proof (structured_holds A HsA) as HA. pose proof (structured_holds B HsB) as HB.
  pose proof (holds_length _ _ HA (proj1 HsA)) as HlA.
  pose proof (holds_length _ _ HB (proj1 HsB)) as HlB.
  rewrite (multiply_holds A B _ _ HA HB Hc).
  eexists. split; [reflexivity|]. split; [done|]. split; [done|].
  rewrite (get_holds _ _ i j (holds_with_arrays _ _ _)) by (rewrite length_fmap; lia).
  f_equal. rewrite (product_row_value _ _ (cols A) _ _ MA MB); try done.
  - unfold dot. f_equal. apply list_fmap_ext. intros p k Hk.
    unfold upto in Hk. apply lookup_seq in Hk as [-> Hk]. cbn [Nat.add].
    rewrite (dense_of_holds _ _ _ _ HA) by lia.
    rewrite (dense_of_holds _ _ _ _ HB) by lia. done.
  - by eapply distinct_columns_rows.
  - by eapply distinct_columns_rows.
  - destruct HsA as [(_ & _ & _ & Hb & _) _]. by rewrite <- (holds_COL_INDEX _ _ HA).
  - by apply (holds_bounded A).
  - by apply (holds_bounded B).
Qed.

Lemma product_row_clean rsB (ra : entries) : clean_row (product_row rsB ra).
Proof. apply sortedEntries_clean, products_NoDup. constructor. Qed.

Lemma multiply_csr (A B : Matrix) :
  structured A → structured B → cols A = rows B →
  ∃ C, multiply A B = Ok C ∧ rows C = rows A ∧ cols C = cols B ∧ csr_invariants C.
Proof.
  intros HsA HsB Hc.
  pose proof (structured_holds A HsA) as HA. pose proof (structured_holds B HsB) as HB.
  pose proof (holds_length _ _ HA (proj1 HsA)) as HlA.
  rewrite (multiply_holds A B _ _ HA HB Hc).
  eexists. split; [reflexivity|]. split; [done|]. split; [done|].
  match goal with |- csr_invariants (with_arrays _ _ (layout ?rs)) => set (rsC := rs) end.
  pose proof (holds_with_arrays (rows A) (cols B) rsC) as HC.
  destruct (holds_clean _ _ HC) as (Hs & Hz & Hmono & _).
  { apply Forall_fmap, Forall_forall. intros r _. apply product_row_clean. }
  split; [|done].
  destruct HsA as [HwA _]. destruct HsB as [HwB _].
  eapply holds_well_shaped; [exact HC| | | |]; cbn [rows cols with_arrays].
  - unfold rsC. by rewrite length_fmap.
  - apply HwA.
  - apply HwB.
  - apply Forall_forall. intros k Hk.
    apply elem_of_concat_keys in Hk as (i & r & Hi & Hk).
    unfold rsC in Hi. rewrite list_lookup_fmap in Hi.
    destruct (rows_of A !! i) as [ra|]; [|done]. injection Hi as <-.
    unfold product_row, sortedEntries in Hk. rewrite merge_sort_Permutation in Hk.
    apply list_elem_of_fmap in Hk as (e & -> & He).
    apply list_elem_of_filter in He as [_ He].
    assert (e.1 ∈ (products (rows_of B) [] ra).*1) as Hk
      by (apply list_elem_of_fmap; by exists e).
    apply products_keys in Hk as [Hk|(e' & _ & Hk)]; [by apply elem_of_nil in Hk|].
    by eapply structured_keys.
Qed.



(** X21.  The results of [addition], [subtract] and [multiply] are stores of the
    data model: they have the expected shape, the layout (one offset per row
    and one more, columns below [cols]) and the three invariants, whatever
    order, duplicates and zeros the operands store. *)
Theorem merge_algebra_closed (A B : Matrix) :
  structured A → structured B →
  (rows A = rows B → cols A = cols B →
     (∃ C, addition A B = Ok C ∧ rows C = rows A ∧ cols C = cols A ∧ csr_invariants C) ∧
     (∃ C, subtract A B = Ok C ∧ rows C = rows A ∧ cols C = cols A ∧ csr_invariants C)) ∧
  (cols A = rows B →
     ∃ C, multiply A B = Ok C ∧ rows C = rows A ∧ cols C = cols B ∧ csr_invariants C).
Proof.
  intros HsA HsB. split.
  - intros Hr Hc. split; by apply merge_rows_closed.
  - intros Hc. by apply multiply_csr.
Qed.

Lemma merge_algebra_closed_witness :
  (∃ C, addition m_untidy m_1234 = Ok C ∧ rows C = 2%Z ∧ cols C = 2%Z ∧ csr_invariants C) ∧
  (∃ C, subtract m_untidy m_1234 = Ok C ∧ rows C = 2%Z ∧ cols C = 2%Z ∧ csr_invariants C) ∧
  (∃ C, multiply m_untidy m_1234 = Ok C ∧ rows C = 2%Z ∧ cols C = 2%Z ∧ csr_invariants C).
Proof.
  destruct (merge_algebra_closed m_untidy m_1234) as [Hadd Hmul];
    [by_evaluation | by_evaluation |].
  destruct (Hadd eq_refl eq_refl) as [H1 H2].
  split; [exact H1|]. split; [exact H2|]. exact (Hmul eq_refl).
Defined.

(** ** The walk of [hadamard] over two rows *)

Lemma common_nil_l rb : common [] rb = [].
Proof. by destruct rb. Qed.

Lemma common_nil_r ra : common ra [] = [].
Proof. by destruct ra as [|[??] ?]. Qed.

Lemma common_cons a x ra b y rb :
  common ((a, x) :: ra) ((b, y) :: rb) =
  if decide (a = b) then
    (if decide (number_mul x y ≠ 0%Z) then [(a, number_mul x y)] else []) ++ common ra rb
  else if decide (a < b) then common ra ((b, y) :: rb)
  else common ((a, x) :: ra) rb.
Proof. reflexivity. Qed.

Lemma hadamard_walk_common this matrix fuel (sa sb : entries) aPtr bPtr C :
  (∀ j e, sa !! j = Some e →
          COL_INDEX this !! (aPtr + j) = Some e.1 ∧ V this !! (aPtr + j) = Some e.2) →
  (∀ j e, sb !! j = Some e →
          COL_INDEX matrix !! (bPtr + j) = Some e.1 ∧ V matrix !! (bPtr + j) = Some e.2) →
  length sa + length sb ≤ fuel →
  hadamard_walk fuel this matrix aPtr (aPtr + length sa) bPtr (bPtr + length sb) C =
  Ok (foldl (λ C e, emit C e.2 e.1) C (common sa sb)).
Proof.
  revert sa sb aPtr bPtr C. induction fuel as [|fuel IH]; intros sa sb aPtr bPtr C Ha Hb Hf.
  - destruct sa, sb; cbn in Hf; try lia. done.
  - cbn [hadamard_walk].
    destruct sa as [|[a x] sa].
    { rewrite decide_False by (cbn; lia). by rewrite common_nil_l. }
    destruct sb as [|[b y] sb].
    { rewrite decide_False by (cbn; lia). by rewrite common_nil_r. }
    rewrite decide_True by (cbn; lia).
    destruct (Ha 0 (a, x) eq_refl) as [Hac Hav]. destruct (Hb 0 (b, y) eq_refl) as [Hbc Hbv].
    rewrite Nat.add_0_r in Hac, Hav, Hbc, Hbv. cbn [fst snd] in *.
    unfold read. rewrite Hac, Hbc. cbn [mbind result_bind]. rewrite common_cons.
    assert (Ha' : ∀ j e, sa !! j = Some e →
              COL_INDEX this !! (aPtr + 1 + j) = Some e.1 ∧
              V this !! (aPtr + 1 + j) = Some e.2).
    { intros j e Hj. replace (aPtr + 1 + j) with (aPtr + S j) by lia. by apply Ha. }
    assert (Hb' : ∀ j e, sb !! j = Some e →
              COL_INDEX matrix !! (bPtr + 1 + j) = Some e.1 ∧
              V matrix !! (bPtr + 1 + j) = Some e.2).
    { intros j e Hj. replace (bPtr + 1 + j) with (bPtr + S j) by lia. by apply Hb. }
    cbn [length] in Hf |- *.
    replace (aPtr + S (length sa)) with (aPtr + 1 + length sa) by lia.
    replace (bPtr + S (length sb)) with (bPtr + 1 + length sb) by lia.
    destruct (decide (a = b)) as [->|Hne].
    + rewrite Hav, Hbv. cbn [mbind result_bind]. rewrite IH by (done || lia).
      rewrite foldl_app. by destruct (decide (number_mul x y ≠ 0%Z)).
    + destruct (decide (a < b)).
      * replace (bPtr + 1 + length sb) with (bPtr + length ((b, y) :: sb)) by (cbn; lia).
        apply IH; [done|done|cbn; lia].
      * replace (aPtr + 1 + length sa) with (aPtr + length ((a, x) :: sa)) by (cbn; lia).
        apply IH; [done|done|cbn; lia].
Qed.

Lemma hadamard_row_holds this matrix rsA rsB ra rb rs i :
  holds this rsA → holds matrix rsB → rsA !! i = Some ra → rsB !! i = Some rb →
  hadamard_row this matrix (layout rs) i = Ok (layout (rs ++ [common ra rb])).
Proof.
  intros HA HB Ha Hb. unfold hadamard_row.
  destruct (holds_bounds _ _ HA _ _ Ha) as [-> ->].
  destruct (holds_bounds _ _ HB _ _ Hb) as [-> ->].
  rewrite hadamard_walk_common.
  - cbn. by rewrite <- close_row_layout.
  - intros j e Hj. split; [by eapply holds_read_col | by eapply holds_read_value].
  - intros j e Hj. split; [by eapply holds_read_col | by eapply holds_read_value].
  - lia.
Qed.

Lemma hadamard_rows this matrix rsA rsB l rs :
  holds this rsA → holds matrix rsB →
  Forall (λ i, i < length rsA ∧ i < length rsB) l →
  foldlM (hadamard_row this matrix) (layout rs) l =
  Ok (layout (rs ++ ((λ i, common (default [] (rsA !! i)) (default [] (rsB !! i))) <$> l))).
Proof.
  intros HA HB Hl. revert rs. induction Hl as [|i l [Hia Hib] Hl IH]; intros rs.
  - by rewrite app_nil_r.
  - destruct (lookup_lt_is_Some_2 _ _ Hia) as [ra Hra].
    destruct (lookup_lt_is_Some_2 _ _ Hib) as [rb Hrb].
    cbn [foldlM]. rewrite (hadamard_row_holds this matrix rsA rsB ra rb rs i) by done.
    cbn [mbind result_bind]. rewrite IH, fmap_cons, Hra, Hrb. cbn [default].
    by rewrite <- app_assoc.
Qed.

Lemma hadamard_holds this matrix rsA rsB :
  holds this rsA → holds matrix rsB →
  length rsA = Z.to_nat (rows this) → length rsB = Z.to_nat (rows matrix) →
  rows this = rows matrix → cols this = cols matrix →
  hadamard this matrix =
  Ok (with_arrays (rows this) (cols this)
        (layout ((λ i, common (default [] (rsA !! i)) (default [] (rsB !! i)))
                   <$> upto (rows this)))).
Proof.
  intros HA HB HlA HlB Hr Hc. unfold hadamard.
  rewrite decide_False by (intros [?|?]; done).
  change empty_arrays with (layout []).
  rewrite (hadamard_rows this matrix rsA rsB _ [] HA HB); [reflexivity|].
  apply Forall_forall. intros i Hi. unfold upto in Hi. apply elem_of_seq in Hi. lia.
Qed.

(** ** What the walk finds in sorted rows *)

Lemma common_sublist ra rb : (common ra rb).*1 `sublist_of` ra.*1.
Proof.
  revert rb. induction ra as [|[a x] ra IHa]; intros rb; [by rewrite common_nil_l|].
  induction rb as [|[b y] rb IHb]; [apply sublist_nil_l|].
  rewrite common_cons. destruct (decide (a = b)) as [->|Hne].
  - rewrite fmap_app, fmap_cons. destruct (decide (number_mul x y ≠ 0%Z)); cbn.
    + apply sublist_skip, IHa.
    + apply sublist_cons, IHa.
  - destruct (decide (a < b)); [|done]. rewrite fmap_cons. apply sublist_cons, IHa.
Qed.

Lemma common_values ra rb : Forall (λ e, e.2 ≠ 0%Z) (common ra rb).
Proof.
  revert rb. induction ra as [|[a x] ra IHa]; intros rb; [by rewrite common_nil_l|].
  induction rb as [|[b y] rb IHb]; [done|].
  rewrite common_cons. destruct (decide (a = b)) as [->|Hne].
  - apply Forall_app. split; [|apply IHa].
    destruct (decide (number_mul x y ≠ 0%Z)); [by constructor|constructor].
  - destruct (decide (a < b)); [apply IHa|done].
Qed.

Lemma StronglySorted_sublist {A} (R : relation A) (l1 l2 : list A) :
  l1 `sublist_of` l2 → StronglySorted R l2 → StronglySorted R l1.
Proof.
  induction 1 as [|x l1 l2 Hsub IH|x l1 l2 Hsub IH]; intros Hs; [done| |].
  - apply StronglySorted_inv in Hs as [Hs Hall]. constructor; [by apply IH|].
    eapply Forall_forall. intros y Hy. eapply Forall_forall in Hall; [exact Hall|].
    by eapply sublist_subseteq.
  - apply StronglySorted_inv in Hs as [Hs _]. by apply IH.
Qed.

Lemma common_clean ra rb : Sorted lt ra.*1 → clean_row (common ra rb).
Proof.
  intros Hs. split; [|apply common_values].
  apply StronglySorted_Sorted. eapply StronglySorted_sublist; [apply common_sublist|].
  apply Sorted_StronglySorted; [intros ???; lia|done].
Qed.

Lemma acc_get_above (r : entries) c :
  Forall (λ k, c < k) r.*1 → acc_get r c = None.
Proof.
  intros Hall. apply acc_get_None. intros Hin.
  eapply Forall_forall in Hall; [|exact Hin]. lia.
Qed.

Lemma common_value ra rb c :
  StronglySorted lt ra.*1 → StronglySorted lt rb.*1 →
  default 0%Z (acc_get (common ra rb) c) =
  number_mul (default 0%Z (acc_get ra c)) (default 0%Z (acc_get rb c)).
Proof.
  revert rb. induction ra as [|[a x] ra IHa]; intros rb Ha Hb.
  { rewrite common_nil_l. cbn [acc_get default]. by rewrite number_mul_0_l. }
  induction rb as [|[b y] rb IHb].
  { rewrite common_nil_r. cbn [acc_get default]. by rewrite number_mul_0_r. }
  rewrite fmap_cons in Ha, Hb. cbn [fst] in Ha, Hb.
  pose proof Ha as Ha0. pose proof Hb as Hb0.
  apply StronglySorted_inv in Ha as [Ha Halla]. apply StronglySorted_inv in Hb as [Hb Hallb].
  rewrite common_cons. destruct (decide (a = b)) as [->|Hne].
  - assert (Hrest : acc_get (common ra rb) b = None).
    { apply acc_get_None. intros Hin.
      eapply sublist_subseteq in Hin; [|apply common_sublist].
      eapply Forall_forall in Halla; [|exact Hin]. lia. }
    specialize (IHa rb Ha Hb). cbn [acc_get].
    destruct (decide (b = c)) as [->|Hc].
    + destruct (decide (number_mul x y ≠ 0%Z)) as [Hnz|Hz]; cbn [app acc_get].
      * by rewrite decide_True.
      * rewrite Hrest. cbn [default from_option]. unfold id.
        by destruct (decide (number_mul x y = 0%Z)) as [->|].
    + destruct (decide (number_mul x y ≠ 0%Z)) as [Hnz|Hz]; cbn [app acc_get].
      * by rewrite decide_False.
      * done.
  - destruct (decide (a < b)) as [Hlt|Hge].
    + rewrite (IHa ((b, y) :: rb) Ha) by (by rewrite fmap_cons).
      cbn [acc_get]. destruct (decide (a = c)) as [->|Hc]; [|done].
      rewrite (acc_get_above ra c) by done.
      rewrite decide_False by lia.
      rewrite (acc_get_above rb c).
      { cbn [default from_option]. by rewrite !number_mul_0_r. }
      eapply Forall_impl; [exact Hallb|]. intros k Hk. cbn in Hk. lia.
    + rewrite IHb by done.
      cbn [acc_get]. destruct (decide (b = c)) as [->|Hc]; [|done].
      rewrite decide_False by lia.
      rewrite (acc_get_above rb c) by done.
      rewrite (acc_get_above ra c).
      { cbn [default from_option]. by rewrite !number_mul_0_l. }
      eapply Forall_impl; [exact Halla|]. intros k Hk. cbn in Hk. lia.
Qed.



(** X24.  The result of [hadamard] is a store of the data model as soon as the
    columns of the receiver are strictly increasing: it has the shape of the
    operands, the layout and the three invariants. *)
Theorem hadamard_closed (A B : Matrix) :
  structured A → structured B → sorted_columns A →
  rows A = rows B → cols A = cols B →
  ∃ C, hadamard A B = Ok C ∧ rows C = rows A ∧ cols C = cols A ∧ csr_invariants C.
Proof.
  intros HsA HsB HoA Hr Hc.
  pose proof (structured_holds A HsA) as HA. pose proof (structured_holds B HsB) as HB.
  pose proof (holds_length _ _ HA (proj1 HsA)) as HlA.
  pose proof (holds_length _ _ HB (proj1 HsB)) as HlB.
  rewrite (hadamard_holds A B _ _ HA HB HlA HlB Hr Hc).
  eexists. split; [reflexivity|]. split; [done|]. split; [done|].
  match goal with |- csr_invariants (with_arrays _ _ (layout ?rs)) => set (rsC := rs) end.
  pose proof (holds_with_arrays (rows A) (cols A) rsC) as HC.
  pose proof (sorted_columns_rows _ _ HA HoA) as Hsorted.
  destruct (holds_clean _ _ HC) as (Hs & Hz & Hmono & _).
  { apply Forall_fmap, Forall_forall. intros i _. apply common_clean.
    destruct (rows_of A !! i) as [ra|] eqn:Hra; [|constructor].
    by eapply Forall_lookup_1 in Hsorted. }
  split; [|done].
  destruct HsA as [HwA _].
  eapply holds_well_shaped; [exact HC| | | |]; cbn [rows cols with_arrays].
  - unfold rsC, upto. by rewrite length_fmap, length_seq.
  - apply HwA.
  - apply HwA.
  - apply Forall_forall. intros k Hk.
    apply elem_of_concat_keys in Hk as (i & r & Hi & Hk).
    unfold rsC in Hi. rewrite list_lookup_fmap in Hi.
    destruct (upto (rows A) !! i) as [i'|]; [|done]. injection Hi as <-.
    eapply sublist_subseteq in Hk; [|apply common_sublist].
    by eapply structured_keys.
Qed.

Lemma hadamard_closed_witness :
  ∃ C, hadamard m_1234 m_untidy = Ok C ∧ rows C = 2%Z ∧ cols C = 2%Z ∧ csr_invariants C.
Proof.
  apply (hadamard_closed m_1234 m_untidy);
    [by_evaluation | by_evaluation | by_evaluation | reflexivity | reflexivity].
Defined.

(** ** Loops that always go on *)

Lemma foldlM_Ok {A B} (f : B → A → result B) (g : B → A → B) b l :
  (∀ b x, x ∈ l → f b x = Ok (g b x)) → foldlM f b l = Ok (foldl g b l).
Proof.
  revert b. induction l as [|x l IH]; intros b Hf; [done|].
  cbn. rewrite Hf by left. cbn. apply IH. intros b' y Hy. apply Hf. by right.
Qed.

Lemma foldl_ext_in {A B} (f g : B → A → B) b l :
  (∀ b x, x ∈ l → f b x = g b x) → foldl f b l = foldl g b l.
Proof.
  revert b. induction l as [|x l IH]; intros b Hf; [done|].
  cbn. rewrite Hf by left. apply IH. intros b' y Hy. apply Hf. by right.
Qed.

Lemma foldl_id {A B} (f : B → A → B) b l :
  (∀ b x, x ∈ l → f b x = b) → foldl f b l = b.
Proof.
  revert b. induction l as [|x l IH]; intros b Hf; [done|].
  cbn. rewrite Hf by left. apply IH. intros b' y Hy. apply Hf. by right.
Qed.

(** The cells of a row read one by one and the stored entries of the row:
    with increasing columns and no stored zero, the callback sees the same
    values in the same order once the cells that read 0 are passed over. *)
Lemma foldl_cells_entries {St} (h : St → nat → Z → St) (r : entries) a n s :
  StronglySorted lt r.*1 → Forall (λ e, a ≤ e.1 < a + n ∧ e.2 ≠ 0%Z) r →
  foldl (λ s j, let v := default 0%Z (acc_get r j) in
                if decide (v = 0%Z) then s else h s j v) s (seq a n) =
  foldl (λ s e, h s e.1 e.2) s r.
Proof.
  revert a r s. induction n as [|n IH]; intros a r s Hs Hr.
  - destruct r as [|e r]; [done|]. apply Forall_cons in Hr as [[? _] _]. lia.
  - destruct r as [|[c v] r].
    { apply foldl_id. intros s' j _. cbn. by rewrite decide_True. }
    cbn [seq foldl].
    rewrite fmap_cons in Hs. apply StronglySorted_inv in Hs as [Hs Hall].
    apply Forall_cons in Hr as [[Hc Hv] Hr]. cbn [fst snd] in *.
    destruct (decide (c = a)) as [->|Hne].
    + cbn [acc_get]. rewrite (decide_True (P := a = a)) by done. cbn [default].
      rewrite (decide_False (P := v = 0%Z)) by done. cbn [foldl fst snd].
      rewrite <- (IH (S a) r).
      * apply foldl_ext_in. intros s' j Hj. apply elem_of_seq in Hj.
        cbn [acc_get]. by rewrite (decide_False (P := a = j)) by lia.
      * done.
      * apply Forall_forall. intros e He. split.
        -- eapply Forall_forall in Hr; [|exact He].
           eapply Forall_forall in Hall; [|apply list_elem_of_fmap; by exists e].
           lia.
        -- eapply Forall_forall in Hr; [|exact He]. tauto.
    + rewrite (acc_get_above ((c, v) :: r) a).
      2:{ rewrite fmap_cons. constructor; [cbn; lia|].
          eapply Forall_impl; [exact Hall|]. intros k Hk. cbn in Hk. lia. }
      cbn [default]. rewrite (decide_True (P := 0%Z = 0%Z)) by done.
      apply (IH (S a) ((c, v) :: r)).
      * rewrite fmap_cons. by constructor.
      * constructor; [split; [cbn; lia|done]|].
        apply Forall_forall. intros e He.
        eapply Forall_forall in Hr; [|exact He]. destruct Hr as [He1 He2].
        split; [|done].
        eapply Forall_forall in Hall; [|apply list_elem_of_fmap; by exists e].
        lia.
Qed.

(** ** Strict and full iteration *)

Lemma csr_row m rs k r :
  holds m rs → csr_invariants m → rs !! k = Some r →
  StronglySorted lt r.*1 ∧
  Forall (λ e, 0 ≤ e.1 < 0 + Z.to_nat (cols m) ∧ e.2 ≠ 0%Z) r.
Proof.
  intros Hm (Hw & Hs & Hz & _) Hk. split.
  - apply Sorted_StronglySorted; [intros ???; lia|].
    pose proof (sorted_columns_rows _ _ Hm Hs) as H. by eapply Forall_lookup_1 in H.
  - pose proof (no_stored_zero_rows _ _ Hm Hz) as Hnz.
    eapply Forall_lookup_1 in Hnz; [|exact Hk].
    apply Forall_forall. intros e He. split.
    + assert ((Z.of_nat e.1 < cols m)%Z); [|lia].
      apply (structured_keys m rs Hm Hw k). rewrite Hk. cbn.
      apply list_elem_of_fmap. by exists e.
    + by eapply Forall_forall in Hnz.
Qed.

Lemma strict_row_entries {St} m rs k r (h : St → Z → nat → St) s :
  holds m rs → rs !! k = Some r →
  foldlM (λ s i, col ← read (COL_INDEX m) i; value ← read (V m) i; Ok (h s value col))
         s (row_range m k) = Ok (foldl (λ s e, h s e.2 e.1) s r).
Proof.
  intros Hm Hk.
  rewrite (foldlM_row m rs k r _ (λ s e, Ok (h s e.2 e.1)) s Hm Hk).
  - by apply foldlM_Ok.
  - intros s' j e Hc Hv. unfold read. by rewrite Hc, Hv.
Qed.

Lemma full_row_entries {St} m rs k r (h : St → Z → nat → St) s :
  holds m rs → csr_invariants m → rs !! k = Some r →
  foldlM (λ s col, value ← get m k col; Ok (skipping_zero1 h s value col))
         s (upto (cols m)) = Ok (foldl (λ s e, h s e.2 e.1) s r).
Proof.
  intros Hm Hinv Hk. destruct (csr_row m rs k r Hm Hinv Hk) as [Hs Hr].
  rewrite (foldlM_Ok _ (λ s j, let v := default 0%Z (acc_get r j) in
                               if decide (v = 0%Z) then s else h s v j)).
  - unfold upto. by rewrite (foldl_cells_entries (λ s j v, h s v j)).
  - intros s' j _. rewrite (get_holds _ _ _ _ Hm) by (by eapply lookup_lt_Some).
    unfold cell. rewrite Hk. done.
Qed.

(** X10.  The same for one row: strict [forEachRow] is the full iteration of the
    row with the cells that read 0 passed over. *)
Theorem forEachRow_strict (St : Type) (m : Matrix) (row : nat)
    (callback : St → Z → nat → St) (s : St) :
  csr_invariants m → (Z.of_nat row < rows m)%Z →
  forEachRow m row callback true s = forEachRow m row (skipping_zero1 callback) false s.
Proof.
  intros Hinv Hrow.
  assert (Hs : structured m) by (destruct Hinv as (? & _ & _ & ?); by split).
  pose proof (structured_holds m Hs) as Hm.
  pose proof (holds_length _ _ Hm (proj1 Hs)) as Hlen.
  destruct (lookup_lt_is_Some_2 (rows_of m) row) as [r Hr]; [lia|].
  unfold forEachRow.
  rewrite (strict_row_entries m _ row r callback s Hm Hr).
  by rewrite (full_row_entries m _ row r callback s Hm Hinv Hr).
Qed.

Lemma forEachRow_strict_witness :
  forEachRow m_4x6 2 (λ s v c, s ++ [(c, v)]) true [] =
  forEachRow m_4x6 2 (skipping_zero1 (λ s v c, s ++ [(c, v)])) false [].
Proof.
  apply (forEachRow_strict (list (nat * Z)) m_4x6 2); [by_evaluation | reflexivity].
Defined.

(** X9.  On a store that satisfies the invariants, strict [forEach] calls the
    callback exactly as the full iteration does once the cells that read 0
    are passed over: same values, same positions, same order. *)
Theorem forEach_strict (St : Type) (m : Matrix)
    (callback : St → Z → nat → nat → St) (s : St) :
  csr_invariants m →
  forEach m callback true s = forEach m (skipping_zero callback) false s.
Proof.
  intros Hinv.
  assert (Hs : structured m) by (destruct Hinv as (? & _ & _ & ?); by split).
  pose proof (structured_holds m Hs) as Hm.
  pose proof (holds_length _ _ Hm (proj1 Hs)) as Hlen.
  unfold forEach. rewrite (holds_length_ROW_INDEX _ _ Hm). cbn [Nat.sub].
  rewrite Nat.sub_0_r, Hlen. fold (upto (rows m)).
  apply foldlM_ext_in. intros s' row Hrow. unfold upto in Hrow. apply elem_of_seq in Hrow.
  destruct (lookup_lt_is_Some_2 (rows_of m) row) as [r Hr]; [lia|].
  rewrite (strict_row_entries m _ row r (λ s v c, callback s v row c) s' Hm Hr).
  by rewrite <- (full_row_entries m _ row r (λ s v c, callback s v row c) s' Hm Hinv Hr).
Qed.

Lemma forEach_strict_witness :
  forEach m_4x6 (λ s v r c, s ++ [(r, c, v)]) true [] =
  forEach m_4x6 (skipping_zero (λ s v r c, s ++ [(r, c, v)])) false [].
Proof. apply (forEach_strict (list (nat * nat * Z)) m_4x6). by_evaluation. Defined.

Lemma find_in_row m col (r : entries) a :
  (∀ j e, r !! j = Some e →
          COL_INDEX m !! (a + j) = Some e.1 ∧ V m !! (a + j) = Some e.2) →
  match list_find (λ i, COL_INDEX m !! i = Some col) (seq a (length r)) with
  | Some (_, i) => ∃ v, V m !! i = Some v ∧ acc_get r col = Some v
  | None => acc_get r col = None
  end.
Proof.
  revert a. induction r as [|[c v] r IH]; intros a Hr; [done|].
  cbn [length seq list_find acc_get].
  destruct (Hr 0 (c, v) eq_refl) as [Hc Hv]. rewrite Nat.add_0_r in Hc, Hv.
  cbn [fst snd] in Hc, Hv. rewrite Hc.
  destruct (decide (c = col)) as [->|Hne].
  - rewrite decide_True by done. by exists v.
  - rewrite decide_False by congruence.
    specialize (IH (S a)).
    destruct (list_find (λ i, COL_INDEX m !! i = Some col) (seq (S a) (length r)))
      as [[k i]|]; cbn.
    + apply IH. intros j e Hj. replace (S a + j) with (a + S j) by lia. by apply Hr.
    + apply IH. intros j e Hj. replace (S a + j) with (a + S j) by lia. by apply Hr.
Qed.

(** X11.  The same for one column, on any store with the layout of the data
    model that stores no zero: strict [forEachCol] is the full iteration of
    the column with the cells that read 0 passed over. *)
Theorem forEachCol_strict (St : Type) (m : Matrix) (col : nat)
    (callback : St → Z → nat → St) (s : St) :
  structured m → no_stored_zero m →
  forEachCol m col callback true s = forEachCol m col (skipping_zero1 callback) false s.
Proof.
  intros Hs Hz. pose proof (structured_holds m Hs) as Hm.
  pose proof (holds_length _ _ Hm (proj1 Hs)) as Hlen.
  pose proof (no_stored_zero_rows _ _ Hm Hz) as Hnz.
  unfold forEachCol. rewrite (holds_length_ROW_INDEX _ _ Hm). cbn [Nat.sub].
  rewrite Nat.sub_0_r, Hlen. fold (upto (rows m)).
  apply foldlM_ext_in. intros s' row Hrow. unfold upto in Hrow. apply elem_of_seq in Hrow.
  destruct (lookup_lt_is_Some_2 (rows_of m) row) as [r Hr]; [lia|].
  rewrite (get_holds _ _ _ _ Hm) by lia. unfold cell. rewrite Hr. cbn [mbind option_bind result_bind].
  rewrite (holds_row_range _ _ Hm _ _ Hr).
  pose proof (find_in_row m col r (offset (rows_of m) row)) as Hfind.
  destruct (list_find _ _) as [[k i]|].
  - destruct Hfind as (v & Hv & Hget).
    { intros j e Hj. split; [by eapply holds_read_col | by eapply holds_read_value]. }
    unfold read. rewrite Hv, Hget. cbn. unfold skipping_zero1.
    rewrite decide_False; [done|].
    apply acc_get_Some in Hget. eapply Forall_lookup_1 in Hnz; [|exact Hr].
    eapply Forall_forall in Hnz; [|exact Hget]. exact Hnz.
  - rewrite Hfind.
    { cbn. unfold skipping_zero1. by rewrite decide_True. }
    intros j e Hj. split; [by eapply holds_read_col | by eapply holds_read_value].
Qed.

Lemma forEachCol_strict_witness :
  forEachCol m_4x6 3 (λ s v r, s ++ [(r, v)]) true [] =
  forEachCol m_4x6 3 (skipping_zero1 (λ s v r, s ++ [(r, v)])) false [].
Proof.
  apply (forEachCol_strict (list (nat * Z)) m_4x6 3); by_evaluation.
Defined.

(** ** The getter [data] *)

Lemma forEach_raising_pure {St} m (callback : St → Z → nat → nat → St) s :
  forEach_raising m (λ s v r c, Normal (callback s v r c)) s =
  (s' ← forEach m callback true s; Ok (Normal s')).
Proof.
  unfold forEach_raising, forEach.
  generalize (seq 0 (length (ROW_INDEX m) - 1)). intros l. revert s.
  induction l as [|row l IH]; intros s; [done|]. cbn [foldlM].
  assert (Hrow : ∀ js s,
    foldlM (λ s i, match s with
                   | TypeError => Ok TypeError
                   | Normal s => col ← read (COL_INDEX m) i; value ← read (V m) i;
                                 Ok (Normal (callback s value row col))
                   end) (Normal s) js =
    (s' ← foldlM (λ s i, col ← read (COL_INDEX m) i; value ← read (V m) i;
                         Ok (callback s value row col)) s js; Ok (Normal s'))).
  { intros js. induction js as [|i js IHjs]; intros s0; [done|]. cbn [foldlM].
    destruct (read (COL_INDEX m) i) as [col| |]; [|done..]. cbn [mbind result_bind].
    destruct (read (V m) i) as [value| |]; [|done..]. cbn [mbind result_bind].
    apply IHjs. }
  rewrite Hrow.
  destruct (foldlM _ s (row_range m row)) as [s'| |]; [|done..].
  cbn [mbind result_bind]. apply IH.
Qed.

Lemma acc_get_app (a b : entries) k :
  acc_get (a ++ b) k = match acc_get a k with Some v => Some v | None => acc_get b k end.
Proof.
  induction a as [|[k' v'] a IH]; [done|]. cbn. by destruct (decide (k' = k)).
Qed.

(** The writes of the entries of one row into a row of zeros. *)
Lemma row_writes (r : entries) n :
  NoDup r.*1 → Forall (λ e, e.1 < n) r →
  foldl (λ row e, js_write row e.1 e.2) (replicate n (Some 0%Z)) r =
  (λ j, Some (default 0%Z (acc_get r j))) <$> seq 0 n.
Proof.
  induction r as [|[c v] r IH] using rev_ind; intros Hnd Hr.
  - cbn. apply list_eq. intros j. rewrite list_lookup_fmap.
    destruct (decide (j < n)).
    + rewrite lookup_replicate_2 by done.
      by rewrite (proj2 (lookup_seq 0 n j j)) by done.
    + rewrite !lookup_ge_None_2; [done| |]; rewrite ?length_replicate, ?length_seq; lia.
  - rewrite fmap_app in Hnd. apply NoDup_app in Hnd as (Hnd & Hdisj & _).
    apply Forall_app in Hr as [Hr Hc]. rewrite Forall_singleton in Hc. cbn in Hc.
    rewrite foldl_app. cbn [foldl fst snd]. rewrite IH by done.
    unfold js_write. rewrite decide_True by (by rewrite length_fmap, length_seq).
    apply list_eq. intros j. rewrite list_lookup_fmap.
    destruct (decide (j = c)) as [->|Hne].
    + rewrite list_lookup_insert_eq by (by rewrite length_fmap, length_seq).
      rewrite (proj2 (lookup_seq 0 n c c)) by done. cbn.
      rewrite acc_get_app. cbn. rewrite decide_True by done.
      assert (acc_get r c = None) as ->; [|done].
      apply acc_get_None. intros Hin. apply (Hdisj c Hin). cbn. by left.
    + rewrite list_lookup_insert_ne by done. rewrite list_lookup_fmap.
      destruct (seq 0 n !! j) as [j'|] eqn:Hj; [|done].
      apply lookup_seq in Hj as [-> _]. cbn. rewrite acc_get_app. cbn.
      rewrite decide_False by done. by destruct (acc_get r j).
Qed.

Lemma grid_row_writes m rs k (r : entries) (d : list (list (option Z))) row0 :
  holds m rs → rs !! k = Some r → d !! k = Some row0 →
  foldlM (λ s i,
            match s with
            | TypeError => Ok TypeError
            | Normal s =>
                col ← read (COL_INDEX m) i;
                value ← read (V m) i;
                Ok (grid_write s value k col)
            end)
         (Normal d) (row_range m k) =
  Ok (Normal (<[k := foldl (λ row e, js_write row e.1 e.2) row0 r]> d)).
Proof.
  intros Hm Hk Hd.
  rewrite (foldlM_row m rs k r _
             (λ s e, match s with
                     | TypeError => Ok TypeError
                     | Normal s => Ok (grid_write s e.2 k e.1)
                     end) (Normal d) Hm Hk).
  2:{ intros [s|] j e Hc Hv; [|done]. unfold read. by rewrite Hc, Hv. }
  clear Hk. revert d row0 Hd. induction r as [|e r IH]; intros d row0 Hd.
  - cbn. by rewrite list_insert_id.
  - assert (Hw : grid_write d e.2 k e.1 = Normal (<[k := js_write row0 e.1 e.2]> d))
      by (unfold grid_write; by rewrite Hd).
    cbn [foldlM foldl]. rewrite Hw. cbn [mbind result_bind].
    rewrite (IH _ (js_write row0 e.1 e.2)).
    + by rewrite list_insert_insert_eq.
    + apply list_lookup_insert_eq. by eapply lookup_lt_Some.
Qed.

Lemma grid_rows_writes m rs n R k :
  holds m rs → length rs = R →
  Forall (λ r : entries, NoDup r.*1 ∧ Forall (λ e, e.1 < n) r) rs →
  k ≤ R →
  foldlM (λ s row,
            foldlM (λ s i,
                      match s with
                      | TypeError => Ok TypeError
                      | Normal s =>
                          col ← read (COL_INDEX m) i;
                          value ← read (V m) i;
                          Ok (grid_write s value row col)
                      end)
                   s (row_range m row))
         (Normal ((λ i, if decide (i < k)
                        then (λ j, Some (cell rs i j)) <$> seq 0 n
                        else replicate n (Some 0%Z)) <$> seq 0 R))
         (seq k (R - k)) =
  Ok (Normal ((λ i, (λ j, Some (cell rs i j)) <$> seq 0 n) <$> seq 0 R)).
Proof.
  intros Hm HR Hrs. remember (R - k) as fuel eqn:Hfuel.
  revert k Hfuel. induction fuel as [|fuel IH]; intros k Hfuel Hk.
  - cbn. do 2 f_equal. apply list_fmap_ext. intros p i Hi.
    apply lookup_seq in Hi as [-> Hi]. rewrite decide_True by lia. done.
  - cbn [seq foldlM].
    destruct (lookup_lt_is_Some_2 rs k) as [r Hr]; [lia|].
    rewrite (grid_row_writes m rs k r _ (replicate n (Some 0%Z)) Hm Hr).
    2:{ rewrite list_lookup_fmap.
        rewrite (proj2 (lookup_seq 0 R k k)) by (split; [done|lia]). cbn.
        by rewrite decide_False by lia. }
    cbn [mbind result_bind].
    eapply Forall_lookup_1 in Hrs as [Hnd Hb]; [|exact Hr].
    rewrite row_writes by done.
    rewrite <- (IH (S k)) by lia. do 2 f_equal.
    apply list_eq. intros i. rewrite !list_lookup_fmap.
    destruct (decide (i = k)) as [->|Hne].
    + rewrite list_lookup_insert_eq by (rewrite length_fmap, length_seq; lia).
      rewrite (proj2 (lookup_seq 0 R k k)) by (split; [done|lia]). cbn.
      rewrite decide_True by lia. f_equal. apply list_fmap_ext. intros _ j _.
      unfold cell. by rewrite Hr.
    + rewrite list_lookup_insert_ne by done. rewrite list_lookup_fmap.
      destruct (seq 0 R !! i) as [i'|] eqn:Hi; [|done].
      apply lookup_seq in Hi as [-> _]. cbn.
      destruct (decide (i < k)), (decide (i < S k)); try done; lia.
Qed.

Lemma grid_no_holes (l : list (list Z)) (g : list (list Z)) :
  foldlM (λ (g : list (list Z)) (r : list (option Z)), r' ← no_holes r; Ok (g ++ [r']))
         g ((λ r : list Z, Some <$> r) <$> l) = Ok (g ++ l).
Proof.
  revert g. induction l as [|r l IH]; intros g; [by rewrite app_nil_r|].
  rewrite fmap_cons. cbn [foldlM].
  rewrite no_holes_Some. cbn [mbind result_bind].
  rewrite IH. by rewrite <- app_assoc.
Qed.

Lemma data_holds m rs :
  holds m rs → length rs = Z.to_nat (rows m) → (0 ≤ rows m)%Z → (0 ≤ cols m)%Z →
  Forall (λ r : entries, NoDup r.*1 ∧ Forall (λ e, e.1 < Z.to_nat (cols m)) r) rs →
  data m = Ok (Normal (grid (cell rs) (rows m) (cols m))).
Proof.
  intros Hm Hlen Hr Hc Hrs. unfold data.
  rewrite decide_False by lia. rewrite decide_False by lia.
  unfold forEach_raising. rewrite (holds_length_ROW_INDEX _ _ Hm). cbn [Nat.sub].
  rewrite Nat.sub_0_r.
  pose proof (grid_rows_writes m rs (Z.to_nat (cols m)) (length rs) 0 Hm eq_refl Hrs
                ltac:(lia)) as Hloop.
  rewrite Nat.sub_0_r in Hloop.
  assert (Hinit : (λ i, if decide (i < 0)
                        then (λ j, Some (cell rs i j)) <$> seq 0 (Z.to_nat (cols m))
                        else replicate (Z.to_nat (cols m)) (Some 0%Z)) <$> seq 0 (length rs)
                  = replicate (Z.to_nat (rows m)) (replicate (Z.to_nat (cols m)) (Some 0%Z))).
  { rewrite <- Hlen. apply list_eq. intros i. rewrite list_lookup_fmap.
    destruct (decide (i < length rs)).
    - rewrite lookup_replicate_2 by done.
      by rewrite (proj2 (lookup_seq 0 _ i i)) by done.
    - rewrite !lookup_ge_None_2; [done| |]; rewrite ?length_replicate, ?length_seq; lia. }
  rewrite Hinit in Hloop. rewrite Hloop. cbn [mbind result_bind].
  assert (Hfinal : (λ i, (λ j, Some (cell rs i j)) <$> seq 0 (Z.to_nat (cols m)))
                     <$> seq 0 (length rs)
                   = (λ r : list Z, Some <$> r) <$> grid (cell rs) (rows m) (cols m)).
  { unfold grid, upto. rewrite <- Hlen, <- list_fmap_compose.
    apply list_fmap_ext. intros _ i _. cbn. by rewrite <- list_fmap_compose. }
  rewrite Hfinal, grid_no_holes. done.
Qed.

Lemma data_grid (m : Matrix) :
  structured m → distinct_columns m →
  data m = Ok (Normal (grid (dense_of m) (rows m) (cols m))).
Proof.
  intros Hs Hd. pose proof (structured_holds m Hs) as Hm.
  pose proof (holds_length _ _ Hm (proj1 Hs)) as Hlen.
  rewrite (data_holds m _ Hm Hlen); [| apply Hs | apply Hs |].
  - do 2 f_equal. symmetry. apply grid_ext. intros i j Hi _.
    apply dense_of_holds; [done|lia].
  - pose proof (distinct_columns_rows _ _ Hm Hd) as Hnd.
    apply Forall_lookup. intros k r Hk. split; [by eapply Forall_lookup_1 in Hnd|].
    apply Forall_forall. intros e He.
    assert ((Z.of_nat e.1 < cols m)%Z); [|lia].
    apply (structured_keys m _ Hm (proj1 Hs) k). rewrite Hk. cbn.
    apply list_elem_of_fmap. by exists e.
Qed.

(** X8.  On a store with the layout of the data model in which no row stores a
    column twice, the getter [data] returns the [rows] x [cols] grid whose
    cell [(i, j)] is what [get(i, j)] reads, and [toArray()] is that grid row
    after row. *)
Theorem data_cells (m : Matrix) :
  structured m → distinct_columns m →
  data m = Ok (Normal (grid (dense_of m) (rows m) (cols m))) ∧
  toArray m = Ok (grid_cells (dense_of m) (rows m) (cols m)).
Proof.
  intros Hs Hd. split; [by apply data_grid|].
  pose proof (structured_holds m Hs) as Hm.
  pose proof (holds_length _ _ Hm (proj1 Hs)) as Hlen.
  apply toArray_cells. intros i j Hi Hj.
  rewrite (get_holds _ _ _ _ Hm) by lia.
  by rewrite (dense_of_holds _ _ _ _ Hm) by lia.
Qed.

Lemma data_cells_witness :
  data m_1234 = Ok (Normal [[1; 2]; [3; 4]]%Z) ∧ toArray m_1234 = Ok [1; 2; 3; 4]%Z.
Proof. apply (data_cells m_1234); by_evaluation. Defined.

Lemma full_grid_cell (g : list (list Z)) (c : nat) i j :
  Forall (λ r, length r = c) g → i < length g → j < c →
  ∃ x, g !! i ≫= (.!! j) = Some x ∧ numeric_cell (full_grid g) i j = Some x.
Proof.
  intros Hg Hi Hj. destruct (lookup_lt_is_Some_2 g i Hi) as [r Hr].
  eapply Forall_lookup_1 in Hg; [|exact Hr].
  destruct (lookup_lt_is_Some_2 r j) as [x Hx]; [lia|].
  exists x. rewrite Hr. cbn. split; [done|].
  unfold numeric_cell, full_grid. rewrite list_lookup_fmap, Hr. cbn.
  by rewrite list_lookup_fmap, Hx.
Qed.

(** X6.  Round trip: the getter [data] of the store built from a full grid of
    numbers gives the grid back. *)
Theorem construct_data (g : list (list Z)) (c : nat) :
  Forall (λ r, length r = c) g →
  (m ← construct (Z.of_nat (length g)) (Z.of_nat c) (Some (full_grid g)); data m)
  = Ok (Normal g).
Proof.
  intros Hg.
  destruct (construct_holds (Z.of_nat (length g)) (Z.of_nat c) (full_grid g))
    as (m & -> & Hrows & Hcols & Hh).
  cbn [mbind result_bind].
  rewrite (data_holds m _ Hh); rewrite ?Hrows, ?Hcols; try lia.
  - do 2 f_equal.
    rewrite (grid_ext _ (λ i j, default 0%Z (numeric_cell (full_grid g) i j)))
      by (intros i j Hi Hj; by rewrite cell_dense, kept_value by lia).
    unfold grid, upto. rewrite !Nat2Z.id.
    apply list_eq. intros i. rewrite list_lookup_fmap.
    destruct (g !! i) as [r|] eqn:Hr.
    + pose proof (lookup_lt_Some _ _ _ Hr) as Hi.
      rewrite (proj2 (lookup_seq 0 _ i i)) by done. cbn. f_equal.
      pose proof Hg as Hg'. eapply Forall_lookup_1 in Hg'; [|exact Hr].
      apply list_eq. intros j. rewrite list_lookup_fmap.
      destruct (r !! j) as [x|] eqn:Hx.
      * pose proof (lookup_lt_Some _ _ _ Hx) as Hj.
        rewrite (proj2 (lookup_seq 0 _ j j)) by (split; [done|lia]). cbn. f_equal.
        destruct (full_grid_cell g c i j Hg Hi ltac:(lia)) as (x' & Hx' & ->).
        rewrite Hr in Hx'. cbn in Hx'. rewrite Hx in Hx'. by injection Hx' as <-.
      * rewrite lookup_ge_None_2; [done|]. rewrite length_seq.
        apply lookup_ge_None in Hx. lia.
    + rewrite lookup_ge_None_2; [done|]. rewrite length_seq. by apply lookup_ge_None.
  - rewrite length_fmap. unfold upto. by rewrite length_seq.
  - apply Forall_fmap, Forall_forall. intros i _. cbn.
    destruct (dense_row_keys (full_grid g) i 0 (Z.to_nat (Z.of_nat c))) as [Hs Hf].
    split.
    + apply Sorted_lt_NoDup. by apply StronglySorted_Sorted.
    + eapply Forall_impl; [exact Hf|]. intros e [? _]. cbn. lia.
Qed.

Lemma construct_data_witness :
  (m ← construct 2 3 (Some (full_grid [[1; 0; 2]; [0; 0; 3]]%Z)); data m)
  = Ok (Normal [[1; 0; 2]; [0; 0; 3]]%Z).
Proof.
  apply (construct_data [[1; 0; 2]; [0; 0; 3]]%Z 3). repeat constructor.
Defined.

(** ** Stores built without data *)

Lemma columns_empty m row : COL_INDEX m = [] → columns m row = [].
Proof. intros H. unfold columns, slice. rewrite H, drop_nil. apply take_nil. Qed.

(** X27.  [Matrix.identity(size)] stores nothing: every cell reads 0, the
    diagonal included, and yet its determinant is 1, since it has no row
    offset but the first. *)
Theorem identity_is_empty (size : Z) (i j : nat) :
  (m ← identity size; get m i j) = Ok 0%Z ∧
  (m ← identity size; determinant m) = Ok 1%Z.
Proof.
  split; [|reflexivity]. cbn [identity construct mbind result_bind].
  unfold get. by rewrite columns_empty.
Qed.

Lemma zeros_data (r c : Z) :
  ((0 ≤ r)%Z → (0 ≤ c)%Z →
   (m ← zeros r c; data m) =
   Ok (Normal (replicate (Z.to_nat r) (replicate (Z.to_nat c) 0%Z)))) ∧
  ((r < 0)%Z ∨ (0 < r)%Z ∧ (c < 0)%Z → (m ← zeros r c; data m) = Throw RangeError).
Proof.
  split.
  - intros Hr Hc. cbn [zeros construct mbind result_bind]. unfold data.
    cbn [rows cols]. rewrite !decide_False by lia.
    unfold forEach_raising. cbn [ROW_INDEX length Nat.sub seq foldlM mbind result_bind].
    pose proof (grid_no_holes (replicate (Z.to_nat r) (replicate (Z.to_nat c) 0%Z)) [])
      as Hg.
    rewrite !fmap_replicate in Hg. rewrite Hg. done.
  - intros Hrc. cbn [zeros construct mbind result_bind]. unfold data.
    cbn [rows cols]. destruct (decide (r < 0)%Z); [done|].
    rewrite decide_True; [done|lia].
Qed.

(** X28.  A store built without data has the single offset 0, so [set] on it
    writes every new entry into row 0: after [set(row, col, value)] with
    [row >= 1] the cell [(row, col)] reads [undefined] and the cell
    [(0, col)] reads [value]. *)
Theorem zeros_set_get (r c : Z) (row col : nat) (value : Z) :
  value ≠ 0%Z → 1 ≤ row →
  (m ← zeros r c; m' ← set m row col value; get m' row col) = Undefined ∧
  (m ← zeros r c; m' ← set m row col value; get m' 0 col) = Ok value.
Proof.
  intros Hv Hrow. cbn [zeros construct mbind result_bind].
  unfold set. rewrite columns_empty by done. cbn [indexOf].
  rewrite decide_True by done. cbn [ROW_INDEX V COL_INDEX length].
  assert (Hr : [0] !! row = (None : option nat)).
  { apply lookup_ge_None. cbn. lia. }
  rewrite Hr. cbn [mbind result_bind]. unfold get, columns.
  cbn [ROW_INDEX V COL_INDEX bump_offsets imap splice_insert take drop app].
  rewrite decide_False by lia.
  assert (Hr1 : [0] !! (row + 1) = (None : option nat)).
  { apply lookup_ge_None. cbn. lia. }
  rewrite Hr, Hr1. cbn. rewrite decide_True by done. cbn.
  unfold read. by rewrite Hr.
Qed.

Lemma zeros_set_get_witness :
  (m ← zeros 2 2; m' ← set m 1 0 5%Z; get m' 1 0) = Undefined ∧
  (m ← zeros 2 2; m' ← set m 1 0 5%Z; get m' 0 0) = Ok 5%Z.
Proof. apply (zeros_set_get 2 2 1 0 5%Z); [discriminate | lia]. Defined.

(** ** The determinant of a store with one row *)

Lemma omap_ext_in {A B} (f g : A → option B) (l : list A) :
  (∀ x, x ∈ l → f x = g x) → omap f l = omap g l.
Proof.
  induction l as [|x l IH]; intros Hfg; [done|]. cbn.
  rewrite (Hfg x) by left. rewrite IH by (intros; apply Hfg; by right). done.
Qed.

Lemma nonzero_values (l : list Z) :
  (omap (kept [Some (Some <$> l)] 0) (seq 0 (length l))).*2 = filter (λ x, x ≠ 0%Z) l.
Proof.
  induction l as [|x l IH] using rev_ind; [done|].
  rewrite length_app. cbn [length]. rewrite Nat.add_1_r, seq_S. cbn [Nat.add].
  rewrite omap_app, fmap_app, filter_app. f_equal.
  - rewrite <- IH. f_equal. apply omap_ext_in. intros j Hj. apply elem_of_seq in Hj.
    unfold kept, numeric_cell. cbn. rewrite !list_lookup_fmap.
    by rewrite lookup_app_l by lia.
  - assert (Hk : kept [Some (Some <$> (l ++ [x]))] 0 (length l) =
                 if decide (x ≠ 0%Z) then Some (length l, x) else None).
    { unfold kept, numeric_cell. cbn. rewrite list_lookup_fmap.
      rewrite lookup_app_r by done. by rewrite Nat.sub_diag. }
    cbn [omap list_omap]. rewrite Hk, filter_cons, filter_nil.
    by destruct (decide (x ≠ 0%Z)).
Qed.

(** X29.  The determinant of a store with one row never reports a matrix that is
    not square: for [Matrix.fromArray(arr)], a 1 x n store, it is the first
    number of [arr] that is not 0, or 0. *)
Theorem determinant_fromArray (arr : list Z) :
  (m ← fromArray arr; determinant m) =
  Ok (default 0%Z (head (filter (λ x, x ≠ 0%Z) arr))).
Proof.
  unfold fromArray.
  destruct (construct_holds 1 (Z.of_nat (length arr)) [Some (Some <$> arr)])
    as (m & -> & _ & _ & Hh).
  cbn [mbind result_bind]. unfold determinant, csrMatrixDeterminant.
  change (upto 1) with [0] in Hh. cbn [fmap list_fmap] in Hh.
  rewrite (holds_ROW_INDEX _ _ Hh). cbn [length seq fmap list_fmap determinant_steps].
  rewrite (holds_ROW_INDEX _ _ Hh). cbn [length seq fmap list_fmap Nat.sub].
  rewrite decide_False by done. rewrite decide_True by done.
  rewrite (holds_V _ _ Hh). cbn [concat]. rewrite app_nil_r.
  unfold dense_row, upto. rewrite Nat2Z.id, nonzero_values.
  by destruct (filter _ arr).
Qed.

(** ** Minors of a store *)

Lemma submatrix_holds matrix rs x c :
  holds matrix rs → x < length rs →
  ∃ sub, csrMatrixSubmatrix matrix x c = Ok sub ∧
         rows sub = cols matrix ∧ cols sub = rows matrix ∧
         holds sub (strike c <$> delete x rs).
Proof.
  intros Hm Hx. unfold csrMatrixSubmatrix.
  rewrite (holds_length_ROW_INDEX _ _ Hm). cbn [Nat.sub]. rewrite Nat.sub_0_r.
  assert (Hseq : seq 0 (length rs) = seq 0 x ++ x :: seq (S x) (length rs - S x)).
  { replace (length rs) with (x + S (length rs - S x)) at 1 by lia.
    by rewrite seq_app. }
  rewrite Hseq, foldlM_app.
  change empty_arrays with (layout []).
  rewrite (submatrix_rows_holds matrix rs x c _ [] Hm).
  2:{ apply Forall_forall. intros i Hi. apply elem_of_seq in Hi. lia. }
  cbn [mbind result_bind foldlM app].
  unfold submatrix_row at 2. rewrite decide_True by done. cbn [mbind result_bind].
  rewrite (submatrix_rows_holds matrix rs x c _ _ Hm).
  2:{ apply Forall_forall. intros i Hi. apply elem_of_seq in Hi. lia. }
  cbn [mbind result_bind]. eexists. split; [reflexivity|]. split; [done|]. split; [done|].
  assert (Heq : ((λ i, strike c (default [] (rs !! i))) <$> seq 0 x) ++
                ((λ i, strike c (default [] (rs !! i))) <$> seq (S x) (length rs - S x))
                = strike c <$> delete x rs).
  { rewrite delete_take_drop, fmap_app. f_equal.
    - apply list_eq. intros k. rewrite !list_lookup_fmap, lookup_take.
      destruct (decide (k < x)) as [Hk|Hk].
      + rewrite (proj2 (lookup_seq 0 x k k)) by done. cbn.
        destruct (lookup_lt_is_Some_2 rs k) as [r Hr]; [lia|]. by rewrite Hr.
      + rewrite lookup_ge_None_2 by (rewrite length_seq; lia). done.
    - apply list_eq. intros k. rewrite !list_lookup_fmap, lookup_drop.
      destruct (decide (k < length rs - S x)) as [Hk|Hk].
      + rewrite (proj2 (lookup_seq (S x) _ k (S x + k))) by done. cbn.
        destruct (lookup_lt_is_Some_2 rs (S (x + k))) as [r Hr]; [lia|]. by rewrite Hr.
      + rewrite lookup_ge_None_2 by (rewrite length_seq; lia).
        rewrite (lookup_ge_None_2 rs) by lia. done. }
  rewrite <- Heq. apply holds_with_arrays.
Qed.

(** X30.  The minor: [csrMatrixSubmatrix(m, x, c)] returns a store with one row
    offset less whose cell [(i, j)] reads the cell of [m] that is left at
    that place once row [x] and column [c] are deleted.  Its shape fields are
    those of [m], swapped and not reduced. *)
Theorem csrMatrixSubmatrix_get (m : Matrix) (x c i j : nat) :
  structured m → (Z.of_nat x < rows m)%Z → (Z.of_nat i + 1 < rows m)%Z →
  ∃ sub, csrMatrixSubmatrix m x c = Ok sub ∧
         rows sub = cols m ∧ cols sub = rows m ∧
         length (ROW_INDEX sub) = length (ROW_INDEX m) - 1 ∧
         get sub i j = get m (if decide (i < x) then i else S i)
                             (if decide (j < c) then j else S j).
Proof.
  intros Hs Hx Hi. pose proof (structured_holds m Hs) as Hm.
  pose proof (holds_length _ _ Hm (proj1 Hs)) as Hlen.
  destruct (submatrix_holds m _ x c Hm) as (sub & Hsub & Hr & Hc & Hh); [lia|].
  exists sub. split; [done|]. split; [done|]. split; [done|].
  assert (Hdel : length (delete x (rows_of m)) = length (rows_of m) - 1).
  { rewrite length_delete; [done|]. apply lookup_lt_is_Some_2. lia. }
  split.
  - rewrite (holds_length_ROW_INDEX _ _ Hh), (holds_length_ROW_INDEX _ _ Hm).
    rewrite length_fmap, Hdel. lia.
  - rewrite (get_holds _ _ _ _ Hh) by (rewrite length_fmap, Hdel; lia).
    rewrite (get_holds _ _ _ _ Hm) by (destruct (decide (i < x)); lia).
    f_equal. unfold cell. rewrite list_lookup_fmap.
    destruct (decide (i < x)) as [Hix|Hix].
    + rewrite list_lookup_delete_lt by done.
      destruct (rows_of m !! i) as [r|]; [|done]. cbn. by rewrite acc_get_strike.
    + rewrite list_lookup_delete_ge by lia.
      destruct (rows_of m !! S i) as [r|]; [|done]. cbn. by rewrite acc_get_strike.
Qed.

Lemma csrMatrixSubmatrix_get_witness :
  ∃ sub, csrMatrixSubmatrix m_4x6 1 3 = Ok sub ∧
         rows sub = 6%Z ∧ cols sub = 4%Z ∧ length (ROW_INDEX sub) = 4 ∧
         get sub 1 3 = get m_4x6 2 4.
Proof.
  apply (csrMatrixSubmatrix_get m_4x6 1 3 1 3); [by_evaluation | reflexivity | reflexivity].
Defined.

(** ** Stores that satisfy the invariants are determined by their cells *)

Lemma clean_rows_unique (r1 r2 : entries) :
  clean_row r1 → clean_row r2 →
  (∀ k, default 0%Z (acc_get r1 k) = default 0%Z (acc_get r2 k)) →
  r1 = r2.
Proof.
  intros [Hs1 Hz1] [Hs2 Hz2] Hval.
  pose proof (Sorted_lt_NoDup _ Hs1) as Hn1. pose proof (Sorted_lt_NoDup _ Hs2) as Hn2.
  assert (Hstep : ∀ (a b : entries), Forall (λ e, e.2 ≠ 0%Z) a →
            (∀ k, default 0%Z (acc_get a k) = default 0%Z (acc_get b k)) →
            ∀ k v, acc_get a k = Some v → acc_get b k = Some v).
  { intros a b Hza Hab k v Ha. specialize (Hab k). rewrite Ha in Hab. cbn in Hab.
    assert (v ≠ 0%Z) as Hv.
    { apply acc_get_Some in Ha. by eapply Forall_forall in Hza; [|exact Ha]. }
    destruct (acc_get b k) as [w|]; cbn in Hab; congruence. }
  assert (Hperm : r1 ≡ₚ r2).
  { apply NoDup_Permutation; [by eapply NoDup_fmap_1..|].
    intros [k v]. rewrite <- !acc_get_elem by done. split.
    - by apply Hstep.
    - apply Hstep; [done|]. intros k'. by rewrite Hval. }
  set (R := λ e1 e2 : nat * Z, e1.1 < e2.1).
  assert (HR : ∀ l : entries, Sorted lt l.*1 → StronglySorted R l).
  { intros l Hl. apply Sorted_StronglySorted; [intros ???; unfold R; lia|].
    induction l as [|e l IH]; [constructor|].
    rewrite fmap_cons in Hl. apply Sorted_inv in Hl as [Hl Hhd].
    constructor; [by apply IH|]. destruct l; constructor.
    by apply HdRel_inv in Hhd. }
  apply (StronglySorted_unique_strong R); [|by apply HR|by apply HR|done].
  intros x1 x2 _ _. unfold R. lia.
Qed.

Lemma clean_rows_of m rs :
  holds m rs → sorted_columns m → no_stored_zero m → Forall clean_row rs.
Proof.
  intros Hm Hs Hz.
  pose proof (sorted_columns_rows _ _ Hm Hs) as H1.
  pose proof (no_stored_zero_rows _ _ Hm Hz) as H2.
  apply Forall_lookup. intros k r Hk. split.
  - by eapply Forall_lookup_1 in H1.
  - by eapply Forall_lookup_1 in H2.
Qed.

Lemma holds_eq C D rs :
  holds C rs → holds D rs → rows C = rows D → cols C = cols D → C = D.
Proof.
  intros HC HD Hr Hc. unfold holds, arrays_of in HC, HD.
  destruct C, D. cbn in *. rewrite <- HD in HC. injection HC as -> -> ->. by subst.
Qed.

Lemma csr_unique (C D : Matrix) :
  csr_invariants C → csr_invariants D → rows C = rows D → cols C = cols D →
  (∀ i j, (Z.of_nat i < rows C)%Z → (Z.of_nat j < cols C)%Z → get C i j = get D i j) →
  C = D.
Proof.
  intros (HwC & HsC & HzC & HmC) (HwD & HsD & HzD & HmD) Hr Hc Hget.
  pose proof (structured_holds C (conj HwC HmC)) as HC.
  pose proof (structured_holds D (conj HwD HmD)) as HD.
  pose proof (holds_length _ _ HC HwC) as HlC.
  pose proof (holds_length _ _ HD HwD) as HlD.
  assert (Heq : rows_of C = rows_of D).
  { apply list_eq_same_length with (length (rows_of C)); [congruence|done|].
    intros i rc rd Hi Hrc Hrd.
    pose proof (clean_rows_of _ _ HC HsC HzC) as HcC.
    pose proof (clean_rows_of _ _ HD HsD HzD) as HcD.
    eapply Forall_lookup_1 in HcC; [|exact Hrc].
    eapply Forall_lookup_1 in HcD; [|exact Hrd].
    apply clean_rows_unique; [done..|]. intros k.
    destruct (decide (Z.of_nat k < cols C)%Z) as [Hk|Hk].
    - specialize (Hget i k ltac:(lia) Hk).
      rewrite (get_holds _ _ _ _ HC), (get_holds _ _ _ _ HD) in Hget by lia.
      injection Hget as Hget. unfold cell in Hget. by rewrite Hrc, Hrd in Hget.
    - assert (acc_get rc k = None) as ->.
      { apply acc_get_None. intros Hin.
        pose proof (structured_keys C _ HC HwC i k) as Hb. rewrite Hrc in Hb.
        specialize (Hb Hin). lia. }
      assert (acc_get rd k = None) as ->; [|done].
      apply acc_get_None. intros Hin.
      pose proof (structured_keys D _ HD HwD i k) as Hb. rewrite Hrd in Hb.
      specialize (Hb Hin). lia. }
  rewrite Heq in HC. by eapply holds_eq.
Qed.

(** ** Transposing twice, as stores *)

Lemma csr_of_structured m :
  structured m → sorted_columns m → no_stored_zero m → csr_invariants m.
Proof. intros [Hw Hm] Hs Hz. exact (conj Hw (conj Hs (conj Hz Hm))). Qed.

Lemma csr_structured m : csr_invariants m → structured m.
Proof. intros (? & _ & _ & ?). by split. Qed.

Lemma transpose_csr (A : Matrix) :
  csr_invariants A →
  ∃ T, transpose A = Ok T ∧ rows T = cols A ∧ cols T = rows A ∧ csr_invariants T ∧
       ∀ i j, (Z.of_nat i < rows A)%Z → (Z.of_nat j < cols A)%Z →
              get T j i = get A i j.
Proof.
  intros HA.
  destruct (transpose_cells A (csr_structured A HA))
    as (T & HT & HTr & HTc & HTs & Hz & Hd & Hget).
  exists T. split; [done|]. split; [done|]. split; [done|]. split; [|done].
  apply csr_of_structured; [done| |].
  - apply Hd, sorted_distinct_columns, HA.
  - apply Hz, HA.
Qed.

(** X14.  On a store that satisfies the invariants, transposing twice gives back
    the very same store: the same five fields, not only the same cells. *)
Theorem transpose_involution (A : Matrix) :
  csr_invariants A →
  ∃ T, transpose A = Ok T ∧ csr_invariants T ∧ transpose T = Ok A.
Proof.
  intros HA.
  destruct (transpose_csr A HA) as (T & HT & HrT & HcT & HiT & HgT).
  exists T. split; [done|]. split; [done|].
  destruct (transpose_csr T HiT) as (TT & HTT & HrTT & HcTT & HiTT & HgTT).
  rewrite HTT. f_equal. apply csr_unique; [done|done|congruence|congruence|].
  intros i j Hi Hj. rewrite HgTT by lia. apply HgT; lia.
Qed.

Lemma transpose_involution_witness :
  ∃ T, transpose m_4x6 = Ok T ∧ csr_invariants T ∧ transpose T = Ok m_4x6.
Proof. apply (transpose_involution m_4x6). by_evaluation. Defined.

(** ** Laws of [addition] and [subtract], as stores *)

Lemma clean_row_NoDup (r : entries) : clean_row r → NoDup r.*1.
Proof. intros [Hs _]. by apply Sorted_lt_NoDup. Qed.

(** The value that two rows merge into is exact when the value of the
    first row and the result are at most 2^53 in magnitude. *)
Lemma merged_row_exact f (ra rb : entries) k :
  NoDup ra.*1 → NoDup rb.*1 → f 0%Z = 0%Z →
  (Z.abs (default 0%Z (acc_get ra k)) ≤ 2 ^ 53)%Z →
  (Z.abs (default 0%Z (acc_get ra k) + f (default 0%Z (acc_get rb k))) ≤ 2 ^ 53)%Z →
  default 0%Z (acc_get (merged_row f ra rb) k) =
  (default 0%Z (acc_get ra k) + f (default 0%Z (acc_get rb k)))%Z.
Proof.
  intros Ha Hb Hf Hsa Hsum.
  rewrite merged_row_value by (done || by apply round64_exact).
  by apply number_add_exact.
Qed.

Lemma merged_row_assoc (a b c : entries) :
  NoDup a.*1 → NoDup b.*1 → NoDup c.*1 →
  (∀ k, Z.abs (default 0%Z (acc_get a k)) + Z.abs (default 0%Z (acc_get b k)) +
        Z.abs (default 0%Z (acc_get c k)) ≤ 2 ^ 53)%Z →
  merged_row id (merged_row id a b) c = merged_row id a (merged_row id b c).
Proof.
  intros Ha Hb Hc Hsafe.
  apply clean_rows_unique; [apply merged_row_clean..|]. intros k. specialize (Hsafe k).
  assert (Hab : default 0%Z (acc_get (merged_row id a b) k) =
                (default 0%Z (acc_get a k) + default 0%Z (acc_get b k))%Z)
    by (apply (merged_row_exact id); cbn [id]; (done || lia)).
  assert (Hbc : default 0%Z (acc_get (merged_row id b c) k) =
                (default 0%Z (acc_get b k) + default 0%Z (acc_get c k))%Z)
    by (apply (merged_row_exact id); cbn [id]; (done || lia)).
  rewrite !(merged_row_exact id); rewrite ?Hab, ?Hbc; cbn [id];
    try (done || lia || apply clean_row_NoDup, merged_row_clean).
Qed.

Lemma merged_row_undo (a b : entries) :
  clean_row a → NoDup b.*1 →
  (∀ k, Z.abs (default 0%Z (acc_get a k)) + Z.abs (default 0%Z (acc_get b k)) ≤ 2 ^ 53)%Z →
  merged_row Z.opp (merged_row id a b) b = a.
Proof.
  intros Ha Hb Hsafe.
  apply clean_rows_unique; [apply merged_row_clean|done|]. intros k. specialize (Hsafe k).
  assert (Hab : default 0%Z (acc_get (merged_row id a b) k) =
                (default 0%Z (acc_get a k) + default 0%Z (acc_get b k))%Z).
  { apply (merged_row_exact id); cbn [id]; try (done || lia).
    by apply clean_row_NoDup. }
  rewrite (merged_row_exact Z.opp); rewrite ?Hab;
    try (done || lia || apply clean_row_NoDup, merged_row_clean).
Qed.

(** The cells of a store are within its magnitude. *)
Lemma cell_magnitude m rs i j : holds m rs → (Z.abs (cell rs i j) ≤ magnitude m)%Z.
Proof.
  intros Hm. apply cell_bound; [apply magnitude_nonneg|].
  apply (holds_bounded m); [done | apply bounded_magnitude].
Qed.

Lemma lookup_merged_rows f (rsA rsB : list entries) (n : Z) i :
  default [] (((λ i, merged_row f (default [] (rsA !! i)) (default [] (rsB !! i)))
                 <$> upto n) !! i) =
  if decide (i < Z.to_nat n)
  then merged_row f (default [] (rsA !! i)) (default [] (rsB !! i)) else [].
Proof.
  rewrite list_lookup_fmap. unfold upto. destruct (decide (i < Z.to_nat n)).
  - by rewrite (proj2 (lookup_seq 0 _ i i)) by done.
  - by rewrite lookup_ge_None_2 by (rewrite length_seq; lia).
Qed.

Lemma fmap_upto_ext {A} (f g : nat → A) (n : Z) :
  (∀ i, i < Z.to_nat n → f i = g i) → f <$> upto n = g <$> upto n.
Proof.
  intros Hfg. apply list_fmap_ext. intros k i Hi. unfold upto in Hi.
  apply lookup_seq in Hi as [-> Hi]. by apply Hfg.
Qed.





(** ** The transpose of a product *)

Lemma dense_of_get m1 m2 i1 j1 i2 j2 :
  get m1 i1 j1 = get m2 i2 j2 → dense_of m1 i1 j1 = dense_of m2 i2 j2.
Proof. unfold dense_of. by intros ->. Qed.

Lemma dot_ext n f1 g1 f2 g2 :
  (∀ k, k < Z.to_nat n → (f1 k * g1 k = f2 k * g2 k)%Z) → dot n f1 g1 = dot n f2 g2.
Proof. intros H. unfold dot. f_equal. by apply fmap_upto_ext. Qed.



(** ** Strict [map] *)

Lemma foldlM_invariant {A B} (I : B → Prop) (f : B → A → result B) b l :
  (∀ b x, x ∈ l → I b → ∃ b', f b x = Ok b' ∧ I b') →
  I b → ∃ b', foldlM f b l = Ok b' ∧ I b'.
Proof.
  revert b. induction l as [|x l IH]; intros b Hf Hb; [by exists b|].
  destruct (Hf b x) as (b1 & Hb1 & HI1); [by left|done|].
  cbn. rewrite Hb1. cbn. apply IH; [|done].
  intros b' y Hy. apply Hf. by right.
Qed.

Lemma map_visit_invariant callback C value row col :
  map_invariant C → map_invariant (map_visit callback C value row col).
Proof.
  intros (Hshape & Hnz & Hlen). unfold map_visit.
  set (v := callback value row col).
  assert (Hemit : ∀ C1, C1 = (if decide (v ≠ 0%Z) then emit C v col else C) →
            Forall (λ v, v ≠ 0%Z) (C_V C1) ∧ length (C_COL_INDEX C1) = length (C_V C1) ∧
            C_ROW_INDEX C1 = C_ROW_INDEX C ∧ length (C_V C1) ≤ S (length (C_V C)) ∧
            length (C_COL_INDEX C) ≤ length (C_COL_INDEX C1)).
  { intros C1 ->. destruct (decide (v ≠ 0%Z)); cbn.
    - rewrite Forall_app, Forall_singleton, !length_app. cbn. repeat split; try done; lia.
    - repeat split; try done; lia. }
  destruct (Hemit _ eq_refl) as (Hnz1 & Hlen1 & Hrow1 & Hle1 & Hge1).
  set (C1 := if decide (v ≠ 0%Z) then emit C v col else C) in *.
  destruct (decide (length (C_ROW_INDEX C1) - 1 < row + 1)) as [Hpush|Hpush].
  - split; [|by split]. right. unfold first_row_closed. cbn. rewrite Hrow1.
    destruct Hshape as [->|(p & rest & Hr & Hp & Hpc)].
    + exists (length (C_V C1)), []. cbn in Hle1. split; [done|]. split; [lia|lia].
    + exists p, (rest ++ [length (C_V C1)]). rewrite Hr. split; [done|]. split; [done|lia].
  - split; [|by split].
    destruct Hshape as [->|(p & rest & Hr & Hp & Hpc)].
    + exfalso. apply Hpush. rewrite Hrow1. cbn. lia.
    + right. exists p, rest. rewrite Hrow1. split; [done|]. split; [done|lia].
Qed.

Lemma map_strict_invariant m callback :
  structured m →
  ∃ C, forEach m (map_visit callback) true empty_arrays = Ok C ∧ map_invariant C.
Proof.
  intros Hs. pose proof (structured_holds m Hs) as Hm.
  unfold forEach. apply foldlM_invariant.
  - intros C row Hrow HC. rewrite (holds_length_ROW_INDEX _ _ Hm) in Hrow.
    apply elem_of_seq in Hrow.
    destruct (lookup_lt_is_Some_2 (rows_of m) row) as [r Hr]; [lia|].
    rewrite (strict_row_entries m _ row r (λ s v c, map_visit callback s v row c) C Hm Hr).
    eexists. split; [reflexivity|].
    clear Hr. revert C HC. induction r as [|e r IH]; intros C HC; [done|].
    cbn. by apply IH, map_visit_invariant.
  - split; [by left|]. split; [constructor|done].
Qed.

(** X25.  Strict [map] leaves its receiver as it is and never stores a zero, but
    the offset of a row is pushed after its first entry only: whatever the
    receiver and the callback, row 0 of the store returned holds at most one
    entry. *)
Theorem map_strict_first_row (m : Matrix) (callback : Z → nat → nat → Z) :
  structured m →
  ∃ C, map m callback true = Ok (m, C) ∧ rows C = rows m ∧ cols C = cols m ∧
       no_stored_zero C ∧ length (COL_INDEX C) = length (V C) ∧
       length (columns C 0) ≤ 1.
Proof.
  intros Hs. destruct (map_strict_invariant m callback Hs) as (C & HC & Hshape & Hnz & Hlen).
  unfold map. rewrite HC. cbn [mbind result_bind].
  eexists. split; [reflexivity|]. split; [done|]. split; [done|]. split; [done|].
  split; [done|].
  destruct Hshape as [->|(p & rest & Hr & Hp & Hpc)].
  - rewrite columns_empty by done. cbn. lia.
  - unfold columns. cbn [with_arrays ROW_INDEX COL_INDEX]. rewrite Hr. cbn [lookup list_lookup Nat.add]. unfold slice. cbn [default].
    rewrite drop_0, length_take. unfold id. lia.
Qed.

Lemma map_strict_first_row_witness :
  ∃ C, map m_1234 (λ value _ _, value + 2)%Z true = Ok (m_1234, C) ∧
       rows C = 2%Z ∧ cols C = 2%Z ∧ no_stored_zero C ∧
       length (COL_INDEX C) = length (V C) ∧ length (columns C 0) ≤ 1.
Proof. apply (map_strict_first_row m_1234). by_evaluation. Defined.

(** With exactly one entry in every row the offsets come out right. *)
Lemma map_strict_rows m rs callback l acc :
  holds m rs → Forall (λ r : entries, length r = 1) rs →
  Forall (λ i, i < length rs) l →
  (∀ k j, l !! k = Some j → j = length acc + k) →
  foldlM (λ s row,
            foldlM (λ s i,
                      col ← read (COL_INDEX m) i;
                      value ← read (V m) i;
                      Ok (map_visit callback s value row col))
                   s (row_range m row))
         (layout acc) l =
  Ok (layout (acc ++ ((λ i, mapped_entry callback i
                              (default (0, 0%Z) (rs !! i ≫= head))) <$> l))).
Proof.
  intros Hm Hone. revert acc. induction l as [|i l IH]; intros acc Hl Hpos.
  - by rewrite app_nil_r.
  - apply Forall_cons in Hl as [Hi Hl].
    destruct (lookup_lt_is_Some_2 rs i Hi) as [r Hr].
    assert (i = length acc) as Hi0 by (rewrite (Hpos 0 i eq_refl); lia).
    pose proof Hone as Hone'. eapply Forall_lookup_1 in Hone'; [|exact Hr].
    destruct r as [|e [|??]]; try done.
    cbn [foldlM].
    rewrite (strict_row_entries m _ i [e] (λ s v c, map_visit callback s v i c) _ Hm Hr).
    cbn [foldl mbind result_bind fmap list_fmap]. rewrite Hr. cbn [mbind option_bind head default].
    assert (Hvisit : map_visit callback (layout acc) e.2 i e.1 =
                     layout (acc ++ [mapped_entry callback i e])).
    { unfold map_visit, mapped_entry.
      assert (Hlen : ∀ C1, C_ROW_INDEX C1 = C_ROW_INDEX (layout acc) →
                length (C_ROW_INDEX C1) - 1 < i + 1).
      { intros C1 ->. unfold layout. cbn. rewrite length_fmap, length_seq. lia. }
      rewrite <- close_row_layout.
      destruct (decide (callback e.2 i e.1 ≠ 0%Z)).
      - rewrite decide_True by (by apply Hlen). done.
      - rewrite decide_True by (by apply Hlen). done. }
    rewrite Hvisit, IH.
    + by rewrite <- app_assoc.
    + done.
    + intros k j Hk. rewrite length_app. cbn.
      rewrite (Hpos (S k) j Hk). lia.
Qed.

(** X26.  When every row of the receiver stores exactly one entry (a diagonal or
    a permutation matrix, say), strict [map] returns a store of the data
    model whose stored cells read the callback's value and whose other
    cells read 0. *)
Theorem map_strict_one_per_row (m : Matrix) (callback : Z → nat → nat → Z) (i j : nat) :
  structured m →
  Forall (λ row, length (columns m row) = 1) (upto (rows m)) →
  (Z.of_nat i < rows m)%Z →
  ∃ C, map m callback true = Ok (m, C) ∧ csr_invariants C ∧
       get C i j = Ok (if decide (j ∈ columns m i)
                       then callback (dense_of m i j) i j else 0%Z).
Proof.
  intros Hs Hone Hi. pose proof (structured_holds m Hs) as Hm.
  pose proof (holds_length _ _ Hm (proj1 Hs)) as Hlen.
  assert (Hone' : Forall (λ r : entries, length r = 1) (rows_of m)).
  { apply Forall_lookup. intros k r Hk.
    rewrite <- (length_fmap fst), <- (holds_columns _ _ Hm _ _ Hk).
    eapply Forall_forall in Hone; [exact Hone|].
    unfold upto. apply elem_of_seq. apply lookup_lt_Some in Hk. lia. }
  unfold map, forEach. rewrite (holds_length_ROW_INDEX _ _ Hm). cbn [Nat.sub].
  rewrite Nat.sub_0_r. change empty_arrays with (layout []).
  rewrite (map_strict_rows m _ callback _ [] Hm Hone').
  2:{ apply Forall_forall. intros k Hk. apply elem_of_seq in Hk. lia. }
  2:{ intros k k' Hk. apply lookup_seq in Hk as [-> _]. done. }
  cbn [mbind result_bind app].
  match goal with |- context [layout ?rs] => set (rsC := rs) end.
  pose proof (holds_with_arrays (rows m) (cols m) rsC) as HC.
  assert (HlC : length rsC = length (rows_of m)).
  { unfold rsC. by rewrite length_fmap, length_seq. }
  destruct (lookup_lt_is_Some_2 (rows_of m) i) as [r Hr]; [lia|].
  pose proof Hone' as Hr1. eapply Forall_lookup_1 in Hr1; [|exact Hr].
  destruct r as [|[c v] [|??]]; try done.
  assert (HrC : rsC !! i = Some (mapped_entry callback i (c, v))).
  { unfold rsC. rewrite list_lookup_fmap.
    rewrite (proj2 (lookup_seq 0 _ i i)) by (split; [done|lia]). cbn.
    by rewrite Hr. }
  eexists. split; [reflexivity|]. split.
  - destruct (holds_clean _ _ HC) as (Hso & Hz & Hmono & _).
    { apply Forall_fmap, Forall_forall. intros k _. cbn.
      unfold mapped_entry. destruct (decide _); split; repeat constructor. done. }
    split; [|done].
    eapply holds_well_shaped; [exact HC| | | |]; cbn [rows cols with_arrays].
    + lia.
    + apply Hs.
    + apply Hs.
    + apply Forall_forall. intros k Hk.
      apply elem_of_concat_keys in Hk as (i' & r' & Hi' & Hk).
      unfold rsC in Hi'. rewrite list_lookup_fmap in Hi'.
      destruct (seq 0 (length (rows_of m)) !! i') as [i''|] eqn:Hseq; [|done].
      apply lookup_seq in Hseq as [-> Hlt]. injection Hi' as <-.
      destruct (lookup_lt_is_Some_2 (rows_of m) i' Hlt) as [r'' Hr''].
      rewrite Hr'' in Hk. cbn in Hk.
      pose proof Hone' as Hr2. eapply Forall_lookup_1 in Hr2; [|exact Hr''].
      destruct r'' as [|e' [|??]]; try done. cbn in Hk.
      unfold mapped_entry in Hk. destruct (decide _); [|by apply elem_of_nil in Hk].
      apply list_elem_of_singleton in Hk. subst k.
      apply (structured_keys m _ Hm (proj1 Hs) i'). rewrite Hr''.
      apply list_elem_of_fmap. exists e'. split; [done|]. apply list_elem_of_singleton, eq_refl.
  - rewrite (get_holds _ _ _ _ HC) by lia. f_equal.
    unfold cell. rewrite HrC. cbn [mbind option_bind].
    rewrite (holds_columns _ _ Hm _ _ Hr). cbn [fmap list_fmap fst].
    rewrite (dense_of_holds _ _ _ _ Hm) by lia. unfold cell. rewrite Hr.
    cbn [mbind option_bind acc_get]. unfold mapped_entry. cbn [fst snd].
    destruct (decide (c = j)) as [->|Hne].
    + rewrite (decide_True (P := j ∈ [j])) by (by apply list_elem_of_singleton).
      cbn [default].
      destruct (decide (callback v i j ≠ 0%Z)) as [|Hz]; cbn [acc_get default].
      * by rewrite decide_True.
      * destruct (decide (callback v i j = 0%Z)) as [Heq|]; [|by destruct Hz].
        cbn. by rewrite Heq.
    + rewrite (decide_False (P := j ∈ [c])).
      2:{ intros ?%list_elem_of_singleton. congruence. }
      destruct (decide (callback v i c ≠ 0%Z)); cbn [acc_get default]; [|done].
      by rewrite decide_False.
Qed.

Lemma map_strict_one_per_row_witness :
  ∃ C, map m_1004 (λ value _ _, value + 2)%Z true = Ok (m_1004, C) ∧ csr_invariants C ∧
       get C 1 1 = Ok 6%Z.
Proof.
  apply (map_strict_one_per_row m_1004 (λ value _ _, value + 2)%Z 1 1);
    [by_evaluation | by_evaluation | reflexivity].
Defined.
